(** * Reverb service handlers: a shallow embedding of
    [reverb/cc/reverb_service_impl.cc]

    The members of [ReverbServiceImpl] are written as programs in a
    small monad.  A member talks to collaborators that live outside the
    file (the gRPC stream and context, the [ChunkStore], the [Table]s,
    the [Checkpointer]); what those collaborators answer is given to
    the program, for the streaming handlers as a script with one answer
    per call and in call order, and every call made is recorded in a
    trace.  Statements about what a member returns, writes or asks of a
    table are statements about the outcome and the trace of a run. *)

From stdpp Require Import gmap strings list fin_maps pretty.
From Stdlib Require Import ZArith Lia.

#[local] Open Scope Z_scope.

(** ** Statuses ([grpc::Status], [absl::Status]) *)

Inductive StatusCode :=
| OK | CANCELLED | UNKNOWN | INVALID_ARGUMENT | DEADLINE_EXCEEDED
| NOT_FOUND | ALREADY_EXISTS | PERMISSION_DENIED | RESOURCE_EXHAUSTED
| FAILED_PRECONDITION | ABORTED | OUT_OF_RANGE | UNIMPLEMENTED
| INTERNAL | UNAVAILABLE | DATA_LOSS | UNAUTHENTICATED.

Record Status := { code : StatusCode; message : string }.

(** [grpc::Status::OK] *)
Definition Status_OK : Status := {| code := OK; message := "" |}.

(** [status.ok()] *)
Definition ok (s : Status) : bool :=
  match code s with OK => true | _ => false end.

Definition not_ok (s : Status) : Prop := ok s = false.

(** [TableNotFound(name)], lines 52-55. *)
Definition TableNotFound (name : string) : Status :=
  {| code := NOT_FOUND;
     message := "Priority table " +:+ name +:+ " was not found" |}.

(** [Internal(message)], lines 57-59. *)
Definition Internal (msg : string) : Status :=
  {| code := INTERNAL; message := msg |}.

(** [ToGrpcStatus] (support/grpc_util.h) carries the code and the message
    of an [absl::Status] over to a [grpc::Status]; both are [Status] here. *)
Definition ToGrpcStatus (s : Status) : Status := s.

(** ** Integers

    Proto fields and C++ integers are [Z]; the conversions the code
    performs are written out. *)

(** Conversion to [int32_t] / [int]: the value modulo 2^32, read as
    two's complement (what the compilers do with a value out of range;
    the rule of the language since C++20). *)
Definition to_int32 (z : Z) : Z := (z + 2^31) mod 2^32 - 2^31.

Definition INT32_MAX : Z := 2^31 - 1.

(** Line 50: [kMaxSampleResponseSizeBytes = 40 * 1024 * 1024]. *)
Definition kMaxSampleResponseSizeBytes : Z := 40 * 1024 * 1024.

(** ** Data carried by the service *)

(** [ChunkStore::Key]: an unsigned 64-bit chunk key, kept as its value.
    The retention step looks keys up in a [flat_hash_set<int64_t>]; the
    conversion between the unsigned and the signed reading of a 64-bit
    pattern is one-to-one, so membership and cardinality are those of
    the unsigned values. *)
Definition Key : Type := N.

(** A [double] field is only ever copied by the service; it is kept as
    its 64-bit pattern. *)
Definition double : Type := Z.

(** [ChunkData]: the chunk key and the compressed payload.  The service
    never looks inside the payload, which is kept as its length in
    bytes.  A [ChunkStore::Chunk] is identified with the [ChunkData] it
    holds. *)
Record ChunkData := { chunk_key : Key; data_bytes : Z }.

Definition Chunk : Type := ChunkData.

Record ChunkSlice := { slice_chunk_key : Key; slice_offset : Z; slice_length : Z }.

Record FlatTrajectory := { columns : list (list ChunkSlice) }.

Module PrioritizedItem.
Record t := {
  key : Key;
  table : string;
  priority : double;
  times_sampled : Z;
  flat_trajectory : FlatTrajectory
}.

Definition set_priority (p : double) (i : t) : t :=
  {| key := key i; table := table i; priority := p;
     times_sampled := times_sampled i;
     flat_trajectory := flat_trajectory i |}.

Definition set_times_sampled (n : Z) (i : t) : t :=
  {| key := key i; table := table i; priority := priority i;
     times_sampled := n; flat_trajectory := flat_trajectory i |}.
End PrioritizedItem.

(** [Table::Item]: the item record and the chunks it references. *)
Module TableItem.
Record t := { item : PrioritizedItem.t; chunks : list Chunk }.
End TableItem.

(** What the service reads off a [Table] without changing it. *)
Record Table := { name : string; DefaultFlexibleBatchSize : Z }.

(** [tables_] and [TableByName], lines 382-386. *)
Definition TableByName (tables_ : gmap string Table) (name : string)
  : option Table := tables_ !! name.

(** ** The handler monad

    A run starts from the answers still to come ([W]) and yields an
    outcome, the answers left, and the calls made ([E]), oldest first. *)

Inductive Outcome (A : Type) :=
| Next (a : A)          (* control reaches the next statement *)
| Return (s : Status)   (* the handler executed [return s] *)
| Fatal                 (* a REVERB_CHECK failed: the process aborts *)
| Pending.              (* blocked in a call whose answer has not come *)

Arguments Next {A} a.
Arguments Return {A} s.
Arguments Fatal {A}.
Arguments Pending {A}.

Record Run (W E A : Type) := MkRun {
  outcome : Outcome A;
  world : W;
  trace : list E
}.

Arguments MkRun {W E A} _ _ _.
Arguments outcome {W E A} _.
Arguments world {W E A} _.
Arguments trace {W E A} _.

Definition M (W E A : Type) : Type := W -> Run W E A.

Section Monad.
Context {W E : Type}.

Definition ret {A} (a : A) : M W E A := fun w => MkRun (Next a) w [].

Definition stop {A} (s : Status) : M W E A := fun w => MkRun (Return s) w [].

Definition fatal {A} : M W E A := fun w => MkRun Fatal w [].

Definition pending {A} : M W E A := fun w => MkRun Pending w [].

Definition call (e : E) : M W E unit := fun w => MkRun (Next tt) w [e].

Definition bind {A B} (m : M W E A) (k : A -> M W E B) : M W E B :=
  fun w =>
    let r := m w in
    match outcome r with
    | Next a =>
        let r' := k a (world r) in
        MkRun (outcome r') (world r') (trace r ++ trace r')
    | Return s => MkRun (Return s) (world r) (trace r)
    | Fatal => MkRun Fatal (world r) (trace r)
    | Pending => MkRun Pending (world r) (trace r)
    end.

(** [for (x : xs) body(x);] *)
Fixpoint for_each {A} (body : A -> M W E unit) (xs : list A) : M W E unit :=
  match xs with
  | [] => ret tt
  | x :: xs' => bind (body x) (fun _ => for_each body xs')
  end.
(** What a run from [w] ensures: [Q] of its value and calls when
    control goes on, [R] of the status when the handler returns. *)
Definition ensures {A} (m : M W E A) (w : W)
    (Q : A -> list E -> Prop) (R : Status -> Prop) : Prop :=
  match outcome (m w) with
  | Next a => Q a (trace (m w))
  | Return s => R s
  | Fatal | Pending => True
  end.

(** A run that stops at its first failing call: either every call is
    [good] (and a status returned then is a [plain] one), or the last
    call is [bad], the calls before it are [good], and the status
    returned is the one the [bad] call brings. *)
Definition fails_last {A} (good : E -> Prop) (bad : E -> Status -> Prop)
    (plain : Status -> Prop) (m : M W E A) (w : W) : Prop :=
  match outcome (m w) with
  | Return s =>
      (Forall good (trace (m w)) /\ plain s)
      \/ exists pre ev,
           trace (m w) = pre ++ [ev] /\ Forall good pre /\ bad ev s
  | Next _ | Fatal | Pending => Forall good (trace (m w))
  end.

(** A run that comes after the calls [pre] and keeps [G] of all the
    calls made so far, with [I] of its value and those calls when
    control goes on. *)
Definition keeps {A} (G : list E -> Prop) (I : A -> list E -> Prop)
    (m : M W E A) (w : W) (pre : list E) : Prop :=
  G (pre ++ trace (m w))
  /\ match outcome (m w) with
     | Next a => I a (pre ++ trace (m w))
     | Return _ | Fatal | Pending => True
     end.

(** Every call of a run satisfies [P]. *)
Definition emits {A} (P : E -> Prop) (m : M W E A) : Prop :=
  forall w, Forall P (trace (m w)).

End Monad.

Notation "x <- c ;; k" := (bind c (fun x => k))
  (at level 100, c at next level, right associativity).
Notation "c ;;; k" := (bind c (fun _ => k))
  (at level 100, right associativity).

(** Taking the next answer of a script; [d] is the answer once the
    script has run out. *)
Definition next_answer {A} (d : A) (script : list A) : A * list A :=
  match script with
  | [] => (d, [])
  | a :: script' => (a, script')
  end.

(** ** SampleStream (lines 269-380) *)

Module Sample.

(** [SampleStreamRequest].  [num_samples] is a 64-bit field and
    [flexible_batch_size] a 32-bit one: line 310 has to name the type in
    [std::min<int32_t>] because [request.num_samples() - count] is wider
    than the batch sizes it is compared with.  [rate_limiter_timeout] is
    [None] when [has_rate_limiter_timeout()] is false, and else holds
    [rate_limiter_timeout().milliseconds()]. *)
Record SampleStreamRequest := {
  table : string;
  num_samples : Z;
  rate_limiter_timeout : option Z;
  flexible_batch_size : Z
}.

(** [absl::Duration], as far as the handler uses it. *)
Inductive Duration := Milliseconds (ms : Z) | InfiniteDuration.

Definition ZeroDuration : Duration := Milliseconds 0.

(** [a < b] on durations. *)
Definition Duration_lt (a b : Duration) : bool :=
  match a, b with
  | Milliseconds x, Milliseconds y => x <? y
  | Milliseconds _, InfiniteDuration => true
  | InfiniteDuration, _ => false
  end.

(** [Table::SampledItem] *)
Record SampledItem := {
  ref : TableItem.t;
  priority : double;
  times_sampled : Z;
  probability : double;
  table_size : Z;
  rate_limited : bool
}.

(** [SampleInfo], the [info] field of a response entry. *)
Module SampleInfo.
Record t := {
  item : PrioritizedItem.t;
  probability : double;
  table_size : Z;
  rate_limited : bool
}.
End SampleInfo.

(** One entry of a [SampleStreamResponse]. *)
Record Entry := {
  info : option SampleInfo.t;
  data : list ChunkData;
  end_of_sequence : bool
}.

Record SampleStreamResponse := { entries : list Entry }.

(** A fresh entry, as [response.add_entries()] returns it. *)
Definition add_entries : Entry :=
  {| info := None; data := []; end_of_sequence := false |}.

Definition set_end_of_sequence (b : bool) (e : Entry) : Entry :=
  {| info := info e; data := data e; end_of_sequence := b |}.

Definition set_info (i : SampleInfo.t) (e : Entry) : Entry :=
  {| info := Some i; data := data e; end_of_sequence := end_of_sequence e |}.

(** [entry->mutable_data()->UnsafeArenaAddAllocated(chunk)] *)
Definition add_data (c : ChunkData) (e : Entry) : Entry :=
  {| info := info e; data := data e ++ [c];
     end_of_sequence := end_of_sequence e |}.

(** Lines 333-339: the info attached to the first message. *)
Definition info_of (sample : SampledItem) : SampleInfo.t :=
  {| SampleInfo.item :=
       PrioritizedItem.set_times_sampled (times_sampled sample)
         (PrioritizedItem.set_priority (priority sample)
            (TableItem.item (ref sample)));
     SampleInfo.probability := probability sample;
     SampleInfo.table_size := table_size sample;
     SampleInfo.rate_limited := rate_limited sample |}.

(** The answers of the transport: what [context->IsCancelled()] and
    [stream->Write] return, call after call.  A script that has run
    out answers "not cancelled" and "written". *)
Record Transport := {
  cancelled : list bool;
  writes : list bool
}.

(** What [Table::SampleFlexibleBatch] answers: the status and the
    samples it filled in. *)
Definition Batch : Type := Status * list SampledItem.

(** The calls the handler makes. *)
Inductive Event :=
| SampleFlexibleBatch (table : string) (max_batch_size : Z) (timeout : Duration)
| Write (response : SampleStreamResponse) (written : bool).

Definition IsCancelled : M Transport Event bool :=
  fun w =>
    let (c, rest) := next_answer false (cancelled w) in
    MkRun (Next c) {| cancelled := rest; writes := writes w |} [].

Definition stream_Write (response : SampleStreamResponse)
  : M Transport Event bool :=
  fun w =>
    let (b, rest) := next_answer true (writes w) in
    MkRun (Next b) {| cancelled := cancelled w; writes := rest |}
          [Write response b].

(** The responses a trace wrote, oldest first, and their entries. *)
Definition written (t : list Event) : list SampleStreamResponse :=
  flat_map (fun e => match e with Write r _ => [r] | _ => [] end) t.

Definition written_entries (t : list Event) : list Entry :=
  flat_map entries (written t).

(** The entry as it stood before its last chunk was appended: the flag
    was [false] then, since a chunk was still to come. *)
Definition before_last_chunk (e : Entry) : Entry :=
  {| info := info e; data := removelast (data e); end_of_sequence := false |}.

(** [set_rate_limiter_timeout] on a request. *)
Definition set_rate_limiter_timeout (t : option Z) (r : SampleStreamRequest)
  : SampleStreamRequest :=
  {| table := table r; num_samples := num_samples r;
     rate_limiter_timeout := t;
     flexible_batch_size := flexible_batch_size r |}.

(** The batch sizes a trace asked of the table, oldest first. *)
Definition asked (t : list Event) : list Z :=
  flat_map (fun e => match e with
                     | SampleFlexibleBatch _ n _ => [n]
                     | Write _ _ => []
                     end) t.

(** A sampling call, if [ev] is one, passes [timeout]. *)
Definition asks_with_timeout (timeout : Duration) (ev : Event) : Prop :=
  match ev with
  | SampleFlexibleBatch _ _ d => d = timeout
  | Write _ _ => True
  end.

Section Handler.
(** [Sampler::kAutoSelectValue] (sampler.h) and the protobuf
    [ByteSizeLong] of an entry are declared outside this file. *)
Variable kAutoSelectValue : Z.
Variable ByteSizeLong : Entry -> Z.
Variable tables_ : gmap string Table.

(** Lines 326-372: the loop over the chunks of one sample.  [size]
    is [sample.ref->chunks.size()], [remaining] the chunks from
    [chunk_idx] on, [entry] the entry under construction.  Inside the
    loop [size] is at least 1, so the unsigned [size - 1] of line 349
    does not wrap.  Releasing the borrowed chunks (lines 362-364) and
    clearing the response (lines 370-371) leave a fresh entry. *)
Fixpoint chunk_loop (sample : SampledItem) (size chunk_idx : Z)
    (remaining : list Chunk) (entry : Entry)
  : M Transport Event unit :=
  match remaining with
  | [] => ret tt
  | chunk :: remaining' =>
      let entry := set_end_of_sequence (chunk_idx + 1 =? size) entry in
      let entry :=
        if chunk_idx =? 0 then set_info (info_of sample) entry else entry in
      let entry := add_data chunk entry in
      if (chunk_idx <? size - 1)
           && (ByteSizeLong entry <? kMaxSampleResponseSizeBytes)
      then chunk_loop sample size (chunk_idx + 1) remaining' entry
      else
        written <- stream_Write {| entries := [entry] |} ;;
        if negb written
        then stop (Internal "Failed to write to Sample stream.")
        else chunk_loop sample size (chunk_idx + 1) remaining' add_entries
  end.

(** The entries [chunk_loop] writes when no write fails, in order: the
    same loop with the transport left out. *)
Fixpoint frames (sample : SampledItem) (size chunk_idx : Z)
    (remaining : list Chunk) (entry : Entry) : list Entry :=
  match remaining with
  | [] => []
  | chunk :: remaining' =>
      let entry := set_end_of_sequence (chunk_idx + 1 =? size) entry in
      let entry :=
        if chunk_idx =? 0 then set_info (info_of sample) entry else entry in
      let entry := add_data chunk entry in
      if (chunk_idx <? size - 1)
           && (ByteSizeLong entry <? kMaxSampleResponseSizeBytes)
      then frames sample size (chunk_idx + 1) remaining' entry
      else entry :: frames sample size (chunk_idx + 1) remaining' add_entries
  end.

(** A written entry holds a chunk; unless it carries the end of the
    sequence it has reached the bound; and it was below the bound until
    its last chunk was appended. *)
Definition flushed_at_bound (e : Entry) : Prop :=
  data e <> []
  /\ (end_of_sequence e = false ->
      kMaxSampleResponseSizeBytes <= ByteSizeLong e)
  /\ (removelast (data e) <> [] ->
      ByteSizeLong (before_last_chunk e) < kMaxSampleResponseSizeBytes).

(** Lines 322-373, one sample. *)
Definition stream_sample (sample : SampledItem) : M Transport Event unit :=
  let chunks := TableItem.chunks (ref sample) in
  chunk_loop sample (Z.of_nat (length chunks)) 0 chunks add_entries.

(** The entries [stream_sample] writes when no write fails. *)
Definition sample_frames (sample : SampledItem) : list Entry :=
  let chunks := TableItem.chunks (ref sample) in
  frames sample (Z.of_nat (length chunks)) 0 chunks add_entries.

(** Lines 310-314: [std::min<int32_t>] converts both arguments to
    [int32_t] and compares them there. *)
Definition max_batch_size_of (request : SampleStreamRequest)
    (default_flexible_batch_size count : Z) : Z :=
  Z.min
    (to_int32 (if flexible_batch_size request =? kAutoSelectValue
               then default_flexible_batch_size
               else flexible_batch_size request))
    (to_int32 (num_samples request - count)).

(** Lines 308-374: the sampling loop of one request.  [answers] are
    the answers of [SampleFlexibleBatch] still to come; the loop
    hands back the ones it has not used.  [count] is an [int]: line 320
    adds [samples.size()] to it and converts back. *)
Fixpoint sampling_loop (answers : list Batch)
    (request : SampleStreamRequest) (table : Table)
    (default_flexible_batch_size : Z) (timeout : Duration) (count : Z)
  : M Transport Event (list Batch) :=
  is_cancelled <- IsCancelled ;;
  if negb is_cancelled && negb (count =? num_samples request) then
    let max_batch_size :=
      max_batch_size_of request default_flexible_batch_size count in
    call (SampleFlexibleBatch (name table) max_batch_size timeout) ;;;
    match answers with
    | [] => pending
    | (status, samples) :: answers' =>
        if negb (ok status) then stop (ToGrpcStatus status)
        else
          let count := to_int32 (count + Z.of_nat (length samples)) in
          for_each stream_sample samples ;;;
          sampling_loop answers' request table
            default_flexible_batch_size timeout count
    end
  else ret answers.

(** The batch sizes the loop asks for when nothing cuts it short: each
    is computed from the count of the samples the earlier answers
    brought (kept in an [int], as the code keeps it). *)
Fixpoint batch_sizes (answers : list Batch) (request : SampleStreamRequest)
    (default_flexible_batch_size count : Z) : list Z :=
  if count =? num_samples request then []
  else
    max_batch_size_of request default_flexible_batch_size count
    :: match answers with
       | [] => []
       | (status, samples) :: answers' =>
           if negb (ok status) then []
           else batch_sizes answers' request default_flexible_batch_size
                            (to_int32 (count + Z.of_nat (length samples)))
       end.

(** Lines 291-374: the body of the do-while loop. *)
Definition serve_request (request : SampleStreamRequest)
    (timeout : Duration) (answers : list Batch)
  : M Transport Event (list Batch) :=
  if num_samples request <=? 0 then
    stop {| code := INVALID_ARGUMENT;
            message := "`num_samples` must be > 0." |}
  else if (flexible_batch_size request <=? 0)
            && negb (flexible_batch_size request =? kAutoSelectValue) then
    stop {| code := INVALID_ARGUMENT;
            message := "`flexible_batch_size` must be > 0 or "
                       +:+ pretty kAutoSelectValue
                       +:+ " (for auto tuning)." |}
  else
    match TableByName tables_ (table request) with
    | None => stop (TableNotFound (table request))
    | Some table =>
        let default_flexible_batch_size :=
          DefaultFlexibleBatchSize table in
        sampling_loop answers request table
          default_flexible_batch_size timeout 0
    end.

(** Lines 290-377: [do { ... } while (stream->Read(&request))].
    [incoming] are the requests the client still sends. *)
Fixpoint request_loop (request : SampleStreamRequest)
    (incoming : list SampleStreamRequest) (timeout : Duration)
    (answers : list Batch) : M Transport Event unit :=
  answers <- serve_request request timeout answers ;;
  match incoming with
  | [] => stop Status_OK
  | request' :: incoming' =>
      request_loop request' incoming' timeout answers
  end.

(** Lines 284-288. *)
Definition timeout_of (request : SampleStreamRequest) : Duration :=
  let timeout :=
    Milliseconds (match rate_limiter_timeout request with
                  | Some ms => ms
                  | None => -1
                  end) in
  if Duration_lt timeout ZeroDuration then InfiniteDuration else timeout.

(** [SampleStreamInternal], lines 276-380. *)
Definition SampleStreamInternal (incoming : list SampleStreamRequest)
    (answers : list Batch) : M Transport Event unit :=
  match incoming with
  | [] => stop (Internal "Could not read initial request")
  | request :: incoming' =>
      request_loop request incoming' (timeout_of request) answers
  end.
End Handler.

(** A call that went well: a response that was written; a call of the
    table counts as one (its status is not part of the call). *)
Definition wrote (ev : Event) : Prop :=
  match ev with
  | Write _ written => written = true
  | SampleFlexibleBatch _ _ _ => True
  end.

(** A response that was not written, and the status the handler
    returns for it (lines 366-368). *)
Definition write_failed (ev : Event) (s : Status) : Prop :=
  match ev with
  | Write _ written =>
      written = false /\ s = Internal "Failed to write to Sample stream."
  | SampleFlexibleBatch _ _ _ => False
  end.

(** The statuses the handler returns without a write having failed: OK
    at the end of the stream (line 379), no initial request (line 282),
    the three rejections of a request (lines 292-304), and the status
    of a table that failed to sample (lines 315-319). *)
Definition plain_status (kAutoSelectValue : Z) (answers : list Batch)
    (s : Status) : Prop :=
  s = Status_OK
  \/ s = Internal "Could not read initial request"
  \/ s = {| code := INVALID_ARGUMENT;
            message := "`num_samples` must be > 0." |}
  \/ s = {| code := INVALID_ARGUMENT;
            message := "`flexible_batch_size` must be > 0 or "
                       +:+ pretty kAutoSelectValue
                       +:+ " (for auto tuning)." |}
  \/ (exists table_name, s = TableNotFound table_name)
  \/ (exists status samples,
        In (status, samples) answers
        /\ ok status = false /\ s = ToGrpcStatus status).

(** The number of samples a list of answers brought. *)
Definition delivered (used : list Batch) : Z :=
  foldr (fun answer n => Z.of_nat (length (snd answer)) + n) 0 used.

(** The count of line 320 after the answers [used], kept in an [int]. *)
Definition counted (count : Z) (used : list Batch) : Z :=
  foldl (fun count answer =>
           to_int32 (count + Z.of_nat (length (snd answer)))) count used.

(** The entry as it stood when its first [k] chunks had been appended,
    with more chunks of the same response still to come: the flag was
    [false] then. *)
Definition after_chunks (k : nat) (e : Entry) : Entry :=
  {| info := info e; data := take k (data e); end_of_sequence := false |}.

(** A written entry that was flushed when it was due and no sooner: it
    holds a chunk; unless it carries the end of the sequence it has
    reached the bound; and it was below the bound as long as it held
    fewer chunks. *)
Definition flushed_when_due (ByteSizeLong : Entry -> Z) (e : Entry) : Prop :=
  data e <> []
  /\ (end_of_sequence e = false ->
      kMaxSampleResponseSizeBytes <= ByteSizeLong e)
  /\ (forall k, (0 < k < length (data e))%nat ->
                ByteSizeLong (after_chunks k e) < kMaxSampleResponseSizeBytes).

(** A response, if [ev] writes one, holds one entry, and that entry was
    flushed when it was due. *)
Definition writes_when_due (ByteSizeLong : Entry -> Z) (ev : Event) : Prop :=
  match ev with
  | Write response _ =>
      exists e, response = {| entries := [e] |}
                /\ flushed_when_due ByteSizeLong e
  | SampleFlexibleBatch _ _ _ => True
  end.

(** [per_request] are the answers of the table that a stream with the
    calls [t] used, request by request: they are the first of
    [answers], each of them OK and each the answer to one sampling call
    of [t]; there is a list of them for every request; and in a stream
    that is never cancelled the answers to a request count up to its
    [num_samples]. *)
Definition answers_used (incoming : list SampleStreamRequest)
    (answers : list Batch) (w : Transport) (t : list Event)
    (per_request : list (list Batch)) : Prop :=
  (exists rest, answers = concat per_request ++ rest)
  /\ Forall (fun answer => ok (fst answer) = true) (concat per_request)
  /\ length (asked t) = length (concat per_request)
  /\ length per_request = length incoming
  /\ (Forall (fun c => c = false) (cancelled w) ->
      Forall2 (fun request used => counted 0 used = num_samples request)
              incoming per_request).

(** The sampled items those answers brought, in order. *)
Definition items_of (per_request : list (list Batch)) : list SampledItem :=
  flat_map snd (concat per_request).

(** A request that passes the checks of lines 291-304. *)
Definition accepted (kAutoSelectValue : Z) (tables_ : gmap string Table)
    (request : SampleStreamRequest) : Prop :=
  0 < num_samples request
  /\ (0 < flexible_batch_size request
      \/ flexible_batch_size request = kAutoSelectValue)
  /\ is_Some (TableByName tables_ (table request)).

End Sample.

(** ** InsertStream (lines 143-240) *)

Module Insert.

(** [request.item()]: the item with its insertion options. *)
Module InsertItem.
Record t := {
  item : PrioritizedItem.t;
  send_confirmation : bool;
  keep_chunk_keys : list Key
}.
End InsertItem.

Record InsertStreamRequest := {
  chunks : list ChunkData;
  item : option InsertItem.t       (* has_item(), then item() *)
}.

Record InsertStreamResponse := { keys : list Key }.

(** What [ChunkStore::Insert] answers. *)
Inductive Inserted :=
| Closed                     (* nullptr: the store takes no more chunks *)
| Stored                     (* a new shared chunk holding the argument *)
| Shared (existing : Chunk). (* the chunk already held under that key *)

(** The answers of the collaborators, call after call.  A script that
    has run out answers "stored", "OK" and "written". *)
Record World := {
  inserts : list Inserted;   (* chunk_store_.Insert *)
  assigns : list Status;     (* table->InsertOrAssign *)
  writes : list bool         (* stream->Write *)
}.

(** The calls the handler makes. *)
Inductive Event :=
| ChunkStore_Insert (chunk : ChunkData) (chunk_sp : option Chunk)
| InsertOrAssign (table : string) (item : TableItem.t) (status : Status)
| Write (response : InsertStreamResponse) (written : bool).

Definition chunk_store_Insert (chunk : ChunkData)
  : M World Event (option Chunk) :=
  fun w =>
    let (a, rest) := next_answer Stored (inserts w) in
    let chunk_sp :=
      match a with
      | Closed => None
      | Stored => Some chunk
      | Shared existing => Some existing
      end in
    MkRun (Next chunk_sp)
          {| inserts := rest; assigns := assigns w; writes := writes w |}
          [ChunkStore_Insert chunk chunk_sp].

Definition table_InsertOrAssign (table : Table) (item : TableItem.t)
  : M World Event Status :=
  fun w =>
    let (status, rest) := next_answer Status_OK (assigns w) in
    MkRun (Next status)
          {| inserts := inserts w; assigns := rest; writes := writes w |}
          [InsertOrAssign (name table) item status].

Definition stream_Write (response : InsertStreamResponse)
  : M World Event bool :=
  fun w =>
    let (b, rest) := next_answer true (writes w) in
    MkRun (Next b)
          {| inserts := inserts w; assigns := assigns w; writes := rest |}
          [Write response b].

(** Lines 184-192: the lambda [push_or].  It returns its status and
    the chunk list of [item] as it leaves it. *)
Definition push_or (chunks : gmap Key Chunk) (item_chunks : list Chunk)
    (key : Key) : Status * list Chunk :=
  match chunks !! key with
  | None =>
      (Internal ("Could not find sequence chunk " +:+ pretty key +:+ "."),
       item_chunks)
  | Some chunk => (Status_OK, item_chunks ++ [chunk])
  end.

(** Lines 227-233: erase every pending chunk whose key is not kept. *)
Definition erase_unkept (keep_keys : gset Key) (chunks : gmap Key Chunk)
  : gmap Key Chunk :=
  map_fold
    (fun key _ (acc : gmap Key Chunk) =>
       if decide (key ∈ keep_keys) then acc else delete key acc)
    chunks chunks.

(** The insertions a trace made into tables: the name of the table and
    the item record of every [InsertOrAssign] that answered OK, oldest
    first. *)
Definition inserted (t : list Event) : list (string * PrioritizedItem.t) :=
  flat_map (fun e => match e with
                     | InsertOrAssign table item status =>
                         if ok status then [(table, TableItem.item item)]
                         else []
                     | _ => []
                     end) t.

(** The items the requests carry, each with the table it names, in
    arrival order. *)
Definition requested (requests : list InsertStreamRequest)
  : list (string * PrioritizedItem.t) :=
  flat_map (fun r => match item r with
                     | Some request_item =>
                         [(PrioritizedItem.table (InsertItem.item request_item),
                           InsertItem.item request_item)]
                     | None => []
                     end) requests.

(** [ev] is a call of [ChunkStore::Insert]. *)
Definition is_chunk_store_call (ev : Event) : Prop :=
  match ev with
  | ChunkStore_Insert _ _ => True
  | _ => False
  end.

Section Handler.
(** [internal::GetChunkKeys] (support/trajectory_util.h) is declared
    outside this file. *)
Variable GetChunkKeys : FlatTrajectory -> list Key.
Variable tables_ : gmap string Table.

(** Lines 170-179: the loop over the chunks of a request; [chunks]
    is the per-stream map of pending chunks. *)
Fixpoint insert_chunks (request_chunks : list ChunkData)
    (chunks : gmap Key Chunk) : M World Event (gmap Key Chunk) :=
  match request_chunks with
  | [] => ret chunks
  | chunk :: request_chunks' =>
      let key := chunk_key chunk in
      chunk_sp <- chunk_store_Insert chunk ;;
      match chunk_sp with
      | None =>
          stop {| code := CANCELLED;
                  message := "Service has been closed" |}
      | Some chunk_sp =>
          insert_chunks request_chunks' (<[key := chunk_sp]> chunks)
      end
  end.

(** Lines 194-198: the loop over the chunk keys of the item. *)
Fixpoint resolve_chunks (chunk_keys : list Key) (chunks : gmap Key Chunk)
    (item_chunks : list Chunk) : M World Event (list Chunk) :=
  match chunk_keys with
  | [] => ret item_chunks
  | key :: chunk_keys' =>
      let (status, item_chunks) := push_or chunks item_chunks key in
      if negb (ok status) then stop status
      else resolve_chunks chunk_keys' chunks item_chunks
  end.

(** Lines 223-235: only keep specified chunks. *)
Definition keep_specified (keep_chunk_keys : list Key)
    (chunks : gmap Key Chunk) : M World Event (gmap Key Chunk) :=
  let keep_keys : gset Key := list_to_set keep_chunk_keys in
  let chunks := erase_unkept keep_keys chunks in
  if decide (size chunks = size keep_keys) then ret chunks else fatal.

(** Lines 181-236: the item of a request. *)
Definition insert_item (request_item : InsertItem.t)
    (chunks : gmap Key Chunk) : M World Event (gmap Key Chunk) :=
  let proto := InsertItem.item request_item in
  item_chunks <-
    resolve_chunks (GetChunkKeys (PrioritizedItem.flat_trajectory proto))
                   chunks [] ;;
  let table_name := PrioritizedItem.table proto in
  match TableByName tables_ table_name with
  | None => stop (TableNotFound table_name)
  | Some table =>
      let item_key := PrioritizedItem.key proto in
      let item :=
        {| TableItem.item := proto; TableItem.chunks := item_chunks |} in
      status <- table_InsertOrAssign table item ;;
      if negb (ok status) then stop (ToGrpcStatus status)
      else
        (if InsertItem.send_confirmation request_item then
           written <- stream_Write {| keys := [item_key] |} ;;
           if negb written then
             stop (Internal ("Error when sending confirmation that item "
                             +:+ pretty item_key
                             +:+ " has been successfully inserted/updated."))
           else ret tt
         else ret tt) ;;;
        keep_specified (InsertItem.keep_chunk_keys request_item) chunks
  end.

(** Lines 170-236: the body of the loop over the requests. *)
Definition handle_request (request : InsertStreamRequest)
    (chunks : gmap Key Chunk) : M World Event (gmap Key Chunk) :=
  chunks <- insert_chunks (Insert.chunks request) chunks ;;
  match item request with
  | None => ret chunks
  | Some request_item => insert_item request_item chunks
  end.

(** Lines 169-239: [while (queue.Pop(&request)) { ... } return OK].
    The reader thread hands the requests over in arrival order
    through a queue of capacity one; [incoming] is that sequence. *)
Fixpoint request_loop (incoming : list InsertStreamRequest)
    (chunks : gmap Key Chunk) : M World Event unit :=
  match incoming with
  | [] => stop Status_OK
  | request :: incoming' =>
      chunks <- handle_request request chunks ;;
      request_loop incoming' chunks
  end.

(** The loop body run over [requests], one after the other: what the
    loop has done when it comes to pop the next request. *)
Fixpoint handle_requests (requests : list InsertStreamRequest)
    (chunks : gmap Key Chunk) : M World Event (gmap Key Chunk) :=
  match requests with
  | [] => ret chunks
  | request :: requests' =>
      chunks <- handle_request request chunks ;;
      handle_requests requests' chunks
  end.

(** [InsertStreamInternal], lines 150-240. *)
Definition InsertStreamInternal (incoming : list InsertStreamRequest)
  : M World Event unit :=
  request_loop incoming ∅.
End Handler.

(** The responses a trace wrote, oldest first. *)
Definition responses (t : list Event) : list InsertStreamResponse :=
  flat_map (fun e => match e with Write r _ => [r] | _ => [] end) t.

(** The confirmations the requests ask for: the key of every item that
    has [send_confirmation] set, each in a response of its own, in
    arrival order. *)
Definition to_confirm (requests : list InsertStreamRequest)
  : list InsertStreamResponse :=
  flat_map (fun r => match item r with
                     | Some request_item =>
                         if InsertItem.send_confirmation request_item
                         then [{| keys := [PrioritizedItem.key
                                             (InsertItem.item request_item)] |}]
                         else []
                     | None => []
                     end) requests.

(** The chunk keys a request brings. *)
Definition brought (request : InsertStreamRequest) : gset Key :=
  list_to_set (chunk_key <$> chunks request).

(** A call that went well: the store gave a chunk, the table answered
    OK, the response was written. *)
Definition went_well (ev : Event) : Prop :=
  match ev with
  | ChunkStore_Insert _ chunk_sp => is_Some chunk_sp
  | InsertOrAssign _ _ status => ok status = true
  | Write _ written => written = true
  end.

(** A call that went wrong, and the status the handler returns for it
    (lines 174-177, 207-209 and 216-220). *)
Definition went_wrong (ev : Event) (s : Status) : Prop :=
  match ev with
  | ChunkStore_Insert _ chunk_sp =>
      chunk_sp = None
      /\ s = {| code := CANCELLED; message := "Service has been closed" |}
  | InsertOrAssign _ _ status => ok status = false /\ s = ToGrpcStatus status
  | Write response written =>
      written = false
      /\ exists item_key,
           keys response = [item_key]
           /\ s = Internal ("Error when sending confirmation that item "
                            +:+ pretty item_key
                            +:+ " has been successfully inserted/updated.")
  end.

(** The statuses the handler returns without a call having gone wrong:
    OK at the end of the stream (line 239), a chunk key that is not
    pending (lines 187-188), a table that is not there (line 202). *)
Definition plain_status (s : Status) : Prop :=
  s = Status_OK
  \/ (exists key : Key,
        s = Internal ("Could not find sequence chunk " +:+ pretty key +:+ "."))
  \/ (exists table_name, s = TableNotFound table_name).

(** An item that is processed (lines 181-221) when [chunks] are pending
    and the answers [w] are to come: its chunk keys are pending, its
    table is registered, the table takes it, and the confirmation, if
    one is asked for, is written. *)
Definition processed (GetChunkKeys : FlatTrajectory -> list Key)
    (tables_ : gmap string Table) (request_item : InsertItem.t)
    (chunks : gmap Key Chunk) (w : World) : Prop :=
  (forall key,
     key ∈ GetChunkKeys (PrioritizedItem.flat_trajectory
                           (InsertItem.item request_item)) ->
     is_Some (chunks !! key))
  /\ is_Some (TableByName tables_
                 (PrioritizedItem.table (InsertItem.item request_item)))
  /\ ok (fst (next_answer Status_OK (assigns w))) = true
  /\ (InsertItem.send_confirmation request_item = true ->
      fst (next_answer true (writes w)) = true).

(** The chunk the store gave at the latest call of
    [ChunkStore::Insert] for a chunk with key [key]. *)
Definition last_stored (key : Key) (t : list Event) : option Chunk :=
  foldl (fun found ev =>
           match ev with
           | ChunkStore_Insert chunk chunk_sp =>
               if decide (chunk_key chunk = key) then chunk_sp else found
           | _ => found
           end) None t.

(** Every pending chunk is the one the store last gave for its key. *)
Definition pending_stored (chunks : gmap Key Chunk) (t : list Event) : Prop :=
  forall key chunk, chunks !! key = Some chunk ->
                    last_stored key t = Some chunk.

(** [item_chunks] are, for the keys [chunk_keys] and in their order,
    the chunks the store last gave in [t]. *)
Definition chunks_stored (chunk_keys : list Key) (item_chunks : list Chunk)
    (t : list Event) : Prop :=
  Forall2 (fun key chunk => last_stored key t = Some chunk)
          chunk_keys item_chunks.

(** Every item a trace handed to a table came with the chunks the
    store had last given, before that call, for the chunk keys of the
    item's trajectory. *)
Definition items_hold_stored (GetChunkKeys : FlatTrajectory -> list Key)
    (t : list Event) : Prop :=
  forall pre table item status post,
    t = pre ++ InsertOrAssign table item status :: post ->
    chunks_stored
      (GetChunkKeys (PrioritizedItem.flat_trajectory (TableItem.item item)))
      (TableItem.chunks item) pre.

End Insert.

(** ** InitializeConnection (lines 423-474) *)

Module Handshake.

Record InitializeConnectionRequest := {
  pid : Z;
  table_name : string;
  ownership_transferred : bool
}.

Record InitializeConnectionResponse := { address : Z }.

(** The answers of the stream and of the allocator.  [heap] lists the
    addresses [new] hands out; when it has run out, [new] throws and
    the process aborts. *)
Record World := {
  writes : list bool;
  heap : list Z
}.

Inductive Event :=
| Write (response : InitializeConnectionResponse) (written : bool)
| New (table : Table) (ptr : Z)     (* new std::shared_ptr<Table>(table) *)
| Delete (ptr : Z).                 (* delete ptr *)

Definition stream_Write (response : InitializeConnectionResponse)
  : M World Event bool :=
  fun w =>
    let (b, rest) := next_answer true (writes w) in
    MkRun (Next b) {| writes := rest; heap := heap w |} [Write response b].

Definition new_holder (table : Table) : M World Event Z :=
  fun w =>
    match heap w with
    | [] => MkRun Fatal w []
    | ptr :: rest =>
        MkRun (Next ptr) {| writes := writes w; heap := rest |}
              [New table ptr]
    end.

(** [internal::MakeCleanup]: [e] happens when the scope [m] is left. *)
Definition with_cleanup {A} (e : Event) (m : M World Event A)
  : M World Event A :=
  fun w =>
    let r := m w in
    match outcome r with
    | Next _ | Return _ => MkRun (outcome r) (world r) (trace r ++ [e])
    | Fatal | Pending => r
    end.

Section Handler.
(** [IsLocalhostOrInProcess] (support/grpc_util.h) and [getpid()] are
    declared outside this file. *)
Variable IsLocalhostOrInProcess : string -> bool.
Variable getpid : Z.
Variable tables_ : gmap string Table.

(** [InitializeConnection]: [peer] is [context->peer()], [incoming]
    the requests the client sends. *)
Definition InitializeConnection (peer : string)
    (incoming : list InitializeConnectionRequest)
  : M World Event unit :=
  if negb (IsLocalhostOrInProcess peer) then stop Status_OK
  else
    match incoming with
    | [] => stop (Internal "Failed to read from stream")
    | request :: incoming' =>
        if negb (pid request =? getpid) then
          stream_Write {| address := 0 |} ;;;
          stop Status_OK
        else
          match tables_ !! table_name request with
          | None => stop (TableNotFound (table_name request))
          | Some table =>
              ptr <- new_holder table ;;
              with_cleanup (Delete ptr)
                (written <- stream_Write {| address := ptr |} ;;
                 if negb written then
                   stop (Internal "Failed to write to stream.")
                 else
                   match incoming' with
                   | [] => stop (Internal "Failed to read from stream.")
                   | request :: _ =>
                       if negb (ownership_transferred request) then
                         stop (Internal "Received unexpected request")
                       else stop Status_OK
                   end)
          end
    end.
End Handler.

End Handshake.

(** ** The service object (lines 62-141, 242-267 and 382-421)

    The remaining members of [ReverbServiceImpl].  Where a member
    returns a status and leaves a result behind (the object it
    initialised, the response it filled in), [Next] of that result is
    its return of OK and [Return s] an early return of [s]. *)

Module Service.

(** [Checkpointer] (checkpointing/interface.h), by what its virtual
    methods answer.  The load calls take the vector of tables by
    pointer: they answer a status and the vector as they leave it.
    [Save] answers a status and the path it wrote to. *)
Module Checkpointer.
Record t := {
  LoadLatest : list Table -> Status * list Table;
  LoadFallbackCheckpoint : list Table -> Status * list Table;
  Save : list Table -> Z -> Status * string;
  DebugString : string
}.
End Checkpointer.

Record KeyWithPriority := { update_key : Key; update_priority : double }.

Record MutatePrioritiesRequest := {
  mutate_table : string;
  updates : list KeyWithPriority;
  delete_keys : list Key
}.

Record ResetRequest := { reset_table : string }.

Record CheckpointResponse := { checkpoint_path : string }.

(** The members of [ReverbServiceImpl] these functions use.  The state
    id is an [absl::uint128]. *)
Record ReverbServiceImpl := {
  checkpointer_ : option Checkpointer.t;
  tables_ : gmap string Table;
  tables_state_id_ : Z
}.

(** The values [absl::Uniform<uint64_t>(rnd_)] is still to draw; a
    script that has run out draws 0. *)
Record World := { rnd_ : list Z }.

(** The calls the service makes on its checkpointer and its tables,
    each with its arguments and the status it got. *)
Inductive Event :=
| LoadLatest (tables : list Table) (status : Status)
| LoadFallbackCheckpoint (tables : list Table) (status : Status)
| Save (tables : list Table) (keep_latest : Z) (status : Status)
| Table_MutateItems (table : string) (updates : list KeyWithPriority)
                    (delete_keys : list Key) (status : Status)
| Table_Reset (table : string) (status : Status)
| Table_Close (table : string).

(** [absl::IsNotFound] *)
Definition IsNotFound (s : Status) : bool :=
  match code s with NOT_FOUND => true | _ => false end.

(** [absl::Uniform<uint64_t>(rnd_)] *)
Definition Uniform_uint64 : M World Event Z :=
  fun w =>
    let (drawn, rest) := next_answer 0 (rnd_ w) in
    MkRun (Next (drawn mod 2^64)) {| rnd_ := rest |} [].

(** [absl::MakeUint128(high, low)] *)
Definition MakeUint128 (high low : Z) : Z := high * 2^64 + low.

(** Lines 106-108: [tables_[table->name()] = std::move(table)] for
    every table of the vector, first to last. *)
Definition register (tables_ : gmap string Table) (tables : list Table)
  : gmap string Table :=
  foldl (fun tables_ table => <[name table := table]> tables_) tables_ tables.

(** The status an event carries, if it is a call of the checkpointer. *)
Definition checkpointer_status (ev : Event) : option Status :=
  match ev with
  | LoadLatest _ status | LoadFallbackCheckpoint _ status
  | Save _ _ status => Some status
  | _ => None
  end.

(** [ev] is a call of [LoadFallbackCheckpoint]. *)
Definition is_fallback (ev : Event) : Prop :=
  match ev with
  | LoadFallbackCheckpoint _ _ => True
  | _ => False
  end.

(** The names of the tables a trace closed, oldest first. *)
Definition closed (t : list Event) : list string :=
  flat_map (fun ev => match ev with Table_Close table => [table] | _ => [] end)
           t.

Section Handler.
(** Declared outside this file: the methods of [Table] (table.h) the
    service calls, the order in which a [flat_hash_map] hands out its
    entries, [Uint128ToMessage] (support/uint128.h), the value of
    [tables_state_id_] before [Initialize] assigns it, and which of the
    two arguments of [MakeUint128] at lines 110-111 is evaluated first
    (the language leaves it to the compiler). *)
Variable TableInfo : Type.
Variable Uint128 : Type.
Variable Table_info : Table -> TableInfo.
Variable Table_DebugString : Table -> string.
Variable MutateItems : Table -> list KeyWithPriority -> list Key -> Status.
Variable Reset_table : Table -> Status.
Variable iterate : gmap string Table -> list (string * Table).
Variable Uint128ToMessage : Z -> Uint128.
Variable unassigned_state_id : Z.
Variable high_drawn_first : bool.

Record ServerInfoResponse := {
  table_info : list TableInfo;
  info_tables_state_id : Uint128
}.

(** Lines 62-63: the constructor. *)
Definition new_ReverbServiceImpl (checkpointer : option Checkpointer.t)
  : ReverbServiceImpl :=
  {| checkpointer_ := checkpointer; tables_ := ∅;
     tables_state_id_ := unassigned_state_id |}.

(** Lines 86-104: the tables as the checkpointer leaves them. *)
Definition load_checkpoint (checkpointer : Checkpointer.t)
    (tables : list Table) : M World Event (list Table) :=
  let (status, loaded) := Checkpointer.LoadLatest checkpointer tables in
  call (LoadLatest tables status) ;;;
  answer <-
    (if IsNotFound status then
       let (status, restored) :=
         Checkpointer.LoadFallbackCheckpoint checkpointer loaded in
       call (LoadFallbackCheckpoint loaded status) ;;;
       ret (status, restored)
     else ret (status, loaded)) ;;
  let (status, tables) := answer : Status * list Table in
  if negb (ok status) && negb (IsNotFound status) then stop status
  else ret tables.

(** [Initialize], lines 84-114. *)
Definition Initialize (self : ReverbServiceImpl) (tables : list Table)
  : M World Event ReverbServiceImpl :=
  tables <-
    match checkpointer_ self with
    | Some checkpointer => load_checkpoint checkpointer tables
    | None => ret tables
    end ;;
  let tables_ := register (tables_ self) tables in
  first <- Uniform_uint64 ;;
  second <- Uniform_uint64 ;;
  let tables_state_id_ :=
    if high_drawn_first then MakeUint128 first second
    else MakeUint128 second first in
  ret {| checkpointer_ := checkpointer_ self; tables_ := tables_;
         tables_state_id_ := tables_state_id_ |}.

(** [Create], lines 66-76.  [service] is what [*service] held; after
    the swap the old object is destroyed. *)
Definition Create (tables : list Table) (checkpointer : option Checkpointer.t)
    (service : option ReverbServiceImpl)
  : M World Event (option ReverbServiceImpl) :=
  let new_service := new_ReverbServiceImpl checkpointer in
  new_service <- Initialize new_service tables ;;
  ret (Some new_service).

(** [Create] without a checkpointer, lines 78-82. *)
Definition Create_tables (tables : list Table)
    (service : option ReverbServiceImpl)
  : M World Event (option ReverbServiceImpl) :=
  Create tables None service.

(** [Checkpoint], lines 121-141. *)
Definition Checkpoint (self : ReverbServiceImpl)
    (response : CheckpointResponse) : M World Event CheckpointResponse :=
  match checkpointer_ self with
  | None =>
      stop {| code := INVALID_ARGUMENT;
              message :=
                "no Checkpointer configured for the replay service." |}
  | Some checkpointer =>
      let tables := snd <$> iterate (tables_ self) in
      let (status, path) := Checkpointer.Save checkpointer tables 1 in
      let response := {| checkpoint_path := path |} in
      call (Save tables 1 status) ;;;
      if negb (ok status) then stop (ToGrpcStatus status)
      else ret response
  end.

(** [MutatePriorities], lines 242-254. *)
Definition MutatePriorities (self : ReverbServiceImpl)
    (request : MutatePrioritiesRequest) : M World Event unit :=
  match TableByName (tables_ self) (mutate_table request) with
  | None => stop (TableNotFound (mutate_table request))
  | Some table =>
      let status := MutateItems table (updates request) (delete_keys request) in
      call (Table_MutateItems (name table) (updates request)
                              (delete_keys request) status) ;;;
      if negb (ok status) then stop (ToGrpcStatus status)
      else stop Status_OK
  end.

(** [Reset], lines 256-267. *)
Definition Reset (self : ReverbServiceImpl) (request : ResetRequest)
  : M World Event unit :=
  match TableByName (tables_ self) (reset_table request) with
  | None => stop (TableNotFound (reset_table request))
  | Some table =>
      let status := Reset_table table in
      call (Table_Reset (name table) status) ;;;
      if negb (ok status) then stop (ToGrpcStatus status)
      else stop Status_OK
  end.

(** [Close], lines 388-392. *)
Definition Close (self : ReverbServiceImpl) : M World Event unit :=
  for_each (fun entry : string * Table => call (Table_Close (name (snd entry))))
           (iterate (tables_ self)).

(** Lines 396-401: the loop of [DebugString] over the tables; [first]
    says whether the iterator is still at [cbegin()]. *)
Fixpoint append_tables (str : string) (first : bool)
    (entries : list (string * Table)) : string :=
  match entries with
  | [] => str
  | entry :: entries' =>
      let str := if first then str else str +:+ ", " in
      append_tables (str +:+ Table_DebugString (snd entry)) false entries'
  end.

(** [DebugString], lines 394-406. *)
Definition DebugString (self : ReverbServiceImpl) : string :=
  let str := "ReverbService(tables=[" in
  let str := append_tables str true (iterate (tables_ self)) in
  str +:+ "], checkpointer="
      +:+ match checkpointer_ self with
          | Some checkpointer => Checkpointer.DebugString checkpointer
          | None => "nullptr"
          end
      +:+ ")".

(** [ServerInfo], lines 408-416: it always returns OK. *)
Definition ServerInfo (self : ReverbServiceImpl) : ServerInfoResponse :=
  {| table_info := (fun entry => Table_info (snd entry))
                     <$> iterate (tables_ self);
     info_tables_state_id := Uint128ToMessage (tables_state_id_ self) |}.

(** [tables()], lines 418-421. *)
Definition tables (self : ReverbServiceImpl) : gmap string Table :=
  tables_ self.

End Handler.

End Service.

(** ** Concrete collaborators and inputs, used to run the handlers *)

Module Examples.

Definition MiB : Z := 1024 * 1024.

(** A size for entries that counts the payload bytes of the chunks and
    nothing else; the serialized size of an entry is at least that. *)
Definition payload_size (e : Sample.Entry) : Z :=
  foldr (fun c n => data_bytes c + n) 0 (Sample.data e).

(** The chunk keys of a trajectory, column after column. *)
Definition slice_keys (t : FlatTrajectory) : list Key :=
  slice_chunk_key <$> concat (columns t).

Definition is_loopback (peer : string) : bool :=
  String.prefix "ipv4:127.0.0.1:" peer.

Definition chunk (k : Key) (mib : Z) : ChunkData :=
  {| chunk_key := k; data_bytes := mib * MiB |}.

Definition trajectory (ks : list Key) : FlatTrajectory :=
  {| columns :=
       [ (fun k => {| slice_chunk_key := k; slice_offset := 0;
                      slice_length := 1 |}) <$> ks ] |}.

Definition proto (k : Key) (ks : list Key) : PrioritizedItem.t :=
  {| PrioritizedItem.key := k; PrioritizedItem.table := "t";
     PrioritizedItem.priority := 0; PrioritizedItem.times_sampled := 0;
     PrioritizedItem.flat_trajectory := trajectory ks |}.

Definition tables : gmap string Table :=
  {[ "t" := {| name := "t"; DefaultFlexibleBatchSize := 64 |} ]}.

Definition sampled (cs : list ChunkData) : Sample.SampledItem :=
  {| Sample.ref := {| TableItem.item := proto 100%N (chunk_key <$> cs);
                      TableItem.chunks := cs |};
     Sample.priority := 1; Sample.times_sampled := 2;
     Sample.probability := 3; Sample.table_size := 4;
     Sample.rate_limited := false |}.

(** Chunks of 30, 30 and 1 MiB, and the first two of them. *)
Definition three_chunks : list ChunkData :=
  [chunk 1%N 30; chunk 2%N 30; chunk 3%N 1].

Definition two_chunks : list ChunkData := [chunk 1%N 30; chunk 2%N 30].

Definition sample_request (tbl : string) (n : Z) (ms : option Z) (fbs : Z)
  : Sample.SampleStreamRequest :=
  {| Sample.table := tbl; Sample.num_samples := n;
     Sample.rate_limiter_timeout := ms; Sample.flexible_batch_size := fbs |}.

(** A transport that is never cancelled and writes everything. *)
Definition quiet : Sample.Transport :=
  {| Sample.cancelled := []; Sample.writes := [] |}.

Definition insert_request (cs : list ChunkData) (it : option Insert.InsertItem.t)
  : Insert.InsertStreamRequest :=
  {| Insert.chunks := cs; Insert.item := it |}.

Definition insert_item (k : Key) (ks : list Key) (confirm : bool)
    (keep : list Key) : Insert.InsertItem.t :=
  {| Insert.InsertItem.item := proto k ks;
     Insert.InsertItem.send_confirmation := confirm;
     Insert.InsertItem.keep_chunk_keys := keep |}.

(** Collaborators that store, accept and write everything. *)
Definition willing : Insert.World :=
  {| Insert.inserts := []; Insert.assigns := []; Insert.writes := [] |}.

(** A stream of two requests: chunk 7 with item 100 over it, then
    chunk 8; the store takes the first chunk and refuses the second. *)
Definition first_request : Insert.InsertStreamRequest :=
  insert_request [chunk 7%N 1] (Some (insert_item 100%N [7%N] true [7%N])).

Definition second_request : Insert.InsertStreamRequest :=
  insert_request [chunk 8%N 1] None.

Definition closing : Insert.World :=
  {| Insert.inserts := [Insert.Stored; Insert.Closed];
     Insert.assigns := []; Insert.writes := [] |}.

(** A store that already holds a chunk of 5 MiB under key 7. *)
Definition sharing : Insert.World :=
  {| Insert.inserts := [Insert.Shared (chunk 7%N 5)];
     Insert.assigns := []; Insert.writes := [] |}.

Definition closed : Insert.World :=
  {| Insert.inserts := [Insert.Closed];
     Insert.assigns := []; Insert.writes := [] |}.

Definition item_100 : TableItem.t :=
  {| TableItem.item := proto 100%N [7%N];
     TableItem.chunks := [chunk 7%N 1] |}.

(** A request that brings chunk 1 and an item over chunks 1 and 2. *)
Definition dangling_request : Insert.InsertStreamRequest :=
  insert_request [chunk 1%N 1]
                 (Some (insert_item 101%N [1%N; 2%N] false [1%N])).

(** A request that brings chunks 1, 2 and 3 and an item over chunk 1
    that keeps chunks 1 and 9. *)
Definition keeping_request : Insert.InsertStreamRequest :=
  insert_request [chunk 1%N 1; chunk 2%N 1; chunk 3%N 1]
                 (Some (insert_item 102%N [1%N] false [1%N; 9%N])).

(** A transport that fails to write, and one whose context is
    cancelled. *)
Definition broken : Sample.Transport :=
  {| Sample.cancelled := []; Sample.writes := [false] |}.

Definition gone : Sample.Transport :=
  {| Sample.cancelled := [true; true]; Sample.writes := [] |}.

(** A context that is cancelled after the first batch. *)
Definition leaving : Sample.Transport :=
  {| Sample.cancelled := [false; true]; Sample.writes := [] |}.

(** A table that answers with a batch of two samples, a batch of one,
    and an empty batch. *)
Definition three_answers : list Sample.Batch :=
  [(Status_OK, [sampled two_chunks; sampled two_chunks]);
   (Status_OK, [sampled three_chunks]);
   (Status_OK, [])].

(** The sentinel of the client sampler. *)
Definition auto_select : Z := -1.

(** A request for 2^31 samples, one at a time. *)
Definition huge_request : Sample.SampleStreamRequest :=
  sample_request "t" (2^31) None 1.

Definition server_pid : Z := 4242.

Definition handshake_request (p : Z) : Handshake.InitializeConnectionRequest :=
  {| Handshake.pid := p; Handshake.table_name := "t";
     Handshake.ownership_transferred := false |}.

Definition confirmation : Handshake.InitializeConnectionRequest :=
  {| Handshake.pid := 0; Handshake.table_name := "";
     Handshake.ownership_transferred := true |}.

(** A second table, and a table that takes the name of the first. *)
Definition table_u : Table := {| name := "u"; DefaultFlexibleBatchSize := 8 |}.

Definition table_t' : Table := {| name := "t"; DefaultFlexibleBatchSize := 1 |}.

Definition not_found : Status :=
  {| code := NOT_FOUND; message := "no checkpoint" |}.

(** A checkpointer whose root directory is empty and whose fallback
    checkpoint restores table "u" beside the tables it is given. *)
Definition with_fallback : Service.Checkpointer.t :=
  {| Service.Checkpointer.LoadLatest := fun ts => (not_found, ts);
     Service.Checkpointer.LoadFallbackCheckpoint :=
       fun ts => (Status_OK, ts ++ [table_u]);
     Service.Checkpointer.Save := fun _ _ => (Status_OK, "/ckpt/1");
     Service.Checkpointer.DebugString := "Checkpointer(/ckpt)" |}.

Definition seeded : Service.World := {| Service.rnd_ := [3; 5] |}.

(** A service over the tables "t" and "u", with that checkpointer. *)
Definition service : Service.ReverbServiceImpl :=
  {| Service.checkpointer_ := Some with_fallback;
     Service.tables_ := <[ "u" := table_u ]> tables;
     Service.tables_state_id_ := 3 * 2^64 + 5 |}.

(** The service [Create] builds from two tables named "t" with that
    checkpointer, drawing 3 and 5. *)
Definition created : Service.ReverbServiceImpl :=
  {| Service.checkpointer_ := Some with_fallback;
     Service.tables_ := <[ "u" := table_u ]> {[ "t" := table_t' ]};
     Service.tables_state_id_ := 3 * 2^64 + 5 |}.

Definition fresh_heap : Handshake.World :=
  {| Handshake.writes := []; Handshake.heap := [4096] |}.

End Examples.

(** * Properties *)

(** ** Runs of the monad *)

Section MonadFacts.
Context {W E : Type}.

Lemma bind_run {A B} (m : M W E A) (k : A -> M W E B) (w : W) a w1 t1 :
  m w = MkRun (Next a) w1 t1 ->
  bind m k w =
    MkRun (outcome (k a w1)) (world (k a w1)) (t1 ++ trace (k a w1)).
Proof. intros Hm. unfold bind. now rewrite Hm. Qed.

Lemma bind_stops {A B} (m : M W E A) (k : A -> M W E B) (w : W) s w1 t1 :
  m w = MkRun (Return s) w1 t1 -> bind m k w = MkRun (Return s) w1 t1.
Proof. intros Hm. unfold bind. now rewrite Hm. Qed.

Lemma bind_returns {A B} (m : M W E A) (k : A -> M W E B) (w : W) s :
  outcome (m w) = Return s ->
  outcome (bind m k w) = Return s
  /\ trace (bind m k w) = trace (m w)
  /\ world (bind m k w) = world (m w).
Proof. intros Hm. unfold bind. now rewrite Hm. Qed.

Lemma bind_ext {A B} (m : M W E A) (k1 k2 : A -> M W E B) (w : W) :
  (forall a w', k1 a w' = k2 a w') -> bind m k1 w = bind m k2 w.
Proof. intros Hk. unfold bind. destruct (outcome (m w)); now rewrite ?Hk. Qed.

Lemma bind_ret_l {A B} (a : A) (k : A -> M W E B) (w : W) :
  bind (ret a) k w = k a w.
Proof. unfold bind, ret. cbn. now destruct (k a w). Qed.

Lemma bind_assoc {A B C} (m : M W E A) (k1 : A -> M W E B)
    (k2 : B -> M W E C) (w : W) :
  bind (bind m k1) k2 w = bind m (fun a => bind (k1 a) k2) w.
Proof.
  unfold bind. destruct (outcome (m w)); cbn; try reflexivity.
  destruct (outcome (k1 a (world (m w)))); cbn; try reflexivity.
  now rewrite app_assoc.
Qed.

Lemma ensures_bind {A B} (m : M W E A) (k : A -> M W E B) (w : W)
    (Q1 : A -> list E -> Prop) (Q2 : B -> list E -> Prop)
    (R : Status -> Prop) :
  ensures m w Q1 R ->
  (forall a t1 w1,
     Q1 a t1 -> ensures (k a) w1 (fun b t2 => Q2 b (t1 ++ t2)) R) ->
  ensures (bind m k) w Q2 R.
Proof.
  unfold ensures, bind. intros Hm Hk.
  destruct (outcome (m w)); cbn; try easy.
  specialize (Hk a (trace (m w)) (world (m w)) Hm).
  now destruct (outcome (k a (world (m w)))).
Qed.

Lemma ensures_ret {A} (a : A) (w : W) (Q : A -> list E -> Prop)
    (R : Status -> Prop) :
  Q a [] -> ensures (ret a) w Q R.
Proof. easy. Qed.

Lemma ensures_stop {A} (s : Status) (w : W) (Q : A -> list E -> Prop)
    (R : Status -> Prop) :
  R s -> ensures (stop s) w Q R.
Proof. easy. Qed.

Lemma ensures_fatal {A} (w : W) (Q : A -> list E -> Prop)
    (R : Status -> Prop) :
  ensures fatal w Q R.
Proof. easy. Qed.

Lemma fails_last_bind {A B} (good : E -> Prop) (bad : E -> Status -> Prop)
    (plain : Status -> Prop) (m : M W E A) (k : A -> M W E B) (w : W) :
  fails_last good bad plain m w ->
  (forall a w1, fails_last good bad plain (k a) w1) ->
  fails_last good bad plain (bind m k) w.
Proof.
  unfold fails_last, bind. intros Hm Hk.
  destruct (outcome (m w)) as [a| | |]; cbn [outcome trace]; try exact Hm.
  specialize (Hk a (world (m w))).
  destruct (outcome (k a (world (m w)))) as [b|s| |];
    try (apply Forall_app; now split).
  destruct Hk as [[Hgood Hplain] | (pre & ev & Htrace & Hpre & Hbad)].
  - left. split; [apply Forall_app; now split | exact Hplain].
  - right. exists (trace (m w) ++ pre), ev. rewrite Htrace, app_assoc.
    split; [reflexivity|]. split; [apply Forall_app; now split | exact Hbad].
Qed.

Lemma fails_last_bind_run {A B} (good : E -> Prop)
    (bad : E -> Status -> Prop) (plain : Status -> Prop) (m : M W E A)
    (k : A -> M W E B) (w : W) :
  fails_last good bad plain m w ->
  (forall a, outcome (m w) = Next a ->
             fails_last good bad plain (k a) (world (m w))) ->
  fails_last good bad plain (bind m k) w.
Proof.
  unfold fails_last, bind. intros Hm Hk.
  destruct (outcome (m w)) as [a| | |]; cbn [outcome trace]; try exact Hm.
  specialize (Hk a eq_refl).
  destruct (outcome (k a (world (m w)))) as [b|s| |];
    try (apply Forall_app; now split).
  destruct Hk as [[Hgood Hplain] | (pre & ev & Htrace & Hpre & Hbad)].
  - left. split; [apply Forall_app; now split | exact Hplain].
  - right. exists (trace (m w) ++ pre), ev. rewrite Htrace, app_assoc.
    split; [reflexivity|]. split; [apply Forall_app; now split | exact Hbad].
Qed.

Lemma fails_last_mono {A} (good : E -> Prop) (bad : E -> Status -> Prop)
    (plain1 plain2 : Status -> Prop) (m : M W E A) (w : W) :
  (forall s, plain1 s -> plain2 s) ->
  fails_last good bad plain1 m w -> fails_last good bad plain2 m w.
Proof.
  unfold fails_last. intros Hplain Hm.
  destruct (outcome (m w)); try exact Hm.
  destruct Hm as [[Hgood Hs] | Hbad]; [left | right]; auto.
Qed.

Lemma fails_last_for_each {A} (good : E -> Prop) (bad : E -> Status -> Prop)
    (plain : Status -> Prop) (body : A -> M W E unit) xs :
  (forall x w, fails_last good bad plain (body x) w) ->
  forall w, fails_last good bad plain (for_each body xs) w.
Proof.
  intros Hbody. induction xs as [|x xs IH]; intros w; cbn [for_each].
  - constructor.
  - apply fails_last_bind; [apply Hbody | intros _ w1; apply IH].
Qed.

Lemma bind_next {A B} (m : M W E A) (k : A -> M W E B) (w : W) b :
  outcome (bind m k w) = Next b ->
  exists a,
    outcome (m w) = Next a
    /\ outcome (k a (world (m w))) = Next b
    /\ world (bind m k w) = world (k a (world (m w)))
    /\ trace (bind m k w) = trace (m w) ++ trace (k a (world (m w))).
Proof.
  unfold bind. destruct (outcome (m w)) as [a| | |]; try discriminate.
  cbn [outcome world trace]. eauto.
Qed.

Lemma fails_last_ret {A} (good : E -> Prop) (bad : E -> Status -> Prop)
    (plain : Status -> Prop) (a : A) (w : W) :
  fails_last good bad plain (ret a) w.
Proof. constructor. Qed.

Lemma fails_last_fatal {A} (good : E -> Prop) (bad : E -> Status -> Prop)
    (plain : Status -> Prop) (w : W) :
  fails_last good bad plain (@fatal W E A) w.
Proof. constructor. Qed.

Lemma fails_last_stop {A} (good : E -> Prop) (bad : E -> Status -> Prop)
    (plain : Status -> Prop) (s : Status) (w : W) :
  plain s -> fails_last good bad plain (@stop W E A s) w.
Proof. intros Hs. left. split; [constructor | exact Hs]. Qed.

(** A call followed by what its answer decides: the call went well and
    the rest stops at its first failure, or the call went wrong and the
    rest returns the status of that failure at once. *)
Lemma fails_last_call {A B} (good : E -> Prop) (bad : E -> Status -> Prop)
    (plain : Status -> Prop) (prim : M W E A) (k : A -> M W E B) (w : W)
    a w1 ev :
  prim w = MkRun (Next a) w1 [ev] ->
  (good ev /\ fails_last good bad plain (k a) w1)
  \/ (exists s, bad ev s /\ k a w1 = MkRun (Return s) w1 []) ->
  fails_last good bad plain (bind prim k) w.
Proof.
  intros Hprim Hrest. unfold fails_last, bind. rewrite Hprim.
  cbn [outcome world trace].
  destruct Hrest as [[Hev Hk] | (s & Hbad & Hk)].
  - unfold fails_last in Hk.
    destruct (outcome (k a w1)) as [b|s| |]; try now constructor.
    destruct Hk as [[Hgood Hplain] | (pre & ev' & Htrace & Hpre & Hbad)].
    + left. split; [now constructor | exact Hplain].
    + right. exists (ev :: pre), ev'. rewrite Htrace.
      split; [reflexivity|]. split; [now constructor | exact Hbad].
  - rewrite Hk. cbn [outcome trace]. right. exists [], ev.
    split; [reflexivity|]. split; [constructor | exact Hbad].
Qed.

Lemma keeps_bind {A B} (G : list E -> Prop) (I1 : A -> list E -> Prop)
    (I2 : B -> list E -> Prop) (m : M W E A) (k : A -> M W E B) (w : W)
    (pre : list E) :
  keeps G I1 m w pre ->
  (forall a w1 t1,
     I1 a (pre ++ t1) -> G (pre ++ t1) -> keeps G I2 (k a) w1 (pre ++ t1)) ->
  keeps G I2 (bind m k) w pre.
Proof.
  unfold keeps, bind. intros [HG HI] Hk.
  destruct (outcome (m w)) as [a| | |]; cbn [outcome trace]; try easy.
  specialize (Hk a (world (m w)) (trace (m w)) HI HG).
  now rewrite app_assoc.
Qed.

Lemma keeps_ret {A} (G : list E -> Prop) (I : A -> list E -> Prop) (a : A)
    (w : W) (pre : list E) :
  G pre -> I a pre -> keeps G I (ret a) w pre.
Proof. unfold keeps; cbn. now rewrite app_nil_r. Qed.

Lemma keeps_stop {A} (G : list E -> Prop) (I : A -> list E -> Prop)
    (s : Status) (w : W) (pre : list E) :
  G pre -> keeps G I (@stop W E A s) w pre.
Proof. unfold keeps; cbn. now rewrite app_nil_r. Qed.

Lemma keeps_fatal {A} (G : list E -> Prop) (I : A -> list E -> Prop)
    (w : W) (pre : list E) :
  G pre -> keeps G I (@fatal W E A) w pre.
Proof. unfold keeps; cbn. now rewrite app_nil_r. Qed.

Lemma keeps_call {A B} (G : list E -> Prop) (I : B -> list E -> Prop)
    (prim : M W E A) (k : A -> M W E B) (w : W) (pre : list E) a w1 ev :
  prim w = MkRun (Next a) w1 [ev] ->
  keeps G I (k a) w1 (pre ++ [ev]) ->
  keeps G I (bind prim k) w pre.
Proof.
  unfold keeps, bind. intros -> Hk. cbn [outcome world trace].
  now rewrite !app_assoc.
Qed.

Lemma emits_bind {A B} (P : E -> Prop) (m : M W E A) (k : A -> M W E B) :
  emits P m -> (forall a, emits P (k a)) -> emits P (bind m k).
Proof.
  intros Hm Hk w. unfold bind.
  destruct (outcome (m w)) eqn:Ho; simpl; try apply Hm.
  apply Forall_app; split; [apply Hm | apply Hk].
Qed.

Lemma emits_ret {A} (P : E -> Prop) (a : A) : emits P (@ret W E A a).
Proof. intros w. constructor. Qed.

Lemma emits_stop {A} (P : E -> Prop) (s : Status) : emits P (@stop W E A s).
Proof. intros w. constructor. Qed.

Lemma emits_pending {A} (P : E -> Prop) : emits P (@pending W E A).
Proof. intros w. constructor. Qed.

Lemma emits_call (P : E -> Prop) (e : E) : P e -> emits P (@call W E e).
Proof. intros He w. simpl. now repeat constructor. Qed.

Lemma emits_for_each {A} (P : E -> Prop) (body : A -> M W E unit) xs :
  (forall x, emits P (body x)) -> emits P (for_each body xs).
Proof.
  intros Hb. induction xs as [|x xs IH]; simpl.
  - apply emits_ret.
  - apply emits_bind; auto.
Qed.

End MonadFacts.

(** ** SampleStream: framing of one sample *)

Module SampleFacts.
Import Sample.

Lemma written_entries_write r b t :
  written_entries (Write r b :: t) = entries r ++ written_entries t.
Proof. reflexivity. Qed.

Lemma written_entries_app t1 t2 :
  written_entries (t1 ++ t2) = written_entries t1 ++ written_entries t2.
Proof.
  unfold written_entries, written. now rewrite !flat_map_app.
Qed.

Section Framing.
Variable ByteSizeLong : Entry -> Z.

(** What [chunk_loop] writes is a prefix of [frames], and all of it
    when the loop runs to its end. *)
Lemma chunk_loop_frames sample size remaining :
  forall chunk_idx entry w,
    let r := chunk_loop ByteSizeLong sample size chunk_idx remaining entry w in
    written_entries (trace r)
      `prefix_of` frames ByteSizeLong sample size chunk_idx remaining entry
    /\ (outcome r = Next tt ->
        written_entries (trace r)
        = frames ByteSizeLong sample size chunk_idx remaining entry).
Proof.
  induction remaining as [|chunk remaining IH]; intros chunk_idx entry w; simpl.
  - split; [apply prefix_nil | reflexivity].
  - destruct (_ && _); [apply IH|].
    unfold bind, stream_Write.
    destruct (writes w) as [|[] ws]; simpl.
    + rewrite written_entries_write; simpl.
      match goal with |- context [chunk_loop ?b ?s ?z ?i ?l ?e ?w'] =>
        destruct (IH i e w') as [Hp He] end.
      split; [now apply prefix_cons | intros Ho; now rewrite He].
    + rewrite written_entries_write; simpl.
      match goal with |- context [chunk_loop ?b ?s ?z ?i ?l ?e ?w'] =>
        destruct (IH i e w') as [Hp He] end.
      split; [now apply prefix_cons | intros Ho; now rewrite He].
    + split; [|discriminate].
      apply prefix_cons, prefix_nil.
Qed.

Lemma data_appended chunk (b c : bool) i entry :
  data (add_data chunk
          (if c then set_info i (set_end_of_sequence b entry)
           else set_end_of_sequence b entry))
  = data entry ++ [chunk].
Proof. now destruct c. Qed.

Lemma flag_appended chunk (b c : bool) i entry :
  end_of_sequence
    (add_data chunk
       (if c then set_info i (set_end_of_sequence b entry)
        else set_end_of_sequence b entry))
  = b.
Proof. now destruct c. Qed.

Lemma frames_concat sample size remaining :
  forall chunk_idx entry,
    chunk_idx + Z.of_nat (length remaining) = size ->
    remaining <> [] \/ data entry = [] ->
    concat (data <$> frames ByteSizeLong sample size chunk_idx remaining entry)
    = data entry ++ remaining.
Proof.
  induction remaining as [|chunk remaining IH]; intros chunk_idx entry Hsize Hne.
  - destruct Hne as [Hne | ->]; [now destruct Hne | reflexivity].
  - cbn [frames]. cbn [length] in Hsize.
    destruct (_ && _) eqn:Hcont.
    + apply andb_prop in Hcont as [Hlt _]. apply Z.ltb_lt in Hlt.
      rewrite IH.
      * now rewrite data_appended, <- app_assoc.
      * lia.
      * left. destruct remaining; [cbn [length] in Hsize; lia | discriminate].
    + cbn [fmap list_fmap concat]. rewrite data_appended.
      change (list_fmap Entry (list ChunkData) data) with (fmap (M:=list) data).
      rewrite IH; [now rewrite <- app_assoc | lia | now right].
Qed.

Lemma frames_data sample size remaining :
  forall chunk_idx entry,
    Forall (fun e => data e <> [])
           (frames ByteSizeLong sample size chunk_idx remaining entry).
Proof.
  induction remaining as [|chunk remaining IH]; intros chunk_idx entry;
    cbn [frames]; [constructor|].
  destruct (_ && _); [apply IH|].
  constructor; [|apply IH].
  rewrite data_appended. now destruct (data entry).
Qed.

Lemma frames_flag sample size remaining :
  forall chunk_idx entry,
    chunk_idx + Z.of_nat (length remaining) = size ->
    forall i e,
      frames ByteSizeLong sample size chunk_idx remaining entry !! i = Some e ->
      end_of_sequence e
      = bool_decide
          (S i = length (frames ByteSizeLong sample size chunk_idx
                                remaining entry)).
Proof.
  induction remaining as [|chunk remaining IH];
    intros chunk_idx entry Hsize i e; cbn [frames]; [discriminate|].
  cbn [length] in Hsize.
  destruct (_ && _) eqn:Hcont; [apply IH; lia|].
  destruct i as [|i]; cbn [lookup list_lookup length].
  - intros [= <-]. rewrite flag_appended.
    destruct remaining as [|chunk' remaining].
    + cbn [length] in Hsize. cbn [frames length].
      rewrite bool_decide_eq_true_2 by reflexivity. apply Z.eqb_eq. lia.
    + assert (Hflush :
        concat (data <$> frames ByteSizeLong sample size (chunk_idx + 1)
                           (chunk' :: remaining) add_entries)
        = chunk' :: remaining)
        by (rewrite frames_concat; [reflexivity | cbn [length] in *; lia | now left]).
      destruct (frames _ _ _ _ (chunk' :: remaining) _); [discriminate|].
      cbn [length]. rewrite bool_decide_eq_false_2 by lia.
      apply Z.eqb_neq. cbn [length] in Hsize. lia.
  - intros Hi. rewrite (IH (chunk_idx + 1) add_entries ltac:(lia) _ _ Hi).
    apply bool_decide_ext. lia.
Qed.

Lemma frames_flushed_at_bound sample size remaining :
  forall chunk_idx entry,
    0 <= chunk_idx ->
    chunk_idx + Z.of_nat (length remaining) = size ->
    (chunk_idx = 0 -> data entry = []) ->
    (data entry <> [] ->
     end_of_sequence entry = false
     /\ ByteSizeLong entry < kMaxSampleResponseSizeBytes) ->
    Forall (flushed_at_bound ByteSizeLong)
           (frames ByteSizeLong sample size chunk_idx remaining entry).
Proof.
  induction remaining as [|chunk remaining IH];
    intros chunk_idx entry Hidx Hsize Hfirst Hbelow; cbn [frames];
    [constructor|].
  cbn [length] in Hsize.
  destruct (_ && _) eqn:Hcont.
  - apply andb_prop in Hcont as [Hlt Hsz].
    apply Z.ltb_lt in Hlt. apply Z.ltb_lt in Hsz.
    apply IH; [lia | lia | lia |].
    intros _. split; [|exact Hsz].
    rewrite flag_appended. apply Z.eqb_neq. lia.
  - constructor.
    + split; [|split].
      * rewrite data_appended. now destruct (data entry).
      * rewrite flag_appended. intros Hflag. apply Z.eqb_neq in Hflag.
        apply andb_false_iff in Hcont as [Hlt | Hsz].
        -- apply Z.ltb_ge in Hlt. lia.
        -- now apply Z.ltb_ge in Hsz.
      * unfold before_last_chunk. rewrite data_appended, removelast_last.
        intros Hdata. destruct (Hbelow Hdata) as [Hflag Hsz].
        destruct (chunk_idx =? 0) eqn:Hz.
        { apply Z.eqb_eq in Hz. now destruct Hdata; apply Hfirst. }
        destruct entry as [i d f]; simpl in *. now subst f.
    + apply IH; [lia | lia | reflexivity |].
      intros Hdata. now destruct Hdata.
Qed.

(** Every call of [chunk_loop] writes a response of one entry, one of
    [frames]. *)
Lemma chunk_loop_writes sample size remaining :
  forall chunk_idx entry w,
    Forall (fun ev => exists e b,
                ev = Write {| entries := [e] |} b
                /\ In e (frames ByteSizeLong sample size chunk_idx
                                remaining entry))
           (trace (chunk_loop ByteSizeLong sample size chunk_idx
                              remaining entry w)).
Proof.
  induction remaining as [|chunk remaining IH]; intros chunk_idx entry w;
    cbn [chunk_loop frames]; [constructor|].
  destruct (_ && _); [apply IH|].
  unfold bind, stream_Write.
  destruct (writes w) as [|[] ws]; simpl.
  1,2: constructor;
    [ eexists _, _; split; [reflexivity | now left]
    | eapply Forall_impl; [apply IH|];
      intros ev (e & b & -> & Hin); eexists _, _; split; [reflexivity|];
      now right ].
  constructor; [|constructor].
  eexists _, _; split; [reflexivity | now left].
Qed.

(** When the loop over the chunks of a sampled item runs to its
    end, the entries written for the item hold, put end to end, exactly
    the chunks of the item in their order; no entry is empty, so the
    last chunk is in the last entry; and [end_of_sequence] is [true] on
    the last entry written and [false] on every entry before it. *)
Theorem sample_chunks_once_in_order (sample : SampledItem) (w : Transport) :
  outcome (stream_sample ByteSizeLong sample w) = Next tt ->
  let es := written_entries (trace (stream_sample ByteSizeLong sample w)) in
  concat (data <$> es) = TableItem.chunks (ref sample)
  /\ Forall (fun e => data e <> []) es
  /\ forall i e,
       es !! i = Some e -> end_of_sequence e = bool_decide (S i = length es).
Proof.
  intros Hrun es. subst es. unfold stream_sample in *.
  destruct (chunk_loop_frames sample
              (Z.of_nat (length (TableItem.chunks (ref sample))))
              (TableItem.chunks (ref sample)) 0 add_entries w) as [_ Hall].
  rewrite (Hall Hrun). split; [|split].
  - rewrite frames_concat; [reflexivity | lia | now right].
  - apply frames_data.
  - apply frames_flag. lia.
Qed.

(** Every response written for a sampled item
    has one entry; the entry holds at least one chunk; an entry that
    does not end the sequence has reached the bound of 40 MiB; and an
    entry of several chunks was below the bound before its last chunk
    was appended.  The written entry itself may be larger than the
    bound. *)
Theorem frame_flushed_once_bound_reached (sample : SampledItem)
    (w : Transport) :
  Forall (fun ev => exists e b,
              ev = Write {| entries := [e] |} b
              /\ flushed_at_bound ByteSizeLong e)
         (trace (stream_sample ByteSizeLong sample w)).
Proof.
  unfold stream_sample.
  eapply Forall_impl; [apply chunk_loop_writes|].
  intros ev (e & b & -> & Hin). exists e, b. split; [reflexivity|].
  eapply (proj1 (List.Forall_forall _ _)); [|exact Hin].
  apply frames_flushed_at_bound; [lia | lia | reflexivity |].
  intros Hdata. now destruct Hdata.
Qed.

Lemma frames_info sample size remaining :
  forall chunk_idx entry,
    0 <= chunk_idx ->
    match frames ByteSizeLong sample size chunk_idx remaining entry with
    | [] => True
    | e :: later =>
        info e = (if chunk_idx =? 0 then Some (info_of sample) else info entry)
        /\ Forall (fun e' => info e' = None) later
    end.
Proof.
  induction remaining as [|chunk remaining IH]; intros chunk_idx entry Hidx;
    cbn [frames]; [exact I|].
  assert (Hnext : (chunk_idx + 1 =? 0) = false) by (apply Z.eqb_neq; lia).
  destruct (_ && _).
  - specialize (IH (chunk_idx + 1)
                   (add_data chunk
                      (if chunk_idx =? 0
                       then set_info (info_of sample)
                              (set_end_of_sequence (chunk_idx + 1 =? size) entry)
                       else set_end_of_sequence (chunk_idx + 1 =? size) entry))
                   ltac:(lia)).
    rewrite Hnext in IH.
    destruct (frames _ _ _ _ remaining _); [exact I|].
    destruct IH as [-> Hlater]. split; [|exact Hlater].
    now destruct (chunk_idx =? 0).
  - split; [now destruct (chunk_idx =? 0)|].
    specialize (IH (chunk_idx + 1) add_entries ltac:(lia)).
    rewrite Hnext in IH.
    destruct (frames _ _ _ _ remaining _); [constructor|].
    destruct IH as [Hfirst Hlater]. now constructor.
Qed.

(** X2.  When the loop over the chunks of a sampled item runs to its
    end, the first entry written carries the info of the item, with the
    priority and the times sampled of the sample, and no later entry
    carries an info. *)
Theorem info_on_first_entry_only (sample : SampledItem) (w : Transport) :
  outcome (stream_sample ByteSizeLong sample w) = Next tt ->
  match written_entries (trace (stream_sample ByteSizeLong sample w)) with
  | [] => TableItem.chunks (ref sample) = []
  | e :: later =>
      info e = Some (info_of sample)
      /\ PrioritizedItem.priority (SampleInfo.item (info_of sample))
         = priority sample
      /\ PrioritizedItem.times_sampled (SampleInfo.item (info_of sample))
         = times_sampled sample
      /\ Forall (fun e' => info e' = None) later
  end.
Proof.
  intros Hrun. unfold stream_sample in *.
  destruct (chunk_loop_frames sample
              (Z.of_nat (length (TableItem.chunks (ref sample))))
              (TableItem.chunks (ref sample)) 0 add_entries w) as [_ Hall].
  rewrite (Hall Hrun).
  pose proof (frames_info sample
                (Z.of_nat (length (TableItem.chunks (ref sample))))
                (TableItem.chunks (ref sample)) 0 add_entries ltac:(lia))
    as Hinfo.
  pose proof (frames_concat sample
                (Z.of_nat (length (TableItem.chunks (ref sample))))
                (TableItem.chunks (ref sample)) 0 add_entries ltac:(lia)
                ltac:(now right)) as Hconcat.
  destruct (frames _ _ _ _ _ _); [now cbn in Hconcat|].
  destruct Hinfo as [Hfirst Hlater]. now repeat split.
Qed.

Lemma for_each_sample_frames samples :
  forall w,
    outcome (for_each (stream_sample ByteSizeLong) samples w) = Next tt ->
    written_entries (trace (for_each (stream_sample ByteSizeLong) samples w))
    = flat_map (sample_frames ByteSizeLong) samples.
Proof.
  induction samples as [|sample samples IH]; intros w; cbn [for_each flat_map];
    [reflexivity|].
  unfold bind.
  destruct (outcome (stream_sample ByteSizeLong sample w)) as [[]| | |] eqn:Hone;
    cbn [outcome trace]; try discriminate.
  intros Hrest. rewrite written_entries_app, (IH _ Hrest). f_equal.
  unfold stream_sample in *.
  now apply (chunk_loop_frames sample
               (Z.of_nat (length (TableItem.chunks (ref sample))))
               (TableItem.chunks (ref sample)) 0 add_entries w).
Qed.

(** X7.  When the loop over the samples of a batch runs to its end, the
    entries written are those of the first sample, then those of the
    second, and so on; and the entries of each sample hold, put end to
    end, the chunks of that sample in their order. *)
Theorem batch_written_sample_by_sample (samples : list SampledItem)
    (w : Transport) :
  outcome (for_each (stream_sample ByteSizeLong) samples w) = Next tt ->
  written_entries (trace (for_each (stream_sample ByteSizeLong) samples w))
  = flat_map (sample_frames ByteSizeLong) samples
  /\ Forall (fun sample =>
               concat (data <$> sample_frames ByteSizeLong sample)
               = TableItem.chunks (ref sample))
            samples.
Proof.
  intros Hrun. split; [now apply for_each_sample_frames|].
  apply Forall_forall. intros sample _. unfold sample_frames.
  rewrite frames_concat; [reflexivity | lia | now right].
Qed.

End Framing.

(** X7 at a batch of two items. *)
Lemma batch_written_sample_by_sample_witness :
  outcome (for_each (stream_sample Examples.payload_size)
             [Examples.sampled Examples.three_chunks;
              Examples.sampled Examples.two_chunks]
             Examples.quiet) = Next tt
  /\ written_entries
       (trace (for_each (stream_sample Examples.payload_size)
                 [Examples.sampled Examples.three_chunks;
                  Examples.sampled Examples.two_chunks]
                 Examples.quiet))
     = flat_map (sample_frames Examples.payload_size)
                [Examples.sampled Examples.three_chunks;
                 Examples.sampled Examples.two_chunks]
  /\ Forall (fun sample =>
               concat (data <$> sample_frames Examples.payload_size sample)
               = TableItem.chunks (ref sample))
            [Examples.sampled Examples.three_chunks;
             Examples.sampled Examples.two_chunks].
Proof.
  split; [vm_compute; reflexivity|].
  apply (batch_written_sample_by_sample Examples.payload_size
           [Examples.sampled Examples.three_chunks;
            Examples.sampled Examples.two_chunks]
           Examples.quiet).
  vm_compute; reflexivity.
Defined.

(** X2 at an item of three chunks. *)
Lemma info_on_first_entry_only_witness :
  outcome (stream_sample Examples.payload_size
             (Examples.sampled Examples.three_chunks) Examples.quiet)
  = Next tt
  /\ match
       written_entries
         (trace (stream_sample Examples.payload_size
                   (Examples.sampled Examples.three_chunks) Examples.quiet))
     with
     | [] => Examples.three_chunks = []
     | e :: later =>
         info e = Some (info_of (Examples.sampled Examples.three_chunks))
         /\ PrioritizedItem.priority
              (SampleInfo.item
                 (info_of (Examples.sampled Examples.three_chunks))) = 1
         /\ PrioritizedItem.times_sampled
              (SampleInfo.item
                 (info_of (Examples.sampled Examples.three_chunks))) = 2
         /\ Forall (fun e' => info e' = None) later
     end.
Proof.
  split; [vm_compute; reflexivity|].
  apply (info_on_first_entry_only Examples.payload_size
           (Examples.sampled Examples.three_chunks) Examples.quiet).
  vm_compute; reflexivity.
Defined.

(** An item of three chunks, written as two entries. *)
Lemma sample_chunks_once_in_order_witness :
  outcome (stream_sample Examples.payload_size
             (Examples.sampled Examples.three_chunks)
             Examples.quiet) = Next tt
  /\ let es :=
       written_entries
         (trace (stream_sample Examples.payload_size
                   (Examples.sampled Examples.three_chunks)
                   Examples.quiet)) in
     concat (data <$> es)
     = Examples.three_chunks
     /\ Forall (fun e => data e <> []) es
     /\ forall i e,
          es !! i = Some e ->
          end_of_sequence e = bool_decide (S i = length es).
Proof.
  split; [vm_compute; reflexivity|].
  apply (sample_chunks_once_in_order Examples.payload_size
           (Examples.sampled Examples.three_chunks)
           Examples.quiet).
  vm_compute; reflexivity.
Defined.

(** C1 fails as stated: two chunks of 30 MiB each go out in one entry
    of 60 MiB.  The second chunk took the entry past the bound and was
    still appended to it; no entry was flushed before it. *)
Lemma frame_exceeds_bound :
  let e := {| info := Some (info_of (Examples.sampled
                                       Examples.two_chunks));
              data := Examples.two_chunks;
              end_of_sequence := true |} in
  trace (stream_sample Examples.payload_size
           (Examples.sampled Examples.two_chunks)
           Examples.quiet)
  = [Write {| entries := [e] |} true]
  /\ Examples.payload_size e = 60 * Examples.MiB
  /\ kMaxSampleResponseSizeBytes < Examples.payload_size e.
Proof. vm_compute. repeat split. Qed.

(** ** SampleStream: requests, batches and the timeout *)

Section Requests.
Variable kAutoSelectValue : Z.
Variable ByteSizeLong : Entry -> Z.
Variable tables_ : gmap string Table.

Lemma IsCancelled_silent (P : Event -> Prop) : emits P IsCancelled.
Proof. intros w. unfold IsCancelled. destruct (next_answer _ _). constructor. Qed.

Lemma stream_sample_writes (P : Event -> Prop) sample :
  (forall r b, P (Write r b)) -> emits P (stream_sample ByteSizeLong sample).
Proof.
  intros HP w. eapply Forall_impl;
    [apply (chunk_loop_writes ByteSizeLong)|].
  intros ev (e & b & -> & _). apply HP.
Qed.

Lemma sampling_loop_timeout answers :
  forall request table default timeout count,
    emits (asks_with_timeout timeout)
          (sampling_loop kAutoSelectValue ByteSizeLong answers request table
                         default timeout count).
Proof.
  induction answers as [|[status samples] answers IH];
    intros request table default timeout count; cbn [sampling_loop];
    (apply emits_bind; [apply IsCancelled_silent|]); intros c;
    (destruct (_ && _); [|apply emits_ret]);
    (apply emits_bind; [now apply emits_call|]); intros _.
  - apply emits_pending.
  - destruct (negb (ok status)); [apply emits_stop|].
    apply emits_bind; [|intros _; apply IH].
    apply emits_for_each. intros sample. now apply stream_sample_writes.
Qed.

Lemma serve_request_timeout request timeout answers :
  emits (asks_with_timeout timeout)
        (serve_request kAutoSelectValue ByteSizeLong tables_ request timeout
                       answers).
Proof.
  unfold serve_request.
  destruct (_ <=? _); [apply emits_stop|].
  destruct (_ && _); [apply emits_stop|].
  destruct (TableByName _ _); [apply sampling_loop_timeout | apply emits_stop].
Qed.

Lemma request_loop_timeout incoming :
  forall request timeout answers,
    emits (asks_with_timeout timeout)
          (request_loop kAutoSelectValue ByteSizeLong tables_ request incoming
                        timeout answers).
Proof.
  induction incoming as [|request' incoming IH]; intros request timeout answers;
    cbn [request_loop]; (apply emits_bind; [apply serve_request_timeout|]);
    intros answers'; [apply emits_stop | apply IH].
Qed.

(** The first call of a stream whose initial request passes the
    checks and whose context is not cancelled is a sampling call. *)
Lemma request_loop_samples request incoming timeout answers w found :
  0 < num_samples request ->
  0 < flexible_batch_size request
  \/ flexible_batch_size request = kAutoSelectValue ->
  TableByName tables_ (table request) = Some found ->
  fst (next_answer false (cancelled w)) = false ->
  exists rest,
    trace (request_loop kAutoSelectValue ByteSizeLong tables_ request incoming
                        timeout answers w)
    = SampleFlexibleBatch
        (name found)
        (max_batch_size_of kAutoSelectValue request
                           (DefaultFlexibleBatchSize found) 0)
        timeout
      :: rest.
Proof.
  intros Hnum Hsize Htable Hgoes.
  assert (Hserve : exists rest,
    trace (serve_request kAutoSelectValue ByteSizeLong tables_ request
                         timeout answers w)
    = SampleFlexibleBatch
        (name found)
        (max_batch_size_of kAutoSelectValue request
                           (DefaultFlexibleBatchSize found) 0)
        timeout
      :: rest).
  { unfold serve_request.
    rewrite (proj2 (Z.leb_gt _ _) Hnum), Htable.
    assert (Hcheck : (flexible_batch_size request <=? 0)
                     && negb (flexible_batch_size request =? kAutoSelectValue)
                     = false).
    { destruct Hsize as [Hsize | Hsize].
      - now rewrite (proj2 (Z.leb_gt _ _) Hsize).
      - rewrite (proj2 (Z.eqb_eq _ _) Hsize). apply andb_false_r. }
    rewrite Hcheck.
    assert (Hcount : (0 =? num_samples request) = false)
      by (apply Z.eqb_neq; lia).
    destruct answers as [|[status samples] answers]; cbn [sampling_loop];
      unfold bind at 1, IsCancelled;
      destruct (next_answer false (cancelled w)) as [c script];
      cbn [fst] in Hgoes; subst c;
      cbn [outcome world trace negb andb app]; rewrite Hcount; cbn [negb];
      unfold bind at 1; cbn [call outcome world trace app]; eauto. }
  destruct Hserve as [rest Hserve].
  destruct incoming as [|request' incoming]; cbn [request_loop]; unfold bind;
    destruct (outcome (serve_request _ _ _ request timeout answers w));
    cbn [trace]; rewrite Hserve; cbn [app]; eauto.
Qed.

(** C8.  Every sampling call of a stream passes the timeout of the
    initial request: its [rate_limiter_timeout] in milliseconds when the
    field is there and not negative, the infinite duration when the
    field is absent or negative.  And such calls are made: when the
    initial request passes the checks and the context is not cancelled,
    the first call of the stream asks the table of the request for
    samples with that timeout. *)
Theorem timeout_of_initial_request (request : SampleStreamRequest)
    (incoming : list SampleStreamRequest) (answers : list Batch)
    (w : Transport) :
  let timeout :=
    match rate_limiter_timeout request with
    | Some ms => if 0 <=? ms then Milliseconds ms else InfiniteDuration
    | None => InfiniteDuration
    end in
  let r := SampleStreamInternal kAutoSelectValue ByteSizeLong tables_
                                (request :: incoming) answers w in
  Forall (asks_with_timeout timeout) (trace r)
  /\ (forall found,
        0 < num_samples request ->
        0 < flexible_batch_size request
        \/ flexible_batch_size request = kAutoSelectValue ->
        TableByName tables_ (table request) = Some found ->
        fst (next_answer false (cancelled w)) = false ->
        exists rest,
          trace r
          = SampleFlexibleBatch
              (name found)
              (max_batch_size_of kAutoSelectValue request
                                 (DefaultFlexibleBatchSize found) 0)
              timeout
            :: rest).
Proof.
  cbn [SampleStreamInternal].
  replace (match rate_limiter_timeout request with
           | Some ms => if 0 <=? ms then Milliseconds ms else InfiniteDuration
           | None => InfiniteDuration
           end) with (timeout_of request).
  - cbn zeta. split; [apply request_loop_timeout|].
    intros found. apply request_loop_samples.
  - unfold timeout_of, Duration_lt, ZeroDuration.
    destruct (rate_limiter_timeout request) as [ms|]; [|reflexivity].
    destruct (Z.ltb_spec ms 0), (Z.leb_spec 0 ms); (reflexivity || lia).
Qed.

Lemma sampling_loop_ignores_timeout_field answers :
  forall t request table default timeout count w,
    sampling_loop kAutoSelectValue ByteSizeLong answers
      (set_rate_limiter_timeout t request) table default timeout count w
    = sampling_loop kAutoSelectValue ByteSizeLong answers request table
        default timeout count w.
Proof.
  induction answers as [|[status samples] answers IH];
    intros t request table default timeout count w; cbn [sampling_loop];
    apply bind_ext; intros c w1;
    change (num_samples (set_rate_limiter_timeout t request))
      with (num_samples request);
    (destruct (_ && _); [|reflexivity]); [reflexivity|].
  apply bind_ext; intros _ w2.
  destruct (negb (ok status)); [reflexivity|].
  apply bind_ext; intros _ w3. apply IH.
Qed.

Lemma serve_request_ignores_timeout_field t request timeout answers w :
  serve_request kAutoSelectValue ByteSizeLong tables_
    (set_rate_limiter_timeout t request) timeout answers w
  = serve_request kAutoSelectValue ByteSizeLong tables_ request timeout
      answers w.
Proof.
  unfold serve_request. cbn [num_samples flexible_batch_size table
                              set_rate_limiter_timeout].
  destruct (_ <=? _); [reflexivity|].
  destruct (_ && _); [reflexivity|].
  destruct (TableByName _ _); [|reflexivity].
  apply sampling_loop_ignores_timeout_field.
Qed.

Lemma request_loop_ignores_timeout_field
    (later : list (option Z * SampleStreamRequest)) :
  forall t request timeout answers w,
    request_loop kAutoSelectValue ByteSizeLong tables_
      (set_rate_limiter_timeout t request)
      ((fun p => set_rate_limiter_timeout (fst p) (snd p)) <$> later)
      timeout answers w
    = request_loop kAutoSelectValue ByteSizeLong tables_ request
        (snd <$> later) timeout answers w.
Proof.
  induction later as [|[t' request'] later IH];
    intros t request timeout answers w; cbn [request_loop fmap list_fmap];
    unfold bind; rewrite serve_request_ignores_timeout_field;
    destruct (outcome _); try reflexivity.
  cbn [fst snd].
  change (list_fmap _ _ ?f later) with (f <$> later).
  now rewrite IH.
Qed.

(** C10.  The timeout of a stream is taken from the initial request
    alone: give the [rate_limiter_timeout] field of every later request
    of the stream any other value, present or absent, and the run is the
    same, call for call; and every sampling call of the stream, for
    whichever request, passes the timeout computed from the initial
    request at lines 284-288. *)
Theorem later_timeouts_ignored (request : SampleStreamRequest)
    (later : list (option Z * SampleStreamRequest)) (answers : list Batch)
    (w : Transport) :
  let changed :=
    (fun p => set_rate_limiter_timeout (fst p) (snd p)) <$> later in
  SampleStreamInternal kAutoSelectValue ByteSizeLong tables_
    (request :: changed) answers w
  = SampleStreamInternal kAutoSelectValue ByteSizeLong tables_
      (request :: (snd <$> later)) answers w
  /\ Forall (asks_with_timeout (timeout_of request))
            (trace (SampleStreamInternal kAutoSelectValue ByteSizeLong tables_
                      (request :: changed) answers w)).
Proof.
  intros changed. subst changed. cbn [SampleStreamInternal]. split.
  - rewrite <- (request_loop_ignores_timeout_field later
                  (rate_limiter_timeout request) request).
    now destruct request.
  - apply request_loop_timeout.
Qed.

(** C6.  The do-while body checks a request in this order, and a failed
    check ends the stream with its status before any call is made:
    [num_samples], then [flexible_batch_size], then the table. *)
Theorem sample_request_checked_in_order (request : SampleStreamRequest)
    (incoming : list SampleStreamRequest) (timeout : Duration)
    (answers : list Batch) (w : Transport) :
  let run :=
    request_loop kAutoSelectValue ByteSizeLong tables_ request incoming
                 timeout answers w in
  (num_samples request <= 0 ->
   run = MkRun (Return {| code := INVALID_ARGUMENT;
                          message := "`num_samples` must be > 0." |}) w [])
  /\ (0 < num_samples request ->
      flexible_batch_size request <= 0 ->
      flexible_batch_size request <> kAutoSelectValue ->
      run = MkRun (Return {| code := INVALID_ARGUMENT;
                             message :=
                               "`flexible_batch_size` must be > 0 or "
                               +:+ pretty kAutoSelectValue
                               +:+ " (for auto tuning)." |}) w [])
  /\ (0 < num_samples request ->
      0 < flexible_batch_size request
      \/ flexible_batch_size request = kAutoSelectValue ->
      TableByName tables_ (table request) = None ->
      run = MkRun (Return {| code := NOT_FOUND;
                             message := "Priority table " +:+ table request
                                        +:+ " was not found" |}) w []).
Proof.
  intros run. subst run.
  assert (Hbody : forall s,
             serve_request kAutoSelectValue ByteSizeLong tables_ request
                           timeout answers w = MkRun (Return s) w [] ->
             request_loop kAutoSelectValue ByteSizeLong tables_ request
                          incoming timeout answers w = MkRun (Return s) w []).
  { intros s Hs. destruct incoming; cbn [request_loop]; unfold bind;
      now rewrite Hs. }
  split; [|split].
  - intros Hn. apply Hbody. unfold serve_request.
    now rewrite (proj2 (Z.leb_le _ _) Hn).
  - intros Hn Hf Ha. apply Hbody. unfold serve_request.
    rewrite (proj2 (Z.leb_gt _ _) Hn), (proj2 (Z.leb_le _ _) Hf).
    now rewrite (proj2 (Z.eqb_neq _ _) Ha).
  - intros Hn Hf Ht. apply Hbody. unfold serve_request.
    rewrite (proj2 (Z.leb_gt _ _) Hn), Ht.
    destruct Hf as [Hf | Hf].
    + now rewrite (proj2 (Z.leb_gt _ _) Hf).
    + rewrite (proj2 (Z.eqb_eq _ _) Hf). now rewrite andb_false_r.
Qed.

Lemma asked_app t1 t2 : asked (t1 ++ t2) = asked t1 ++ asked t2.
Proof. unfold asked. apply flat_map_app. Qed.

Lemma asked_writes (t : list Event) :
  Forall (fun ev => exists r b, ev = Write r b) t -> asked t = [].
Proof.
  induction 1 as [|ev t (r & b & ->) _ IH]; [reflexivity | exact IH].
Qed.

Lemma for_each_stream_sample_asked samples w :
  asked (trace (for_each (stream_sample ByteSizeLong) samples w)) = [].
Proof.
  apply asked_writes.
  apply (emits_for_each (fun ev => exists r b, ev = Write r b)).
  intros sample. apply stream_sample_writes. eauto.
Qed.

(** X3.  The batch sizes a request asks of its table are, call after
    call, those computed at lines 310-314 from the count of the samples
    the earlier calls of the request returned; cancellation, a failed
    write or a missing answer can only cut the sequence short. *)
Theorem batch_sizes_follow_count (answers : list Batch)
    (request : SampleStreamRequest) (table : Table)
    (default : Z) (timeout : Duration) (count : Z) (w : Transport) :
  asked (trace (sampling_loop kAutoSelectValue ByteSizeLong answers request
                              table default timeout count w))
  `prefix_of` batch_sizes kAutoSelectValue answers request default count.
Proof.
  revert count w.
  induction answers as [|[status samples] answers IH]; intros count w;
    cbn [sampling_loop batch_sizes]; unfold bind at 1, IsCancelled;
    destruct (next_answer false (cancelled w)) as [c rest];
    cbn [outcome world trace app];
    (destruct c; cbn [negb andb]; [apply prefix_nil|]);
    (destruct (count =? num_samples request); cbn [negb];
     [apply prefix_nil|]).
  - reflexivity.
  - unfold bind at 1. cbn [call outcome world trace].
    change (asked ([?e] ++ ?t)) with (asked [e] ++ asked t).
    cbn [asked flat_map app]. apply prefix_cons.
    destruct (negb (ok status)); [apply prefix_nil|].
    unfold bind.
    destruct (outcome (for_each _ samples _)) eqn:Hbatch;
      cbn [trace]; rewrite ?asked_app, for_each_stream_sample_asked;
      try apply prefix_nil.
    apply IH.
Qed.

Lemma to_int32_fits (z : Z) : - 2^31 <= z <= INT32_MAX -> to_int32 z = z.
Proof.
  unfold to_int32, INT32_MAX. intros Hz.
  rewrite Z.mod_small by lia. lia.
Qed.

(** X1.  Lines 310-314 compute the batch size in [int32_t]; when the
    wanted size, the default and the samples still owed all fit, the
    size is the minimum the handler is after. *)
Theorem batch_size_is_min_when_it_fits (request : SampleStreamRequest)
    (default count : Z) :
  - 2^31 <= flexible_batch_size request <= INT32_MAX ->
  - 2^31 <= default <= INT32_MAX ->
  - 2^31 <= num_samples request - count <= INT32_MAX ->
  max_batch_size_of kAutoSelectValue request default count
  = Z.min (if flexible_batch_size request =? kAutoSelectValue
           then default else flexible_batch_size request)
          (num_samples request - count).
Proof.
  intros Hf Hd Hn. unfold max_batch_size_of.
  rewrite (to_int32_fits (num_samples request - count)) by exact Hn.
  destruct (_ =? _); now rewrite to_int32_fits.
Qed.

End Requests.

(** C8 at a request with a timeout of 5 ms, and at one with a timeout
    of -3 ms: the table is asked with 5 ms, and with the infinite
    duration. *)
Lemma timeout_of_initial_request_witness :
  (exists rest,
     trace (SampleStreamInternal Examples.auto_select Examples.payload_size
              Examples.tables
              [Examples.sample_request "t" 1 (Some 5) 1]
              [(Status_OK, [Examples.sampled Examples.two_chunks])]
              Examples.quiet)
     = SampleFlexibleBatch "t" 1 (Milliseconds 5) :: rest)
  /\ (exists rest,
        trace (SampleStreamInternal Examples.auto_select
                 Examples.payload_size Examples.tables
                 [Examples.sample_request "t" 1 (Some (-3)) 1]
                 [(Status_OK, [Examples.sampled Examples.two_chunks])]
                 Examples.quiet)
        = SampleFlexibleBatch "t" 1 InfiniteDuration :: rest).
Proof.
  split.
  - apply (proj2 (timeout_of_initial_request Examples.auto_select
                    Examples.payload_size Examples.tables
                    (Examples.sample_request "t" 1 (Some 5) 1) []
                    [(Status_OK, [Examples.sampled Examples.two_chunks])]
                    Examples.quiet)
                 {| name := "t"; DefaultFlexibleBatchSize := 64 |});
      [cbn; lia | left; cbn; lia | reflexivity | reflexivity].
  - apply (proj2 (timeout_of_initial_request Examples.auto_select
                    Examples.payload_size Examples.tables
                    (Examples.sample_request "t" 1 (Some (-3)) 1) []
                    [(Status_OK, [Examples.sampled Examples.two_chunks])]
                    Examples.quiet)
                 {| name := "t"; DefaultFlexibleBatchSize := 64 |});
      [cbn; lia | left; cbn; lia | reflexivity | reflexivity].
Defined.

(** A stream of two requests, the first with a timeout of 5 ms and the
    second with one of 9 ms: both sampling calls pass 5 ms. *)
Example second_timeout_unused :
  trace (SampleStreamInternal Examples.auto_select Examples.payload_size
           Examples.tables
           [Examples.sample_request "t" 1 (Some 5) 1;
            Examples.sample_request "t" 1 (Some 9) 1]
           [(Status_OK, [Examples.sampled []]);
            (Status_OK, [Examples.sampled []])]
           Examples.quiet)
  = [SampleFlexibleBatch "t" 1 (Milliseconds 5);
     SampleFlexibleBatch "t" 1 (Milliseconds 5)].
Proof. vm_compute. reflexivity. Qed.

(** C6 at three requests: no samples wanted; a batch size of zero; a
    table that is not there. *)
Lemma sample_request_checked_in_order_witness :
  request_loop Examples.auto_select Examples.payload_size Examples.tables
    (Examples.sample_request "ghost" 0 None 0) [] InfiniteDuration []
    Examples.quiet
  = MkRun (Return {| code := INVALID_ARGUMENT;
                     message := "`num_samples` must be > 0." |})
          Examples.quiet []
  /\ request_loop Examples.auto_select Examples.payload_size Examples.tables
       (Examples.sample_request "ghost" 1 None 0) [] InfiniteDuration []
       Examples.quiet
     = MkRun (Return {| code := INVALID_ARGUMENT;
                        message := "`flexible_batch_size` must be > 0 or "
                                   +:+ pretty Examples.auto_select
                                   +:+ " (for auto tuning)." |})
             Examples.quiet []
  /\ request_loop Examples.auto_select Examples.payload_size Examples.tables
       (Examples.sample_request "ghost" 1 None Examples.auto_select) []
       InfiniteDuration [] Examples.quiet
     = MkRun (Return {| code := NOT_FOUND;
                        message := "Priority table " +:+ "ghost"
                                   +:+ " was not found" |})
             Examples.quiet [].
Proof.
  split; [|split].
  - apply (proj1 (sample_request_checked_in_order Examples.auto_select
                    Examples.payload_size Examples.tables
                    (Examples.sample_request "ghost" 0 None 0) []
                    InfiniteDuration [] Examples.quiet)).
    simpl; lia.
  - apply (proj1 (proj2 (sample_request_checked_in_order Examples.auto_select
                    Examples.payload_size Examples.tables
                    (Examples.sample_request "ghost" 1 None 0) []
                    InfiniteDuration [] Examples.quiet))).
    + simpl; lia.
    + simpl; lia.
    + simpl; unfold Examples.auto_select; lia.
  - apply (proj2 (proj2 (sample_request_checked_in_order Examples.auto_select
                    Examples.payload_size Examples.tables
                    (Examples.sample_request "ghost" 1 None
                                             Examples.auto_select) []
                    InfiniteDuration [] Examples.quiet))).
    + simpl; lia.
    + right; reflexivity.
    + vm_compute; reflexivity.
Defined.

(** X1 at a request for ten samples of which seven have come. *)
Lemma batch_size_is_min_when_it_fits_witness :
  max_batch_size_of Examples.auto_select
    (Examples.sample_request "t" 10 None Examples.auto_select) 64 7
  = Z.min (if Examples.auto_select =? Examples.auto_select then 64
           else Examples.auto_select)
          (10 - 7).
Proof.
  apply (batch_size_is_min_when_it_fits Examples.auto_select
           (Examples.sample_request "t" 10 None Examples.auto_select) 64 7);
    vm_compute; split; discriminate.
Defined.

(** C7 fails at a request for 2^31 samples, one at a time: the handler
    asks the table for -2^31 samples, where the minimum of 1 and the
    2^31 samples still owed is 1.  The difference [num_samples - count]
    does not fit [int32_t], to which [std::min<int32_t>] converts it. *)
Lemma batch_size_wraps_for_large_num_samples :
  trace (SampleStreamInternal Examples.auto_select Examples.payload_size
           Examples.tables [Examples.huge_request] [] Examples.quiet)
  = [SampleFlexibleBatch "t" (- 2^31) InfiniteDuration]
  /\ Z.min (flexible_batch_size Examples.huge_request)
           (num_samples Examples.huge_request - 0) = 1.
Proof. vm_compute. split; reflexivity. Qed.

End SampleFacts.

(** ** InsertStream *)

Module InsertFacts.
Import Insert.

(** A key survives the erase loop exactly when it is kept. *)
Lemma erase_unkept_lookup (keep_keys : gset Key) (chunks : gmap Key Chunk)
    (k : Key) :
  erase_unkept keep_keys chunks !! k
  = if decide (k ∈ keep_keys) then chunks !! k else None.
Proof.
  unfold erase_unkept.
  pose (visited (r m : gmap Key Chunk) :=
          (is_Some (m !! k) -> k ∉ keep_keys -> r !! k = None)
          /\ (m !! k = None \/ k ∈ keep_keys -> r !! k = chunks !! k)).
  assert (Hfold : forall m : gmap Key Chunk,
    visited
      (map_fold (fun key _ (acc : gmap Key Chunk) =>
                   if decide (key ∈ keep_keys) then acc else delete key acc)
                chunks m) m).
  { apply (map_fold_weak_ind visited); unfold visited.
    - rewrite lookup_empty. split; [intros [? ?]; discriminate | reflexivity].
    - intros i x m r Hi [IHerased IHkept].
      destruct (decide (k = i)) as [-> | Hne].
      + rewrite lookup_insert_eq. case_decide as Hk.
        * split; [intros _ Hn; now destruct Hn|].
          intros _. apply IHkept. now left.
        * rewrite lookup_delete_eq. split; [reflexivity|].
          intros [? | ?]; [discriminate | now destruct Hk].
      + rewrite lookup_insert_ne by congruence.
        case_decide; [now split|].
        now rewrite lookup_delete_ne by congruence. }
  destruct (Hfold chunks) as [Herased Hkept].
  case_decide as Hk.
  - apply Hkept. now right.
  - destruct (chunks !! k) eqn:Hc.
    + apply Herased; [eauto | exact Hk].
    + apply Hkept. now left.
Qed.

Lemma erase_unkept_dom (keep_keys : gset Key) (chunks : gmap Key Chunk) :
  keep_keys ⊆ dom chunks -> dom (erase_unkept keep_keys chunks) = keep_keys.
Proof.
  intros Hsub. apply set_eq. intros k.
  rewrite elem_of_dom, erase_unkept_lookup.
  case_decide as Hk.
  - split; [done|]. intros _. now apply elem_of_dom, Hsub.
  - split; [intros [? ?]; discriminate | done].
Qed.

(** The erase loop leaves exactly the kept keys: a key outside
    [keep_chunk_keys] is erased and a kept key stays with its chunk;
    and when every kept key is pending, the keys left are the kept
    ones and the check on the sizes passes. *)
Theorem retention_keeps_exactly (keep_chunk_keys : list Key)
    (chunks : gmap Key Chunk) (w : World) :
  let keep_keys : gset Key := list_to_set keep_chunk_keys in
  let kept := erase_unkept keep_keys chunks in
  (forall k, k ∉ keep_keys -> kept !! k = None)
  /\ (forall k, k ∈ keep_keys -> kept !! k = chunks !! k)
  /\ ((forall k, k ∈ keep_chunk_keys -> is_Some (chunks !! k)) ->
      dom kept = keep_keys
      /\ size kept = size keep_keys
      /\ keep_specified keep_chunk_keys chunks w = MkRun (Next kept) w []).
Proof.
  intros keep_keys kept. split; [|split].
  - intros k Hk. unfold kept. rewrite erase_unkept_lookup.
    now case_decide.
  - intros k Hk. unfold kept. rewrite erase_unkept_lookup.
    now case_decide.
  - intros Hpending.
    assert (Hdom : dom kept = keep_keys).
    { apply erase_unkept_dom. intros k Hk. apply elem_of_dom, Hpending.
      now apply elem_of_list_to_set in Hk. }
    assert (Hsize : size kept = size keep_keys)
      by now rewrite <- Hdom, size_dom.
    repeat split; try assumption.
    unfold keep_specified. fold keep_keys. fold kept.
    now case_decide.
Qed.

(** X6.  When a kept key is not pending, fewer chunks are left than
    keys are kept: the check on the sizes fails and the process
    aborts. *)
Theorem retention_of_missing_chunk_aborts (keep_chunk_keys : list Key)
    (chunks : gmap Key Chunk) (w : World) (key : Key) :
  key ∈ keep_chunk_keys ->
  chunks !! key = None ->
  (size (erase_unkept (list_to_set keep_chunk_keys) chunks)
   < size (list_to_set keep_chunk_keys : gset Key))%nat
  /\ keep_specified keep_chunk_keys chunks w = MkRun Fatal w [].
Proof.
  intros Hkey Hmissing.
  set (keep_keys := list_to_set keep_chunk_keys : gset Key).
  assert (Hless : (size (erase_unkept keep_keys chunks) < size keep_keys)%nat).
  { rewrite <- size_dom. apply subset_size. split.
    - intros k Hk. apply elem_of_dom in Hk.
      rewrite erase_unkept_lookup in Hk.
      case_decide; [assumption | now destruct Hk].
    - intros Hsub.
      assert (Hin : key ∈ dom (erase_unkept keep_keys chunks))
        by (apply Hsub; now apply elem_of_list_to_set).
      apply elem_of_dom in Hin. rewrite erase_unkept_lookup in Hin.
      case_decide; rewrite ?Hmissing in Hin; now destruct Hin. }
  split; [lia|].
  unfold keep_specified. fold keep_keys. case_decide; [lia | reflexivity].
Qed.

Section Requests.
Variable GetChunkKeys : FlatTrajectory -> list Key.
Variable tables_ : gmap string Table.

Lemma insert_chunks_calls request_chunks :
  forall chunks,
    emits is_chunk_store_call (insert_chunks request_chunks chunks).
Proof.
  induction request_chunks as [|chunk request_chunks IH]; intros chunks;
    cbn [insert_chunks]; [apply emits_ret|].
  apply emits_bind.
  - intros w. unfold chunk_store_Insert. destruct (next_answer _ _).
    now repeat constructor.
  - intros [chunk_sp|]; [apply IH | apply emits_stop].
Qed.

(** A refused chunk ends the loop over the chunks with [CANCELLED]. *)
Lemma insert_chunks_closed request_chunks :
  forall chunks w chunk,
    In (ChunkStore_Insert chunk None)
       (trace (insert_chunks request_chunks chunks w)) ->
    outcome (insert_chunks request_chunks chunks w)
    = Return {| code := CANCELLED; message := "Service has been closed" |}.
Proof.
  induction request_chunks as [|c request_chunks IH]; intros chunks w chunk;
    cbn [insert_chunks]; [intros []|].
  unfold bind, chunk_store_Insert.
  destruct (next_answer Stored (inserts w)) as [[| |existing] rest];
    cbn; [reflexivity | |];
    (intros [Hev | Hin]; [discriminate | exact (IH _ _ _ Hin)]).
Qed.

Lemma resolve_chunks_missing before key after chunks :
  (forall k, k ∈ before -> is_Some (chunks !! k)) ->
  chunks !! key = None ->
  forall item_chunks w,
    resolve_chunks (before ++ key :: after) chunks item_chunks w
    = MkRun (Return (Internal ("Could not find sequence chunk "
                               +:+ pretty key +:+ "."))) w [].
Proof.
  intros Hbefore Hkey.
  induction before as [|k before IH]; intros item_chunks w;
    cbn [app resolve_chunks]; unfold push_or.
  - now rewrite Hkey.
  - destruct (Hbefore k ltac:(left)) as [chunk ->]. cbn.
    apply IH. intros k' Hk'. apply Hbefore. now right.
Qed.

Lemma request_loop_app earlier :
  forall rest chunks w,
    request_loop GetChunkKeys tables_ (earlier ++ rest) chunks w
    = bind (handle_requests GetChunkKeys tables_ earlier chunks)
           (fun chunks' => request_loop GetChunkKeys tables_ rest chunks') w.
Proof.
  induction earlier as [|request earlier IH]; intros rest chunks w;
    cbn [app request_loop handle_requests].
  - now rewrite bind_ret_l.
  - rewrite bind_assoc. apply bind_ext. intros chunks' w'. apply IH.
Qed.

(** C4.  When the chunks of a request are stored and its item then
    names a chunk key that is not pending (the keys before it being
    pending), the stream ends with [INTERNAL] and the message naming
    that key; up to there the handler has called the chunk store only,
    so the item has reached no table. *)
Theorem missing_chunk_is_internal (request : InsertStreamRequest)
    (request_item : InsertItem.t) (incoming : list InsertStreamRequest)
    (chunks chunks1 : gmap Key Chunk) (w w1 : World) (t1 : list Event)
    (before after : list Key) (key : Key) :
  insert_chunks (Insert.chunks request) chunks w = MkRun (Next chunks1) w1 t1 ->
  item request = Some request_item ->
  GetChunkKeys (PrioritizedItem.flat_trajectory (InsertItem.item request_item))
  = before ++ key :: after ->
  (forall k, k ∈ before -> is_Some (chunks1 !! k)) ->
  chunks1 !! key = None ->
  request_loop GetChunkKeys tables_ (request :: incoming) chunks w
  = MkRun (Return {| code := INTERNAL;
                     message := "Could not find sequence chunk "
                                +:+ pretty key +:+ "." |}) w1 t1
  /\ Forall is_chunk_store_call t1.
Proof.
  intros Hchunks Hitem Hkeys Hbefore Hkey. split.
  - cbn [request_loop]. unfold handle_request.
    rewrite bind_assoc, (bind_run _ _ _ _ _ _ Hchunks), Hitem.
    erewrite (bind_stops _ _ w1 _ w1 []).
    + cbn. now rewrite app_nil_r.
    + unfold insert_item. rewrite Hkeys. apply bind_stops.
      now apply resolve_chunks_missing.
  - replace t1 with (trace (insert_chunks (Insert.chunks request) chunks w))
      by now rewrite Hchunks.
    apply insert_chunks_calls.
Qed.

(** C5.  When the chunk store refuses a chunk of a request, the stream
    ends with [CANCELLED] and "Service has been closed".  The calls of
    the stream are then those of the earlier requests followed by calls
    of the chunk store: every insertion the earlier requests made into a
    table stands, and the handler makes no call that would take one
    back. *)
Theorem closed_store_cancels_stream
    (earlier later : list InsertStreamRequest) (request : InsertStreamRequest)
    (w w1 : World) (chunks1 : gmap Key Chunk) (t1 : list Event)
    (chunk : ChunkData) :
  handle_requests GetChunkKeys tables_ earlier ∅ w
  = MkRun (Next chunks1) w1 t1 ->
  In (ChunkStore_Insert chunk None)
     (trace (insert_chunks (Insert.chunks request) chunks1 w1)) ->
  let r :=
    InsertStreamInternal GetChunkKeys tables_ (earlier ++ request :: later) w in
  outcome r
  = Return {| code := CANCELLED; message := "Service has been closed" |}
  /\ trace r
     = t1 ++ trace (insert_chunks (Insert.chunks request) chunks1 w1)
  /\ Forall is_chunk_store_call
            (trace (insert_chunks (Insert.chunks request) chunks1 w1)).
Proof.
  intros Hearlier Hclosed r. subst r.
  unfold InsertStreamInternal.
  rewrite request_loop_app, (bind_run _ _ _ _ _ _ Hearlier).
  cbn [request_loop outcome trace]. unfold handle_request.
  rewrite bind_assoc.
  destruct (bind_returns _
              (fun a =>
                 chunks <- match item request with
                           | Some request_item =>
                               insert_item GetChunkKeys tables_ request_item a
                           | None => ret a
                           end ;;
                 request_loop GetChunkKeys tables_ later chunks)
              w1 _ (insert_chunks_closed _ _ _ _ Hclosed))
    as (Hout & Htrace & _).
  rewrite Hout, Htrace.
  repeat split. apply insert_chunks_calls.
Qed.

Lemma inserted_app t1 t2 : inserted (t1 ++ t2) = inserted t1 ++ inserted t2.
Proof. unfold inserted. apply flat_map_app. Qed.

Lemma resolve_chunks_ensures chunk_keys chunks :
  forall item_chunks w,
    ensures (resolve_chunks chunk_keys chunks item_chunks) w
            (fun _ t => t = []) not_ok.
Proof.
  induction chunk_keys as [|key chunk_keys IH]; intros item_chunks w;
    cbn [resolve_chunks]; [now apply ensures_ret|].
  unfold push_or. destruct (chunks !! key); cbn [negb ok code Status_OK].
  - apply IH.
  - now apply ensures_stop.
Qed.

Lemma insert_chunks_ensures request_chunks :
  forall chunks w,
    ensures (insert_chunks request_chunks chunks) w
            (fun _ t => inserted t = []) not_ok.
Proof.
  induction request_chunks as [|chunk request_chunks IH]; intros chunks w;
    cbn [insert_chunks]; [now apply ensures_ret|].
  apply (ensures_bind _ _ _ (fun _ t => inserted t = [])).
  - unfold ensures, chunk_store_Insert.
    now destruct (next_answer Stored (inserts w)).
  - intros [chunk_sp|] t1 w1 Ht1.
    + specialize (IH (<[chunk_key chunk:=chunk_sp]> chunks) w1).
      unfold ensures in *. destruct (outcome _); try easy.
      now rewrite inserted_app, Ht1, IH.
    + now apply ensures_stop.
Qed.

Hypothesis tables_by_name :
  forall n table, tables_ !! n = Some table -> name table = n.

Lemma keep_specified_ensures keep_chunk_keys chunks w :
  ensures (keep_specified keep_chunk_keys chunks) w (fun _ t => t = []) not_ok.
Proof.
  unfold keep_specified. case_decide; [now apply ensures_ret|].
  apply ensures_fatal.
Qed.

(** The item of a request, once its chunks are stored: the handler
    either returns a status that is not OK, or has inserted the item,
    once, into the table it names. *)
Lemma insert_item_ensures request_item chunks w :
  ensures (insert_item GetChunkKeys tables_ request_item chunks) w
          (fun _ t =>
             inserted t
             = [(PrioritizedItem.table (InsertItem.item request_item),
                 InsertItem.item request_item)])
          not_ok.
Proof.
  unfold insert_item.
  eapply ensures_bind; [apply resolve_chunks_ensures|].
  intros item_chunks t1 w1 ->. cbn [app].
  unfold TableByName.
  destruct (tables_ !! _) as [table|] eqn:Htable;
    [|now apply ensures_stop].
  apply (ensures_bind _ _ _
           (fun status t =>
              t = [InsertOrAssign
                     (PrioritizedItem.table (InsertItem.item request_item))
                     {| TableItem.item := InsertItem.item request_item;
                        TableItem.chunks := item_chunks |} status])).
  { unfold ensures, table_InsertOrAssign.
    rewrite (tables_by_name _ _ Htable).
    now destruct (next_answer Status_OK (assigns w1)). }
  intros status t2 w2 ->.
  destruct (ok status) eqn:Hok; cbn [negb]; [|now apply ensures_stop].
  apply (ensures_bind _ _ _ (fun _ t => inserted t = [])).
  { destruct (InsertItem.send_confirmation request_item);
      [|now apply ensures_ret].
    apply (ensures_bind _ _ _ (fun _ t => inserted t = [])).
    - unfold ensures, stream_Write.
      now destruct (next_answer true (writes w2)).
    - intros [] t3 w3 Ht3; cbn [negb].
      + apply ensures_ret. now rewrite app_nil_r.
      + now apply ensures_stop. }
  intros _ t3 w3 Ht3.
  pose proof (keep_specified_ensures
                (InsertItem.keep_chunk_keys request_item) chunks w3) as Hkeep.
  unfold ensures in *. destruct (outcome _); try easy.
  rewrite Hkeep, app_nil_r, inserted_app, Ht3, app_nil_r.
  unfold inserted; cbn. now rewrite Hok.
Qed.

Lemma handle_request_ensures request chunks w :
  ensures (handle_request GetChunkKeys tables_ request chunks) w
          (fun _ t => inserted t = requested [request]) not_ok.
Proof.
  unfold handle_request.
  eapply ensures_bind; [apply insert_chunks_ensures|].
  intros chunks1 t1 w1 Ht1. unfold requested. cbn [flat_map].
  rewrite app_nil_r.
  destruct (item request) as [request_item|].
  - pose proof (insert_item_ensures request_item chunks1 w1) as Hitem.
    unfold ensures in *. destruct (outcome _); try easy.
    now rewrite inserted_app, Ht1, Hitem.
  - apply ensures_ret. now rewrite app_nil_r.
Qed.

(** X5.  When a stream ends with OK, every item its requests carried
    has been inserted exactly once, into the table it names, and the
    insertions were made in the order the requests arrived. *)
Theorem items_inserted_once_in_order (requests : list InsertStreamRequest)
    (w : World) :
  outcome (InsertStreamInternal GetChunkKeys tables_ requests w)
  = Return Status_OK ->
  inserted (trace (InsertStreamInternal GetChunkKeys tables_ requests w))
  = requested requests.
Proof.
  unfold InsertStreamInternal. generalize (∅ : gmap Key Chunk). revert w.
  induction requests as [|request requests IH]; intros w chunks;
    cbn [request_loop]; [reflexivity|].
  pose proof (handle_request_ensures request chunks w) as Hrequest.
  unfold ensures in Hrequest. unfold bind.
  destruct (outcome (handle_request _ _ request chunks w)) as [chunks1|s| |];
    cbn [outcome trace]; try discriminate.
  - intros Hrest. rewrite inserted_app, Hrequest, (IH _ _ Hrest).
    unfold requested. cbn [flat_map]. now rewrite app_nil_r.
  - intros [= ->]. discriminate.
Qed.

End Requests.

(** X5 at the stream of scenario S1: one chunk and one item over it. *)
Lemma items_inserted_once_in_order_witness :
  outcome (InsertStreamInternal Examples.slice_keys Examples.tables
             [Examples.first_request] Examples.willing)
  = Return Status_OK
  /\ inserted (trace (InsertStreamInternal Examples.slice_keys Examples.tables
                        [Examples.first_request] Examples.willing))
     = [("t", Examples.proto 100%N [7%N])].
Proof.
  assert (Hnames : forall n table,
             Examples.tables !! n = Some table -> name table = n).
  { intros n table Hn. unfold Examples.tables in Hn.
    apply lookup_singleton_Some in Hn as [<- <-]. reflexivity. }
  assert (Hok :
    outcome (InsertStreamInternal Examples.slice_keys Examples.tables
               [Examples.first_request] Examples.willing)
    = Return Status_OK) by (vm_compute; reflexivity).
  split; [exact Hok|].
  exact (items_inserted_once_in_order Examples.slice_keys Examples.tables
           Hnames [Examples.first_request] Examples.willing Hok).
Defined.

(** Scenario S4: chunks 1, 2 and 3 come with an item over chunk 1 that
    keeps chunk 1 only; an item over chunk 2 that comes next finds its
    chunk evicted. *)
Example evicted_chunk_not_found :
  InsertStreamInternal Examples.slice_keys Examples.tables
    [Examples.insert_request
       [Examples.chunk 1%N 1; Examples.chunk 2%N 1; Examples.chunk 3%N 1]
       (Some (Examples.insert_item 100%N [1%N] false [1%N]));
     Examples.insert_request
       [] (Some (Examples.insert_item 101%N [2%N] false []))]
    Examples.willing
  = MkRun (Return {| code := INTERNAL;
                     message := "Could not find sequence chunk 2." |})
          Examples.willing
          [ChunkStore_Insert (Examples.chunk 1%N 1)
                             (Some (Examples.chunk 1%N 1));
           ChunkStore_Insert (Examples.chunk 2%N 1)
                             (Some (Examples.chunk 2%N 1));
           ChunkStore_Insert (Examples.chunk 3%N 1)
                             (Some (Examples.chunk 3%N 1));
           InsertOrAssign "t"
             {| TableItem.item := Examples.proto 100%N [1%N];
                TableItem.chunks := [Examples.chunk 1%N 1] |}
             Status_OK].
Proof. vm_compute. reflexivity. Qed.

(** The erase loop at three pending chunks of which one is kept (and
    named twice). *)
Lemma retention_keeps_exactly_witness :
  let chunks : gmap Key Chunk :=
    {[ 1%N := Examples.chunk 1%N 1; 2%N := Examples.chunk 2%N 1;
       3%N := Examples.chunk 3%N 1 ]} in
  let kept := erase_unkept (list_to_set [1%N; 1%N]) chunks in
  (forall k : Key, k ∈ [1%N; 1%N] -> is_Some (chunks !! k))
  /\ (forall k : Key, k ∉ (list_to_set [1%N; 1%N] : gset Key) ->
      kept !! k = None)
  /\ (forall k : Key, k ∈ (list_to_set [1%N; 1%N] : gset Key) ->
      kept !! k = chunks !! k)
  /\ dom kept = list_to_set [1%N; 1%N]
  /\ size kept = size (list_to_set [1%N; 1%N] : gset Key)
  /\ keep_specified [1%N; 1%N] chunks Examples.willing
     = MkRun (Next kept) Examples.willing [].
Proof.
  intros chunks kept.
  assert (Hpending : forall k : Key, k ∈ [1%N; 1%N] -> is_Some (chunks !! k)).
  { intros k Hk. apply list_elem_of_In in Hk.
    destruct Hk as [<- | [<- | []]]; vm_compute; eauto. }
  split; [exact Hpending|].
  destruct (retention_keeps_exactly [1%N; 1%N] chunks Examples.willing)
    as (Herased & Hkept & Hcheck).
  split; [exact Herased|]. split; [exact Hkept|].
  exact (Hcheck Hpending).
Defined.

(** X6 at a pending chunk 1 and kept keys 1 and 5. *)
Lemma retention_of_missing_chunk_aborts_witness :
  (5%N : Key) ∈ [1%N; 5%N]
  /\ ({[ 1%N := Examples.chunk 1%N 1 ]} : gmap Key Chunk) !! 5%N = None
  /\ (size (erase_unkept (list_to_set [1%N; 5%N])
                         ({[ 1%N := Examples.chunk 1%N 1 ]} : gmap Key Chunk))
      < size (list_to_set [1%N; 5%N] : gset Key))%nat
  /\ keep_specified [1%N; 5%N] {[ 1%N := Examples.chunk 1%N 1 ]}
                    Examples.willing
     = MkRun Fatal Examples.willing [].
Proof.
  assert (Hkey : (5%N : Key) ∈ [1%N; 5%N])
    by (apply list_elem_of_In; right; left; reflexivity).
  assert (Hmissing :
    ({[ 1%N := Examples.chunk 1%N 1 ]} : gmap Key Chunk) !! 5%N = None)
    by (vm_compute; reflexivity).
  split; [exact Hkey|]. split; [exact Hmissing|].
  exact (retention_of_missing_chunk_aborts [1%N; 5%N]
           {[ 1%N := Examples.chunk 1%N 1 ]} Examples.willing 5%N
           Hkey Hmissing).
Defined.

(** C4 at a request whose item names chunk 2, which never came. *)
Lemma missing_chunk_is_internal_witness :
  request_loop Examples.slice_keys Examples.tables
    [Examples.dangling_request] ∅ Examples.willing
  = MkRun (Return {| code := INTERNAL;
                     message := "Could not find sequence chunk 2." |})
          Examples.willing
          [ChunkStore_Insert (Examples.chunk 1%N 1)
                             (Some (Examples.chunk 1%N 1))]
  /\ Forall is_chunk_store_call
            [ChunkStore_Insert (Examples.chunk 1%N 1)
                               (Some (Examples.chunk 1%N 1))].
Proof.
  apply (missing_chunk_is_internal Examples.slice_keys Examples.tables
           Examples.dangling_request
           (Examples.insert_item 101%N [1%N; 2%N] false [1%N]) []
           ∅ {[ 1%N := Examples.chunk 1%N 1 ]}
           Examples.willing Examples.willing _ [1%N] [] 2%N).
  - vm_compute; reflexivity.
  - reflexivity.
  - reflexivity.
  - intros k Hk. apply list_elem_of_In in Hk.
    destruct Hk as [<- | []]; vm_compute; eauto.
  - vm_compute; reflexivity.
Defined.

(** C5 at a stream whose first request inserts item 100 and whose second
    request brings a chunk the store refuses. *)
Lemma closed_store_cancels_stream_witness :
  let r :=
    InsertStreamInternal Examples.slice_keys Examples.tables
      ([Examples.first_request] ++ Examples.second_request :: [])
      Examples.closing in
  outcome r
  = Return {| code := CANCELLED; message := "Service has been closed" |}
  /\ trace r
     = [ChunkStore_Insert (Examples.chunk 7%N 1) (Some (Examples.chunk 7%N 1));
        InsertOrAssign "t" Examples.item_100 Status_OK;
        Write {| keys := [100%N] |} true]
       ++ trace (insert_chunks (Insert.chunks Examples.second_request)
                               {[ 7%N := Examples.chunk 7%N 1 ]}
                               Examples.closed)
  /\ Forall is_chunk_store_call
            (trace (insert_chunks (Insert.chunks Examples.second_request)
                                  {[ 7%N := Examples.chunk 7%N 1 ]}
                                  Examples.closed)).
Proof.
  apply (closed_store_cancels_stream Examples.slice_keys Examples.tables
           [Examples.first_request] [] Examples.second_request
           Examples.closing Examples.closed
           {[ 7%N := Examples.chunk 7%N 1 ]} _ (Examples.chunk 8%N 1)).
  - vm_compute; reflexivity.
  - vm_compute. now left.
Defined.

End InsertFacts.

(** ** InitializeConnection *)

Module HandshakeFacts.
Import Handshake.

Section Declined.
Variable IsLocalhostOrInProcess : string -> bool.
Variable getpid : Z.
Variable tables_ : gmap string Table.

(** C9.  A peer that is neither local nor in-process gets [OK] and no
    response.  A local peer whose request carries another pid gets one
    response, with address 0, and [OK] whether or not the write went
    through; the handler has allocated nothing ([New] is not called and
    the heap is as it was). *)
Theorem handshake_declined (peer : string)
    (request : InitializeConnectionRequest)
    (incoming : list InitializeConnectionRequest) (w : World) :
  (IsLocalhostOrInProcess peer = false ->
   forall incoming',
     InitializeConnection IsLocalhostOrInProcess getpid tables_ peer
                          incoming' w
     = MkRun (Return Status_OK) w [])
  /\ (IsLocalhostOrInProcess peer = true ->
      pid request <> getpid ->
      InitializeConnection IsLocalhostOrInProcess getpid tables_ peer
                           (request :: incoming) w
      = MkRun (Return Status_OK)
              {| writes := snd (next_answer true (writes w));
                 heap := heap w |}
              [Write {| address := 0 |}
                     (fst (next_answer true (writes w)))]).
Proof.
  unfold InitializeConnection. split.
  - intros Hpeer incoming'. now rewrite Hpeer.
  - intros Hpeer Hpid. rewrite Hpeer. cbn [negb].
    rewrite (proj2 (Z.eqb_neq _ _) Hpid). cbn [negb].
    unfold bind, stream_Write.
    now destruct (next_answer true (writes w)).
Qed.

(** X4.  A holder the handler has allocated is deleted before the
    handler returns, whatever the client does after the address has been
    sent: the trace starts with the allocation, ends with the deletion
    of the same address, and has the one write of that address between
    them. *)
Theorem holder_deleted_on_every_path (peer : string)
    (incoming : list InitializeConnectionRequest) (w : World)
    (table : Table) (ptr : Z) :
  In (New table ptr)
     (trace (InitializeConnection IsLocalhostOrInProcess getpid tables_ peer
                                  incoming w)) ->
  exists written,
    trace (InitializeConnection IsLocalhostOrInProcess getpid tables_ peer
                                incoming w)
    = [New table ptr; Write {| address := ptr |} written; Delete ptr].
Proof.
  unfold InitializeConnection.
  destruct (negb (IsLocalhostOrInProcess peer)); [intros []|].
  destruct incoming as [|request incoming]; [intros []|].
  destruct (negb (pid request =? getpid)).
  { unfold bind, stream_Write. destruct (next_answer true (writes w)).
    cbn. intros [Hev | []]. discriminate. }
  destruct (tables_ !! table_name request) as [table'|]; [|intros []].
  destruct w as [ws [|ptr' hp]]; [intros []|].
  unfold bind, new_holder, with_cleanup, stream_Write; cbn.
  destruct ws as [|[] ws]; cbn;
    [ destruct incoming as [|confirmation incoming]; cbn;
      [|destruct (negb (ownership_transferred confirmation)); cbn]
    | destruct incoming as [|confirmation incoming]; cbn;
      [|destruct (negb (ownership_transferred confirmation)); cbn]
    | ];
    (intros [[= <- <-] | [Hev | [Hev | []]]]; try discriminate; eauto).
Qed.

End Declined.

(** X4 at a handshake that goes through. *)
Lemma holder_deleted_on_every_path_witness :
  In (New {| name := "t"; DefaultFlexibleBatchSize := 64 |} 4096)
     (trace (InitializeConnection Examples.is_loopback Examples.server_pid
               Examples.tables "ipv4:127.0.0.1:5000"
               [Examples.handshake_request Examples.server_pid;
                Examples.confirmation]
               Examples.fresh_heap))
  /\ exists written,
       trace (InitializeConnection Examples.is_loopback Examples.server_pid
                Examples.tables "ipv4:127.0.0.1:5000"
                [Examples.handshake_request Examples.server_pid;
                 Examples.confirmation]
                Examples.fresh_heap)
       = [New {| name := "t"; DefaultFlexibleBatchSize := 64 |} 4096;
          Write {| address := 4096 |} written;
          Delete 4096].
Proof.
  assert (Hnew :
    In (New {| name := "t"; DefaultFlexibleBatchSize := 64 |} 4096)
       (trace (InitializeConnection Examples.is_loopback Examples.server_pid
                 Examples.tables "ipv4:127.0.0.1:5000"
                 [Examples.handshake_request Examples.server_pid;
                  Examples.confirmation]
                 Examples.fresh_heap)))
    by (vm_compute; now left).
  split; [exact Hnew|].
  exact (holder_deleted_on_every_path Examples.is_loopback
           Examples.server_pid Examples.tables "ipv4:127.0.0.1:5000"
           [Examples.handshake_request Examples.server_pid;
            Examples.confirmation]
           Examples.fresh_heap _ _ Hnew).
Defined.

(** C9 at a remote peer, and at a local peer with a foreign pid. *)
Lemma handshake_declined_witness :
  InitializeConnection Examples.is_loopback Examples.server_pid
    Examples.tables "ipv4:10.0.0.7:5000"
    [Examples.handshake_request Examples.server_pid] Examples.fresh_heap
  = MkRun (Return Status_OK) Examples.fresh_heap []
  /\ InitializeConnection Examples.is_loopback Examples.server_pid
       Examples.tables "ipv4:127.0.0.1:5000"
       [Examples.handshake_request 7] Examples.fresh_heap
     = MkRun (Return Status_OK) Examples.fresh_heap
             [Write {| address := 0 |} true].
Proof.
  split.
  - apply (proj1 (handshake_declined Examples.is_loopback Examples.server_pid
                    Examples.tables "ipv4:10.0.0.7:5000"
                    (Examples.handshake_request 7) [] Examples.fresh_heap)).
    reflexivity.
  - apply (proj2 (handshake_declined Examples.is_loopback Examples.server_pid
                    Examples.tables "ipv4:127.0.0.1:5000"
                    (Examples.handshake_request 7) [] Examples.fresh_heap)).
    + reflexivity.
    + vm_compute; discriminate.
Defined.

End HandshakeFacts.

(** ** InsertStream: failures, confirmations and the pending chunks *)

Module InsertMore.
Import Insert.

Lemma chunk_store_Insert_run chunk w :
  exists chunk_sp w1,
    chunk_store_Insert chunk w
    = MkRun (Next chunk_sp) w1 [ChunkStore_Insert chunk chunk_sp].
Proof.
  unfold chunk_store_Insert.
  destruct (next_answer Stored (inserts w)) as [a rest]. eauto.
Qed.

Lemma table_InsertOrAssign_run table item w :
  exists status w1,
    table_InsertOrAssign table item w
    = MkRun (Next status) w1 [InsertOrAssign (name table) item status].
Proof.
  unfold table_InsertOrAssign.
  destruct (next_answer Status_OK (assigns w)) as [a rest]. eauto.
Qed.

Lemma stream_Write_run response w :
  exists written w1,
    stream_Write response w = MkRun (Next written) w1 [Write response written].
Proof.
  unfold stream_Write.
  destruct (next_answer true (writes w)) as [a rest]. eauto.
Qed.

Section Requests.
Variable GetChunkKeys : FlatTrajectory -> list Key.
Variable tables_ : gmap string Table.

Lemma insert_chunks_fails_last request_chunks :
  forall chunks w,
    fails_last went_well went_wrong plain_status
               (insert_chunks request_chunks chunks) w.
Proof.
  induction request_chunks as [|chunk request_chunks IH]; intros chunks w;
    cbn [insert_chunks]; [apply fails_last_ret|].
  destruct (chunk_store_Insert_run chunk w) as (chunk_sp & w1 & Hrun).
  eapply fails_last_call; [exact Hrun|].
  destruct chunk_sp as [chunk_sp|].
  - left. split; [cbn; eauto | apply IH].
  - right. eexists. split; [split; reflexivity | reflexivity].
Qed.

Lemma resolve_chunks_fails_last chunk_keys chunks :
  forall item_chunks w,
    fails_last went_well went_wrong plain_status
               (resolve_chunks chunk_keys chunks item_chunks) w.
Proof.
  induction chunk_keys as [|key chunk_keys IH]; intros item_chunks w;
    cbn [resolve_chunks]; [apply fails_last_ret|].
  unfold push_or. destruct (chunks !! key); cbn [negb ok code Status_OK].
  - apply IH.
  - apply fails_last_stop. right; left. eauto.
Qed.

Lemma keep_specified_fails_last keep_chunk_keys chunks w :
  fails_last went_well went_wrong plain_status
             (keep_specified keep_chunk_keys chunks) w.
Proof.
  unfold keep_specified.
  case_decide; [apply fails_last_ret | apply fails_last_fatal].
Qed.

Lemma insert_item_fails_last request_item chunks w :
  fails_last went_well went_wrong plain_status
             (insert_item GetChunkKeys tables_ request_item chunks) w.
Proof.
  unfold insert_item.
  apply fails_last_bind; [apply resolve_chunks_fails_last|].
  intros item_chunks w1.
  destruct (TableByName _ _) as [table|];
    [|apply fails_last_stop; right; right; eauto].
  match goal with |- context [table_InsertOrAssign table ?it] =>
    destruct (table_InsertOrAssign_run table it w1) as (status & w2 & Hrun)
  end.
  eapply fails_last_call; [exact Hrun|].
  destruct (ok status) eqn:Hok; cbn [negb].
  - left. split; [exact Hok|].
    apply fails_last_bind; [|intros; apply keep_specified_fails_last].
    destruct (InsertItem.send_confirmation request_item);
      [|apply fails_last_ret].
    match goal with |- context [stream_Write ?r] =>
      destruct (stream_Write_run r w2) as (written & w3 & Hwrite)
    end.
    eapply fails_last_call; [exact Hwrite|].
    destruct written; cbn [negb].
    + left. split; [reflexivity | apply fails_last_ret].
    + right. eexists. split; [|reflexivity].
      split; [reflexivity|]. eexists. split; reflexivity.
  - right. eexists. split; [|reflexivity]. now split.
Qed.

Lemma handle_request_fails_last request chunks w :
  fails_last went_well went_wrong plain_status
             (handle_request GetChunkKeys tables_ request chunks) w.
Proof.
  unfold handle_request.
  apply fails_last_bind; [apply insert_chunks_fails_last|].
  intros chunks1 w1. destruct (item request);
    [apply insert_item_fails_last | apply fails_last_ret].
Qed.

Lemma request_loop_fails_last incoming :
  forall chunks w,
    fails_last went_well went_wrong plain_status
               (request_loop GetChunkKeys tables_ incoming chunks) w.
Proof.
  induction incoming as [|request incoming IH]; intros chunks w;
    cbn [request_loop].
  - apply fails_last_stop. now left.
  - apply fails_last_bind; [apply handle_request_fails_last|].
    intros chunks1 w1. apply IH.
Qed.

Lemma request_loop_ends incoming :
  forall chunks w a,
    outcome (request_loop GetChunkKeys tables_ incoming chunks w) <> Next a
    /\ outcome (request_loop GetChunkKeys tables_ incoming chunks w)
       <> Pending.
Proof.
  assert (Hhandle : forall request chunks w,
    outcome (handle_request GetChunkKeys tables_ request chunks w)
    <> Pending).
  { intros request chunks w. unfold handle_request, bind.
    assert (Hchunks : forall cs chunks w,
              outcome (insert_chunks cs chunks w) <> Pending).
    { induction cs as [|c cs IHcs]; intros chunks0 w0; cbn [insert_chunks];
        [discriminate|].
      unfold bind.
      destruct (chunk_store_Insert_run c w0) as ([sp|] & w1 & ->);
        cbn [outcome world]; [apply IHcs | discriminate]. }
    pose proof (Hchunks (Insert.chunks request) chunks w) as Hc.
    destruct (outcome (insert_chunks _ chunks w)) as [chunks1| | |];
      cbn [outcome]; try easy.
    destruct (item request) as [request_item|]; [|discriminate].
    unfold insert_item, bind.
    assert (Hresolve : forall chunk_keys acc w0,
              outcome (resolve_chunks chunk_keys chunks1 acc w0) <> Pending).
    { induction chunk_keys as [|k chunk_keys IHk]; intros acc w0;
        cbn [resolve_chunks];
        [discriminate|].
      unfold push_or. destruct (chunks1 !! k); cbn; [apply IHk | discriminate]. }
    match goal with |- context [resolve_chunks ?ks chunks1 [] ?w0] =>
      pose proof (Hresolve ks [] w0) as Hr;
      destruct (outcome (resolve_chunks ks chunks1 [] w0)) as [cs| | |]
    end; cbn [outcome]; try easy.
    destruct (TableByName _ _) as [table|]; [|discriminate].
    match goal with |- context [table_InsertOrAssign table ?it ?w0] =>
      destruct (table_InsertOrAssign_run table it w0) as (status & w2 & ->)
    end.
    cbn [outcome world].
    destruct (negb (ok status)); [discriminate|].
    destruct (InsertItem.send_confirmation request_item).
    - match goal with |- context [stream_Write ?r ?w0] =>
        destruct (stream_Write_run r w0) as ([] & w3 & ->)
      end; cbn [outcome world negb]; [|discriminate].
      unfold keep_specified. case_decide; discriminate.
    - cbn [outcome world]. unfold keep_specified. case_decide; discriminate. }
  induction incoming as [|request incoming IH]; intros chunks w a;
    cbn [request_loop]; [split; discriminate|].
  unfold bind. pose proof (Hhandle request chunks w) as Hh.
  destruct (outcome (handle_request _ _ request chunks w)) as [chunks1| | |];
    cbn [outcome]; try (split; easy).
  apply IH.
Qed.

(** X8.  An InsertStream stops at its first failure.  It ends by
    returning a status, or by the abort of the retention check.  When it
    returns, either every call went well and the status is OK (the
    stream was read to its end), a chunk key that is not pending, or a
    table that is not there; or its last call went wrong, every call
    before it went well, and the status is CANCELLED for a chunk the
    store refused, the table's own status for a refused insertion, and
    INTERNAL naming the item for a confirmation that was not written. *)
Theorem insert_stream_stops_at_first_failure
    (incoming : list InsertStreamRequest) (w : World) :
  let r := InsertStreamInternal GetChunkKeys tables_ incoming w in
  (outcome r = Fatal /\ Forall went_well (trace r))
  \/ exists s,
       outcome r = Return s
       /\ ((Forall went_well (trace r) /\ plain_status s)
           \/ exists pre ev,
                trace r = pre ++ [ev] /\ Forall went_well pre
                /\ went_wrong ev s).
Proof.
  intros r. subst r. unfold InsertStreamInternal.
  pose proof (request_loop_fails_last incoming ∅ w) as Hrun.
  pose proof (request_loop_ends incoming ∅ w) as Hends.
  unfold fails_last in Hrun.
  destruct (outcome (request_loop _ _ incoming ∅ w)) as [a|s| |].
  - now destruct (proj1 (Hends a)).
  - right. exists s. split; [reflexivity | exact Hrun].
  - left. now split.
  - now destruct (proj2 (Hends tt)).
Qed.

Lemma last_stored_snoc key t ev :
  last_stored key (t ++ [ev])
  = match ev with
    | ChunkStore_Insert chunk chunk_sp =>
        if decide (chunk_key chunk = key) then chunk_sp
        else last_stored key t
    | _ => last_stored key t
    end.
Proof. unfold last_stored. rewrite foldl_app. reflexivity. Qed.

Lemma items_hold_stored_snoc t ev :
  items_hold_stored GetChunkKeys t ->
  match ev with
  | InsertOrAssign _ item _ =>
      chunks_stored
        (GetChunkKeys (PrioritizedItem.flat_trajectory (TableItem.item item)))
        (TableItem.chunks item) t
  | _ => True
  end ->
  items_hold_stored GetChunkKeys (t ++ [ev]).
Proof.
  intros Ht Hev pre table item status post Heq.
  destruct post as [|ev' post _] using rev_ind.
  - apply app_inj_tail in Heq as [<- ->]. exact Hev.
  - rewrite app_comm_cons, app_assoc in Heq.
    apply app_inj_tail in Heq as [Heq _]. exact (Ht _ _ _ _ _ Heq).
Qed.

Lemma insert_chunks_keeps request_chunks :
  forall chunks w pre,
    items_hold_stored GetChunkKeys pre ->
    pending_stored chunks pre ->
    keeps (items_hold_stored GetChunkKeys) pending_stored
          (insert_chunks request_chunks chunks) w pre.
Proof.
  induction request_chunks as [|chunk request_chunks IH];
    intros chunks w pre Hpre Hchunks; cbn [insert_chunks];
    [now apply keeps_ret|].
  destruct (chunk_store_Insert_run chunk w) as (chunk_sp & w1 & Hrun).
  eapply keeps_call; [exact Hrun|].
  assert (Hpre1 : items_hold_stored GetChunkKeys
                    (pre ++ [ChunkStore_Insert chunk chunk_sp]))
    by now apply items_hold_stored_snoc.
  destruct chunk_sp as [chunk_sp|]; [|now apply keeps_stop].
  apply IH; [exact Hpre1|].
  intros key c. rewrite last_stored_snoc.
  destruct (decide (chunk_key chunk = key)) as [<- | Hne].
  - now rewrite lookup_insert_eq.
  - rewrite lookup_insert_ne by exact Hne. apply Hchunks.
Qed.

Lemma resolve_chunks_found chunk_keys chunks :
  forall item_chunks w,
    trace (resolve_chunks chunk_keys chunks item_chunks w) = []
    /\ forall found,
         outcome (resolve_chunks chunk_keys chunks item_chunks w) = Next found ->
         exists rest,
           found = item_chunks ++ rest
           /\ Forall2 (fun key chunk => chunks !! key = Some chunk)
                      chunk_keys rest.
Proof.
  induction chunk_keys as [|key chunk_keys IH]; intros item_chunks w;
    cbn [resolve_chunks].
  - split; [reflexivity|]. intros found [= <-]. exists [].
    now rewrite app_nil_r.
  - unfold push_or. destruct (chunks !! key) as [chunk|] eqn:Hkey;
      cbn [negb ok code Status_OK]; [|split; [reflexivity | discriminate]].
    destruct (IH (item_chunks ++ [chunk]) w) as [Htrace Hfound].
    split; [exact Htrace|]. intros found Hout.
    destruct (Hfound found Hout) as (rest & -> & Hrest).
    exists (chunk :: rest). rewrite <- app_assoc. split; [reflexivity|].
    now constructor.
Qed.

Lemma insert_item_keeps request_item chunks w pre :
  items_hold_stored GetChunkKeys pre ->
  pending_stored chunks pre ->
  keeps (items_hold_stored GetChunkKeys) pending_stored
        (insert_item GetChunkKeys tables_ request_item chunks) w pre.
Proof.
  intros Hpre Hchunks. unfold insert_item.
  set (chunk_keys :=
         GetChunkKeys
           (PrioritizedItem.flat_trajectory (InsertItem.item request_item))).
  apply (keeps_bind _
           (fun item_chunks t =>
              t = pre /\ chunks_stored chunk_keys item_chunks pre)).
  { destruct (resolve_chunks_found chunk_keys chunks [] w) as [Htrace Hfound].
    unfold keeps. rewrite Htrace, app_nil_r. split; [exact Hpre|].
    destruct (outcome _) as [found| | |]; try easy.
    destruct (Hfound found eq_refl) as (rest & -> & Hrest).
    split; [reflexivity|]. cbn [app]. unfold chunks_stored.
    eapply Forall2_impl; [exact Hrest|]. intros key c. apply Hchunks. }
  intros item_chunks w1 t1 [Ht1 Hitem] _. rewrite Ht1.
  destruct (TableByName _ _) as [table|]; [|now apply keeps_stop].
  match goal with |- context [table_InsertOrAssign table ?it] =>
    destruct (table_InsertOrAssign_run table it w1) as (status & w2 & Hrun)
  end.
  eapply keeps_call; [exact Hrun|].
  match goal with |- keeps _ _ _ _ ?t =>
    assert (Hpre1 : items_hold_stored GetChunkKeys t)
      by (apply items_hold_stored_snoc; [exact Hpre | exact Hitem]);
    assert (Hchunks1 : pending_stored chunks t)
      by (intros key c Hc; rewrite last_stored_snoc; now apply Hchunks)
  end.
  destruct (negb (ok status)); [now apply keeps_stop|].
  apply (keeps_bind _ (fun _ t => pending_stored chunks t)).
  - destruct (InsertItem.send_confirmation request_item);
      [|now apply keeps_ret].
    match goal with |- context [stream_Write ?r] =>
      destruct (stream_Write_run r w2) as (written & w3 & Hwrite)
    end.
    eapply keeps_call; [exact Hwrite|].
    match goal with |- keeps _ _ _ _ ?t =>
      assert (Hpre2 : items_hold_stored GetChunkKeys t)
        by now apply items_hold_stored_snoc
    end.
    destruct (negb written); [now apply keeps_stop|].
    apply keeps_ret; [exact Hpre2|].
    intros key c Hc. rewrite last_stored_snoc. now apply Hchunks1.
  - intros _ w3 t3 Hchunks3 Hpre3. unfold keep_specified.
    case_decide; [|now apply keeps_fatal].
    apply keeps_ret; [exact Hpre3|].
    intros key c. rewrite InsertFacts.erase_unkept_lookup.
    case_decide; [apply Hchunks3 | discriminate].
Qed.

Lemma request_loop_keeps incoming :
  forall chunks w pre,
    items_hold_stored GetChunkKeys pre ->
    pending_stored chunks pre ->
    keeps (items_hold_stored GetChunkKeys) (fun _ _ => True)
          (request_loop GetChunkKeys tables_ incoming chunks) w pre.
Proof.
  induction incoming as [|request incoming IH]; intros chunks w pre Hpre Hchunks;
    cbn [request_loop]; [now apply keeps_stop|].
  apply (keeps_bind _ pending_stored).
  - unfold handle_request. apply (keeps_bind _ pending_stored).
    + now apply insert_chunks_keeps.
    + intros chunks1 w1 t1 Hchunks1 Hpre1.
      destruct (item request);
        [now apply insert_item_keeps | now apply keeps_ret].
  - intros chunks1 w1 t1 Hchunks1 Hpre1. now apply IH.
Qed.

(** X9.  The item an InsertStream hands to a table comes with the
    chunks of its trajectory as the store gave them: for each chunk key
    of the trajectory, in the order of the keys, the chunk the latest
    call of the store for that key returned earlier in the stream
    (the chunk sent, or the one the store already held). *)
Theorem item_holds_last_stored_chunks (incoming : list InsertStreamRequest)
    (w : World) (pre : list Event) (table : string) (item : TableItem.t)
    (status : Status) (post : list Event) :
  trace (InsertStreamInternal GetChunkKeys tables_ incoming w)
  = pre ++ InsertOrAssign table item status :: post ->
  chunks_stored
    (GetChunkKeys (PrioritizedItem.flat_trajectory (TableItem.item item)))
    (TableItem.chunks item) pre.
Proof.
  intros Htrace. unfold InsertStreamInternal in Htrace.
  assert (Hnone : items_hold_stored GetChunkKeys []).
  { intros p ? ? ? ? Heq. now destruct p. }
  assert (Hempty : pending_stored ∅ []).
  { intros key c Hc. now rewrite lookup_empty in Hc. }
  destruct (request_loop_keeps incoming ∅ w [] Hnone Hempty) as [Hall _].
  exact (Hall _ _ _ _ _ Htrace).
Qed.

Lemma responses_app t1 t2 :
  responses (t1 ++ t2) = responses t1 ++ responses t2.
Proof. unfold responses. apply flat_map_app. Qed.

Lemma insert_chunks_silent request_chunks :
  forall chunks w,
    responses (trace (insert_chunks request_chunks chunks w)) = [].
Proof.
  induction request_chunks as [|chunk request_chunks IH]; intros chunks w;
    cbn [insert_chunks]; [reflexivity|].
  unfold bind.
  destruct (chunk_store_Insert_run chunk w) as ([chunk_sp|] & w1 & ->);
    cbn [outcome world trace]; [|reflexivity].
  rewrite responses_app. apply IH.
Qed.

Lemma insert_item_confirms request_item chunks w :
  ensures (insert_item GetChunkKeys tables_ request_item chunks) w
          (fun _ t =>
             responses t
             = if InsertItem.send_confirmation request_item
               then [{| keys := [PrioritizedItem.key
                                   (InsertItem.item request_item)] |}]
               else [])
          not_ok.
Proof.
  unfold insert_item.
  eapply ensures_bind; [apply InsertFacts.resolve_chunks_ensures|].
  intros item_chunks t1 w1 ->. cbn [app].
  destruct (TableByName _ _) as [table|]; [|now apply ensures_stop].
  match goal with |- context [table_InsertOrAssign table ?it] =>
    destruct (table_InsertOrAssign_run table it w1) as (status & w2 & Hrun)
  end.
  apply (ensures_bind _ _ _ (fun _ t => responses t = [])).
  { unfold ensures. now rewrite Hrun. }
  intros status' t2 w2' Ht2.
  destruct (ok status') eqn:Hok; cbn [negb]; [|now apply ensures_stop].
  apply (ensures_bind _ _ _
           (fun _ t =>
              responses t
              = if InsertItem.send_confirmation request_item
                then [{| keys := [PrioritizedItem.key
                                    (InsertItem.item request_item)] |}]
                else [])).
  { destruct (InsertItem.send_confirmation request_item);
      [|now apply ensures_ret].
    match goal with |- context [stream_Write ?r] =>
      destruct (stream_Write_run r w2') as (written & w3 & Hwrite)
    end.
    apply (ensures_bind _ _ _
             (fun written t => responses t
                = [{| keys := [PrioritizedItem.key
                                 (InsertItem.item request_item)] |}])).
    - unfold ensures. now rewrite Hwrite.
    - intros [] t3 w3' Ht3; cbn [negb].
      + apply ensures_ret. now rewrite app_nil_r.
      + now apply ensures_stop. }
  intros _ t3 w3 Ht3.
  pose proof (InsertFacts.keep_specified_ensures
                (InsertItem.keep_chunk_keys request_item) chunks w3) as Hkeep.
  unfold ensures in *. destruct (outcome _); try easy.
  now rewrite Hkeep, app_nil_r, responses_app, Ht2.
Qed.

(** X10.  When a stream ends with OK, the responses written are the
    confirmations asked for: one response per item that has
    [send_confirmation] set, holding the key of that item alone, in
    the order the requests arrived; an item without the flag gets no
    response. *)
Theorem confirmations_follow_requests (requests : list InsertStreamRequest)
    (w : World) :
  outcome (InsertStreamInternal GetChunkKeys tables_ requests w)
  = Return Status_OK ->
  responses (trace (InsertStreamInternal GetChunkKeys tables_ requests w))
  = to_confirm requests.
Proof.
  unfold InsertStreamInternal. generalize (∅ : gmap Key Chunk). revert w.
  induction requests as [|request requests IH]; intros w chunks;
    cbn [request_loop]; [reflexivity|].
  unfold handle_request. rewrite !bind_assoc.
  pose proof (insert_chunks_silent (Insert.chunks request) chunks w) as Hsilent.
  pose proof (InsertFacts.insert_chunks_ensures (Insert.chunks request)
                chunks w) as Hchunks.
  unfold ensures in Hchunks.
  destruct (insert_chunks (Insert.chunks request) chunks w)
    as [[chunks1|s| |] w1 t1] eqn:Hrun; cbn [outcome trace] in Hsilent, Hchunks;
    [rewrite !(bind_run _ _ _ _ _ _ Hrun)
    |rewrite !(bind_stops _ _ _ _ _ _ Hrun); intros [= ->]; discriminate
    |unfold bind; rewrite Hrun; discriminate..].
  cbn [outcome trace]. rewrite responses_app, Hsilent. cbn [app].
  destruct request as [request_chunks [request_item|]];
    cbn [item Insert.chunks] in *.
  - pose proof (insert_item_confirms request_item chunks1 w1) as Hitem.
    unfold ensures in Hitem. unfold bind.
    destruct (outcome (insert_item _ _ request_item chunks1 _))
      as [chunks2|s| |]; cbn [outcome trace]; try discriminate.
    + intros Hrest. rewrite responses_app, (IH _ _ Hrest), Hitem.
      reflexivity.
    + intros [= ->]. discriminate.
  - rewrite bind_ret_l. apply IH.
Qed.

Lemma insert_chunks_pending request_chunks :
  forall chunks w chunks1,
    outcome (insert_chunks request_chunks chunks w) = Next chunks1 ->
    dom chunks1 = dom chunks ∪ list_to_set (chunk_key <$> request_chunks)
    /\ forall key, key ∉ chunk_key <$> request_chunks ->
                   chunks1 !! key = chunks !! key.
Proof.
  induction request_chunks as [|chunk request_chunks IH];
    intros chunks w chunks1; cbn [insert_chunks].
  - intros [= <-]. split; [|reflexivity].
    cbn. now rewrite (right_id_L ∅ (∪)).
  - unfold bind.
    destruct (chunk_store_Insert_run chunk w) as ([chunk_sp|] & w1 & ->);
      cbn [outcome world]; [|discriminate].
    intros Hrest. destruct (IH _ _ _ Hrest) as [Hdom Hother]. split.
    + rewrite Hdom, dom_insert_L, fmap_cons, list_to_set_cons.
      rewrite (comm_L (∪) {[chunk_key chunk]} (dom chunks)).
      now rewrite <- (assoc_L (∪)).
    + intros key Hkey. rewrite fmap_cons, not_elem_of_cons in Hkey.
      destruct Hkey as [Hne Hkey].
      rewrite (Hother key Hkey). apply lookup_insert_ne. congruence.
Qed.

Lemma insert_item_pending request_item chunks w :
  ensures (insert_item GetChunkKeys tables_ request_item chunks) w
          (fun chunks1 _ =>
             let keep_keys : gset Key :=
               list_to_set (InsertItem.keep_chunk_keys request_item) in
             chunks1 = erase_unkept keep_keys chunks
             /\ size chunks1 = size keep_keys)
          (fun _ => True).
Proof.
  unfold insert_item.
  apply (ensures_bind _ _ _ (fun _ _ => True));
    [unfold ensures; now destruct (outcome _)|].
  intros item_chunks t1 w1 _.
  destruct (TableByName _ _) as [table|]; [|now apply ensures_stop].
  apply (ensures_bind _ _ _ (fun _ _ => True));
    [unfold ensures; now destruct (outcome _)|].
  intros status t2 w2 _.
  destruct (negb (ok status)); [now apply ensures_stop|].
  apply (ensures_bind _ _ _ (fun _ _ => True));
    [unfold ensures; now destruct (outcome _)|].
  intros _ t3 w3 _. unfold keep_specified.
  case_decide; [now apply ensures_ret | apply ensures_fatal].
Qed.

(** X11.  The chunks that stay pending from one request to the next.
    A request without an item adds the chunks it brings to the pending
    ones.  After a request with an item that was inserted, the pending
    chunks are those under the item's [keep_chunk_keys], no other, and
    each of these keys was pending before or was brought by the
    request.  A chunk that is still pending and was not brought by the
    request is the one that was pending before. *)
Theorem pending_chunks_after_request (request : InsertStreamRequest)
    (chunks chunks1 : gmap Key Chunk) (w : World) :
  outcome (handle_request GetChunkKeys tables_ request chunks w)
  = Next chunks1 ->
  (item request = None -> dom chunks1 = dom chunks ∪ brought request)
  /\ (forall request_item,
        item request = Some request_item ->
        dom chunks1 = list_to_set (InsertItem.keep_chunk_keys request_item)
        /\ dom chunks1 ⊆ dom chunks ∪ brought request)
  /\ (forall key chunk,
        chunks1 !! key = Some chunk -> key ∉ brought request ->
        chunks !! key = Some chunk).
Proof.
  unfold handle_request, brought.
  destruct (insert_chunks (Insert.chunks request) chunks w)
    as [[chunks0|s| |] w1 t1] eqn:Hrun;
    [rewrite (bind_run _ _ _ _ _ _ Hrun)
    |unfold bind; rewrite Hrun; discriminate..].
  cbn [outcome].
  destruct (insert_chunks_pending (Insert.chunks request) chunks w chunks0)
    as [Hdom Hother]; [now rewrite Hrun|].
  destruct (item request) as [request_item|].
  - pose proof (insert_item_pending request_item chunks0 w1) as Hitem.
    unfold ensures in Hitem. intros Hout. rewrite Hout in Hitem.
    cbn zeta in Hitem. destruct Hitem as [Hkept Hsize].
    set (keep_keys :=
           list_to_set (InsertItem.keep_chunk_keys request_item) : gset Key)
      in *.
    assert (Hsub : dom chunks1 ⊆ keep_keys).
    { intros key Hkey. apply elem_of_dom in Hkey.
      rewrite Hkept, InsertFacts.erase_unkept_lookup in Hkey.
      case_decide; [assumption | now destruct Hkey]. }
    assert (Hkeys : dom chunks1 = keep_keys).
    { apply set_subseteq_size_eq; [exact Hsub|]. rewrite size_dom. lia. }
    split; [discriminate|]. split.
    + intros ? [= <-]. split; [exact Hkeys|].
      rewrite <- Hdom. intros key Hkey. apply elem_of_dom in Hkey.
      rewrite Hkept, InsertFacts.erase_unkept_lookup in Hkey.
      apply elem_of_dom. now case_decide; [|destruct Hkey].
    + intros key chunk Hkey Hnew. rewrite <- Hother.
      * rewrite Hkept, InsertFacts.erase_unkept_lookup in Hkey.
        now case_decide.
      * intros Hin. apply Hnew. now apply elem_of_list_to_set.
  - intros [= <-]. split; [intros _; exact Hdom|]. split; [discriminate|].
    intros key chunk Hkey Hnew. rewrite <- Hother; [exact Hkey|].
    intros Hin. apply Hnew. now apply elem_of_list_to_set.
Qed.

Lemma resolve_chunks_pending chunk_keys chunks :
  forall item_chunks w,
    (forall key, key ∈ chunk_keys -> is_Some (chunks !! key)) ->
    exists found,
      resolve_chunks chunk_keys chunks item_chunks w
      = MkRun (Next (item_chunks ++ found)) w [].
Proof.
  induction chunk_keys as [|key chunk_keys IH]; intros item_chunks w Hpending;
    cbn [resolve_chunks].
  - exists []. now rewrite app_nil_r.
  - unfold push_or.
    destruct (Hpending key ltac:(left)) as [chunk ->].
    cbn [negb ok code Status_OK].
    destruct (IH (item_chunks ++ [chunk]) w) as [found Hfound].
    { intros key' Hkey'. apply Hpending. now right. }
    exists (chunk :: found). now rewrite Hfound, <- app_assoc.
Qed.

Lemma table_InsertOrAssign_answer table item w :
  table_InsertOrAssign table item w
  = MkRun (Next (fst (next_answer Status_OK (assigns w))))
          {| inserts := inserts w;
             assigns := snd (next_answer Status_OK (assigns w));
             writes := writes w |}
          [InsertOrAssign (name table) item
                          (fst (next_answer Status_OK (assigns w)))].
Proof.
  unfold table_InsertOrAssign. now destruct (next_answer Status_OK (assigns w)).
Qed.

Lemma stream_Write_answer response w :
  stream_Write response w
  = MkRun (Next (fst (next_answer true (writes w))))
          {| inserts := inserts w; assigns := assigns w;
             writes := snd (next_answer true (writes w)) |}
          [Write response (fst (next_answer true (writes w)))].
Proof. unfold stream_Write. now destruct (next_answer true (writes w)). Qed.

(** C3.  After an item is processed, the handler shrinks the pending
    chunks of the stream to the item's [keep_chunk_keys].  [pending]
    are the chunks pending when the chunks of the request have been
    stored.  What the erase loop leaves of them has no key outside
    [keep_chunk_keys], and every kept key with its chunk; and when
    every kept key is pending, the keys left are exactly the kept
    ones, the check on the sizes passes (the handler does not abort),
    and the handler goes on to the next request of the stream with the
    chunks that are left. *)
Theorem retention_shrinks_pending_chunks (request : InsertStreamRequest)
    (request_item : InsertItem.t) (incoming : list InsertStreamRequest)
    (chunks pending : gmap Key Chunk) (w w1 : World) (t1 : list Event) :
  insert_chunks (Insert.chunks request) chunks w
  = MkRun (Next pending) w1 t1 ->
  item request = Some request_item ->
  processed GetChunkKeys tables_ request_item pending w1 ->
  let keep_keys : gset Key :=
    list_to_set (InsertItem.keep_chunk_keys request_item) in
  let kept := erase_unkept keep_keys pending in
  (forall k, k ∉ keep_keys -> kept !! k = None)
  /\ (forall k, k ∈ keep_keys -> kept !! k = pending !! k)
  /\ ((forall k, k ∈ InsertItem.keep_chunk_keys request_item ->
                 is_Some (pending !! k)) ->
      dom kept = keep_keys
      /\ size kept = size keep_keys
      /\ exists w2 t2,
           handle_request GetChunkKeys tables_ request chunks w
           = MkRun (Next kept) w2 (t1 ++ t2)
           /\ request_loop GetChunkKeys tables_ (request :: incoming)
                           chunks w
              = MkRun (outcome (request_loop GetChunkKeys tables_ incoming
                                             kept w2))
                      (world (request_loop GetChunkKeys tables_ incoming
                                           kept w2))
                      ((t1 ++ t2)
                       ++ trace (request_loop GetChunkKeys tables_ incoming
                                              kept w2))).
Proof.
  intros Hchunks Hitem (Hkeys & [table Htable] & Haccepts & Hwritten)
         keep_keys kept.
  destruct (InsertFacts.retention_keeps_exactly
              (InsertItem.keep_chunk_keys request_item) pending w1)
    as (Herased & Hkept & Hcheck).
  split; [exact Herased|]. split; [exact Hkept|].
  intros Hpending.
  assert (Hdom : dom kept = keep_keys)
    by exact (proj1 (Hcheck Hpending)).
  assert (Hsize : size kept = size keep_keys)
    by exact (proj1 (proj2 (Hcheck Hpending))).
  assert (Hkeep : forall w', keep_specified
                               (InsertItem.keep_chunk_keys request_item)
                               pending w'
                             = MkRun (Next kept) w' []).
  { intros w'. unfold keep_specified. fold keep_keys. fold kept.
    now case_decide. }
  split; [exact Hdom|]. split; [exact Hsize|].
  destruct (resolve_chunks_pending _ pending [] w1 Hkeys)
    as [item_chunks Hresolve].
  assert (Hrun : exists w2 t2,
            insert_item GetChunkKeys tables_ request_item pending w1
            = MkRun (Next kept) w2 t2).
  { unfold insert_item.
    rewrite (bind_run _ _ _ _ _ _ Hresolve), Htable.
    rewrite (bind_run _ _ _ _ _ _ (table_InsertOrAssign_answer _ _ _)).
    rewrite Haccepts. cbn [negb outcome world trace app].
    destruct (InsertItem.send_confirmation request_item) eqn:Hconfirm.
    - rewrite bind_assoc.
      rewrite (bind_run _ _ _ _ _ _ (stream_Write_answer _ _)).
      cbn [writes]. rewrite (Hwritten eq_refl). cbn [negb].
      rewrite bind_ret_l, Hkeep. cbn [outcome world trace]. eauto.
    - rewrite bind_ret_l, Hkeep. cbn [outcome world trace]. eauto. }
  destruct Hrun as (w2 & t2 & Hrun). exists w2, t2.
  assert (Hrequest :
            handle_request GetChunkKeys tables_ request chunks w
            = MkRun (Next kept) w2 (t1 ++ t2)).
  { unfold handle_request.
    now rewrite (bind_run _ _ _ _ _ _ Hchunks), Hitem, Hrun. }
  split; [exact Hrequest|].
  cbn [request_loop]. now rewrite (bind_run _ _ _ _ _ _ Hrequest).
Qed.

End Requests.

(** C3 at a request that brings chunks 1, 2 and 3 with an item over
    chunk 1 that keeps chunks 1 and 9, while chunks 8 and 9 are
    pending: chunks 1 and 9 are left, and the next request, which
    brings chunk 8 anew, is handled with them. *)
Lemma retention_shrinks_pending_chunks_witness :
  let pending : gmap Key Chunk :=
    {[ 1%N := Examples.chunk 1%N 1; 2%N := Examples.chunk 2%N 1;
       3%N := Examples.chunk 3%N 1; 8%N := Examples.chunk 8%N 1;
       9%N := Examples.chunk 9%N 1 ]} in
  let kept : gmap Key Chunk :=
    {[ 1%N := Examples.chunk 1%N 1; 9%N := Examples.chunk 9%N 1 ]} in
  processed Examples.slice_keys Examples.tables
            (Examples.insert_item 102%N [1%N] false [1%N; 9%N])
            pending Examples.willing
  /\ (forall k : Key, k ∈ [1%N; 9%N] -> is_Some (pending !! k))
  /\ dom (erase_unkept (list_to_set [1%N; 9%N]) pending)
     = list_to_set [1%N; 9%N]
  /\ exists w2 t2,
       handle_request Examples.slice_keys Examples.tables
                      Examples.keeping_request
                      {[ 9%N := Examples.chunk 9%N 1;
                         8%N := Examples.chunk 8%N 1 ]}
                      Examples.willing
       = MkRun (Next (erase_unkept (list_to_set [1%N; 9%N]) pending)) w2
               ([ChunkStore_Insert (Examples.chunk 1%N 1)
                                   (Some (Examples.chunk 1%N 1));
                 ChunkStore_Insert (Examples.chunk 2%N 1)
                                   (Some (Examples.chunk 2%N 1));
                 ChunkStore_Insert (Examples.chunk 3%N 1)
                                   (Some (Examples.chunk 3%N 1))] ++ t2)
       /\ erase_unkept (list_to_set [1%N; 9%N]) pending = kept.
Proof.
  intros pending kept.
  assert (Hchunks :
    insert_chunks (Insert.chunks Examples.keeping_request)
                  {[ 9%N := Examples.chunk 9%N 1;
                     8%N := Examples.chunk 8%N 1 ]}
                  Examples.willing
    = MkRun (Next pending) Examples.willing
            [ChunkStore_Insert (Examples.chunk 1%N 1)
                               (Some (Examples.chunk 1%N 1));
             ChunkStore_Insert (Examples.chunk 2%N 1)
                               (Some (Examples.chunk 2%N 1));
             ChunkStore_Insert (Examples.chunk 3%N 1)
                               (Some (Examples.chunk 3%N 1))])
    by (vm_compute; reflexivity).
  assert (Hprocessed :
    processed Examples.slice_keys Examples.tables
              (Examples.insert_item 102%N [1%N] false [1%N; 9%N])
              pending Examples.willing).
  { split; [|split; [|split]].
    - intros key Hkey. apply list_elem_of_In in Hkey.
      destruct Hkey as [<- | []]. vm_compute; eauto.
    - vm_compute; eauto.
    - reflexivity.
    - discriminate. }
  assert (Hpending : forall k : Key, k ∈ [1%N; 9%N] -> is_Some (pending !! k)).
  { intros k Hk. apply list_elem_of_In in Hk.
    destruct Hk as [<- | [<- | []]]; vm_compute; eauto. }
  split; [exact Hprocessed|]. split; [exact Hpending|].
  destruct (retention_shrinks_pending_chunks Examples.slice_keys
              Examples.tables Examples.keeping_request _ [] _ _ _ _ _
              Hchunks eq_refl Hprocessed)
    as (_ & _ & Hcheck).
  destruct (Hcheck Hpending) as (Hdom & _ & w2 & t2 & Hrequest & _).
  split; [exact Hdom|].
  exists w2, t2. split; [exact Hrequest | vm_compute; reflexivity].
Defined.

(** X10 at a request whose item asks for a confirmation, followed by
    one that brings a chunk only. *)
Lemma confirmations_follow_requests_witness :
  outcome (InsertStreamInternal Examples.slice_keys Examples.tables
             [Examples.first_request; Examples.second_request]
             Examples.willing)
  = Return Status_OK
  /\ responses
       (trace (InsertStreamInternal Examples.slice_keys Examples.tables
                 [Examples.first_request; Examples.second_request]
                 Examples.willing))
     = [{| keys := [100%N] |}].
Proof.
  assert (Hok :
    outcome (InsertStreamInternal Examples.slice_keys Examples.tables
               [Examples.first_request; Examples.second_request]
               Examples.willing)
    = Return Status_OK) by (vm_compute; reflexivity).
  split; [exact Hok|].
  exact (confirmations_follow_requests Examples.slice_keys Examples.tables
           [Examples.first_request; Examples.second_request]
           Examples.willing Hok).
Defined.

(** X11 at a request that brings chunks 1, 2 and 3 with an item over
    chunk 1 that keeps chunks 1 and 9, while chunk 9 is pending. *)
Lemma pending_chunks_after_request_witness :
  outcome (handle_request Examples.slice_keys Examples.tables
             Examples.keeping_request
             {[ 9%N := Examples.chunk 9%N 1; 8%N := Examples.chunk 8%N 1 ]}
             Examples.willing)
  = Next {[ 1%N := Examples.chunk 1%N 1; 9%N := Examples.chunk 9%N 1 ]}
  /\ dom ({[ 1%N := Examples.chunk 1%N 1; 9%N := Examples.chunk 9%N 1 ]}
            : gmap Key Chunk)
     = list_to_set [1%N; 9%N].
Proof.
  assert (Hout :
    outcome (handle_request Examples.slice_keys Examples.tables
               Examples.keeping_request
               {[ 9%N := Examples.chunk 9%N 1; 8%N := Examples.chunk 8%N 1 ]}
               Examples.willing)
    = Next {[ 1%N := Examples.chunk 1%N 1; 9%N := Examples.chunk 9%N 1 ]})
    by (vm_compute; reflexivity).
  split; [exact Hout|].
  exact (proj1 (proj1 (proj2 (pending_chunks_after_request
                                Examples.slice_keys Examples.tables
                                Examples.keeping_request _ _
                                Examples.willing Hout))
                      _ eq_refl)).
Defined.

(** X9 at an item over chunk 7 that the store already held, with 5 MiB
    of data, when the stream sent its own chunk 7. *)
Lemma item_holds_last_stored_chunks_witness :
  trace (InsertStreamInternal Examples.slice_keys Examples.tables
           [Examples.first_request] Examples.sharing)
  = [ChunkStore_Insert (Examples.chunk 7%N 1) (Some (Examples.chunk 7%N 5))]
    ++ InsertOrAssign "t"
         {| TableItem.item := Examples.proto 100%N [7%N];
            TableItem.chunks := [Examples.chunk 7%N 5] |}
         Status_OK
       :: [Write {| keys := [100%N] |} true]
  /\ chunks_stored
       (Examples.slice_keys
          (PrioritizedItem.flat_trajectory (Examples.proto 100%N [7%N])))
       [Examples.chunk 7%N 5]
       [ChunkStore_Insert (Examples.chunk 7%N 1)
                          (Some (Examples.chunk 7%N 5))].
Proof.
  assert (Htrace :
    trace (InsertStreamInternal Examples.slice_keys Examples.tables
             [Examples.first_request] Examples.sharing)
    = [ChunkStore_Insert (Examples.chunk 7%N 1) (Some (Examples.chunk 7%N 5))]
      ++ InsertOrAssign "t"
           {| TableItem.item := Examples.proto 100%N [7%N];
              TableItem.chunks := [Examples.chunk 7%N 5] |}
           Status_OK
         :: [Write {| keys := [100%N] |} true])
    by (vm_compute; reflexivity).
  split; [exact Htrace|].
  exact (item_holds_last_stored_chunks Examples.slice_keys Examples.tables
           [Examples.first_request] Examples.sharing _ _ _ _ _ Htrace).
Defined.

End InsertMore.

(** ** SampleStream: failures, cancellation and the samples delivered *)

Module SampleMore.
Import Sample.

Lemma sample_Write_run response w :
  exists written,
    stream_Write response w
    = MkRun (Next written)
            {| cancelled := cancelled w; writes := snd (next_answer true (writes w)) |}
            [Write response written].
Proof.
  unfold stream_Write.
  destruct (next_answer true (writes w)) as [a rest]. eauto.
Qed.

Section Requests.
Variable kAutoSelectValue : Z.
Variable ByteSizeLong : Entry -> Z.
Variable tables_ : gmap string Table.

Lemma chunk_loop_fails_last (plain : Status -> Prop) sample size remaining :
  forall chunk_idx entry w,
    fails_last wrote write_failed plain
               (chunk_loop ByteSizeLong sample size chunk_idx remaining entry)
               w.
Proof.
  induction remaining as [|chunk remaining IH]; intros chunk_idx entry w;
    cbn [chunk_loop]; [apply fails_last_ret|].
  destruct (_ && _); [apply IH|].
  match goal with |- context [stream_Write ?r] =>
    destruct (sample_Write_run r w) as (written & Hwrite)
  end.
  eapply fails_last_call; [exact Hwrite|].
  destruct written; cbn [negb].
  - left. split; [reflexivity | apply IH].
  - right. eexists. split; [split; reflexivity | reflexivity].
Qed.

Lemma chunk_loop_cancelled sample size remaining :
  forall chunk_idx entry w,
    cancelled
      (world (chunk_loop ByteSizeLong sample size chunk_idx remaining entry w))
    = cancelled w.
Proof.
  induction remaining as [|chunk remaining IH]; intros chunk_idx entry w;
    cbn [chunk_loop]; [reflexivity|].
  destruct (_ && _); [apply IH|].
  unfold bind.
  match goal with |- context [stream_Write ?r] =>
    destruct (sample_Write_run r w) as ([] & ->)
  end; cbn [outcome world negb]; [|reflexivity].
  now rewrite IH.
Qed.

Lemma for_each_cancelled samples :
  forall w,
    cancelled (world (for_each (stream_sample ByteSizeLong) samples w))
    = cancelled w.
Proof.
  induction samples as [|sample samples IH]; intros w; cbn [for_each];
    [reflexivity|].
  pose proof (chunk_loop_cancelled sample
                (Z.of_nat (length (TableItem.chunks (ref sample))))
                (TableItem.chunks (ref sample)) 0 add_entries w) as Hone.
  unfold bind. fold (stream_sample ByteSizeLong sample) in Hone.
  destruct (outcome (stream_sample ByteSizeLong sample w));
    cbn [world]; try exact Hone.
  now rewrite IH.
Qed.

Lemma plain_status_later used answers s :
  plain_status kAutoSelectValue answers s ->
  plain_status kAutoSelectValue (used ++ answers) s.
Proof.
  unfold plain_status.
  intros [H | [H | [H | [H | [H | (status & samples & Hin & Hok & Hs)]]]]];
    auto 6.
  do 5 right. exists status, samples. split; [|now split].
  apply in_or_app. now right.
Qed.

Lemma sampling_loop_fails_last answers :
  forall request table default timeout count w,
    fails_last wrote write_failed (plain_status kAutoSelectValue answers)
               (sampling_loop kAutoSelectValue ByteSizeLong answers request
                              table default timeout count)
               w.
Proof.
  induction answers as [|[status samples] answers IH];
    intros request table default timeout count w; cbn [sampling_loop];
    (apply fails_last_bind;
     [unfold fails_last, IsCancelled;
      destruct (next_answer false (cancelled w)); constructor|]);
    intros c w1; (destruct (_ && _); [|apply fails_last_ret]);
    (apply fails_last_bind; [repeat constructor|]); intros _ w2.
  - constructor.
  - destruct (ok status) eqn:Hok; cbn [negb].
    + apply fails_last_bind.
      * apply fails_last_for_each. intros sample w3.
        apply chunk_loop_fails_last.
      * intros _ w3. eapply fails_last_mono; [|apply IH].
        intros s. apply (plain_status_later [(status, samples)]).
    + apply fails_last_stop. do 5 right. exists status, samples.
      split; [now left | now split].
Qed.

Lemma never_cancelled_next (script : list bool) :
  Forall (fun c => c = false) script ->
  fst (next_answer false script) = false
  /\ Forall (fun c => c = false) (snd (next_answer false script)).
Proof. intros [|c rest Hc Hrest]; cbn; auto. Qed.

(** The answers the loop of a request leaves are the ones it has not
    used; the ones it used were OK; and unless the stream was
    cancelled, the loop ended because the count had come to
    [num_samples]. *)
Lemma sampling_loop_used answers :
  forall request table default timeout count w rest,
    outcome (sampling_loop kAutoSelectValue ByteSizeLong answers request
                           table default timeout count w) = Next rest ->
    exists used,
      answers = used ++ rest
      /\ Forall (fun answer => ok (fst answer) = true) used
      /\ (Forall (fun c => c = false) (cancelled w) ->
          counted count used = num_samples request).
Proof.
  induction answers as [|[status samples] answers IH];
    intros request table default timeout count w rest; cbn [sampling_loop];
    unfold bind at 1, IsCancelled;
    pose proof (never_cancelled_next (cancelled w)) as Hnever;
    destruct (next_answer false (cancelled w)) as [c script];
    cbn [fst snd outcome world trace] in *;
    (destruct c; cbn [negb andb];
     [intros [= <-]; exists []; repeat split; [constructor|];
      intros Hall; now destruct (Hnever Hall)|]);
    (destruct (count =? num_samples request) eqn:Hcount; cbn [negb];
     [intros [= <-]; exists []; repeat split; [constructor|];
      intros _; now apply Z.eqb_eq|]).
  - unfold bind, call, pending. cbn. discriminate.
  - unfold bind at 1. cbn [call outcome world trace].
    destruct (ok status) eqn:Hok; cbn [negb]; [|discriminate].
    intros Hrest. apply bind_next in Hrest as ([] & Hbatch & Hrest & _).
    apply IH in Hrest as (used & -> & Hused & Hcounted).
    exists ((status, samples) :: used). split; [reflexivity|].
    split; [now constructor|]. intros Hall. apply Hcounted.
    rewrite for_each_cancelled. cbn [cancelled]. now apply Hnever.
Qed.

Lemma serve_request_used request timeout answers w rest :
  outcome (serve_request kAutoSelectValue ByteSizeLong tables_ request
                         timeout answers w) = Next rest ->
  exists used,
    answers = used ++ rest
    /\ Forall (fun answer => ok (fst answer) = true) used
    /\ (Forall (fun c => c = false) (cancelled w) ->
        counted 0 used = num_samples request).
Proof.
  unfold serve_request.
  destruct (_ <=? _); [discriminate|].
  destruct (_ && _); [discriminate|].
  destruct (TableByName _ _); [apply sampling_loop_used | discriminate].
Qed.

Lemma serve_request_fails_last request timeout answers w :
  fails_last wrote write_failed (plain_status kAutoSelectValue answers)
             (serve_request kAutoSelectValue ByteSizeLong tables_ request
                            timeout answers)
             w.
Proof.
  unfold serve_request.
  destruct (_ <=? _); [apply fails_last_stop; unfold plain_status; auto 6|].
  destruct (_ && _); [apply fails_last_stop; unfold plain_status; auto 6|].
  destruct (TableByName _ _); [apply sampling_loop_fails_last|].
  apply fails_last_stop. unfold plain_status. eauto 8.
Qed.

Lemma sample_loop_fails_last incoming :
  forall request timeout answers w,
    fails_last wrote write_failed (plain_status kAutoSelectValue answers)
               (request_loop kAutoSelectValue ByteSizeLong tables_ request
                             incoming timeout answers)
               w.
Proof.
  induction incoming as [|request' incoming IH];
    intros request timeout answers w; cbn [request_loop];
    (apply fails_last_bind_run; [apply serve_request_fails_last|]);
    intros rest Hrest.
  - apply fails_last_stop. now left.
  - apply serve_request_used in Hrest as (used & -> & _).
    eapply fails_last_mono; [|apply IH].
    intros s. apply plain_status_later.
Qed.

(** X12.  A SampleStream stops at its first failure.  When it returns,
    either every response was written and the status is OK (the stream
    was read to its end), the missing initial request, one of the three
    rejections of a request, or the status of a table that failed to
    sample; or its last call is a response that was not written, every
    response before it was written, and the status is INTERNAL, failed
    to write to the stream. *)
Theorem sample_stream_stops_at_first_failure
    (incoming : list SampleStreamRequest) (answers : list Batch)
    (w : Transport) (s : Status) :
  let r := SampleStreamInternal kAutoSelectValue ByteSizeLong tables_
                                incoming answers w in
  outcome r = Return s ->
  (Forall wrote (trace r) /\ plain_status kAutoSelectValue answers s)
  \/ exists pre response,
       trace r = pre ++ [Write response false]
       /\ Forall wrote pre
       /\ s = Internal "Failed to write to Sample stream.".
Proof.
  intros r Hout. subst r. unfold SampleStreamInternal in *.
  destruct incoming as [|request incoming].
  - left. split; [constructor|]. injection Hout as <-.
    unfold plain_status. auto.
  - pose proof (sample_loop_fails_last incoming request (timeout_of request)
                  answers w) as Hrun.
    unfold fails_last in Hrun. rewrite Hout in Hrun.
    destruct Hrun as [Hgood | (pre & ev & Htrace & Hpre & Hbad)];
      [now left|].
    right. destruct ev as [|response []]; try now destruct Hbad.
    exists pre, response. now destruct Hbad.
Qed.

Lemma counted_delivered used :
  forall count,
    0 <= count -> count + delivered used <= INT32_MAX ->
    counted count used = count + delivered used.
Proof.
  induction used as [|[status samples] used IH]; intros count Hcount Hfits;
    cbn [counted delivered foldl foldr snd] in *; [lia|].
  fold (delivered used) in *.
  assert (Hrest : 0 <= delivered used).
  { clear. induction used as [|[? ?] used IH]; cbn; [lia|].
    fold (delivered used). lia. }
  rewrite SampleFacts.to_int32_fits by (unfold INT32_MAX in *; lia).
  fold (counted (count + Z.of_nat (length samples)) used).
  rewrite IH by lia. lia.
Qed.

(** X13.  A request that is served to its end has been served in
    full.  The answers the loop used are the first ones of the table's
    answers, each of them OK, whether or not the stream was cancelled
    on the way; and in a stream that was never cancelled the samples
    they brought number exactly [num_samples], as long as their number
    fits the [int] that counts them. *)
Theorem request_served_in_full (request : SampleStreamRequest)
    (timeout : Duration) (answers rest : list Batch) (w : Transport) :
  outcome (serve_request kAutoSelectValue ByteSizeLong tables_ request
                         timeout answers w) = Next rest ->
  exists used,
    answers = used ++ rest
    /\ Forall (fun answer => ok (fst answer) = true) used
    /\ (Forall (fun c => c = false) (cancelled w) ->
        delivered used <= INT32_MAX -> delivered used = num_samples request).
Proof.
  intros Hrest.
  apply serve_request_used in Hrest as (used & -> & Hused & Hcounted).
  exists used. split; [reflexivity|]. split; [exact Hused|].
  intros Hnever Hfits. rewrite <- (Hcounted Hnever).
  now rewrite counted_delivered.
Qed.

Lemma serve_request_cancelled request timeout answers w script :
  accepted kAutoSelectValue tables_ request ->
  cancelled w = true :: script ->
  serve_request kAutoSelectValue ByteSizeLong tables_ request timeout
                answers w
  = MkRun (Next answers) {| cancelled := script; writes := writes w |} [].
Proof.
  intros (Hnum & Hsize & [table Htable]) Hscript. unfold serve_request.
  rewrite (proj2 (Z.leb_gt _ _) Hnum), Htable.
  assert (Hcheck : (flexible_batch_size request <=? 0)
                   && negb (flexible_batch_size request =? kAutoSelectValue)
                   = false).
  { destruct Hsize as [Hsize | Hsize].
    - now rewrite (proj2 (Z.leb_gt _ _) Hsize).
    - rewrite (proj2 (Z.eqb_eq _ _) Hsize). apply andb_false_r. }
  rewrite Hcheck.
  destruct answers as [|[status samples] answers]; cbn [sampling_loop];
    unfold bind, IsCancelled; now rewrite Hscript.
Qed.

Lemma classic_accepted request :
  accepted kAutoSelectValue tables_ request
  \/ ~ accepted kAutoSelectValue tables_ request.
Proof.
  unfold accepted.
  destruct (Z.lt_ge_cases 0 (num_samples request)) as [Hnum | Hnum];
    [|right; intros [? _]; lia].
  destruct (TableByName tables_ (table request)) as [found|] eqn:Htable;
    [|right; intros (_ & _ & [? ?]); discriminate].
  destruct (Z.lt_ge_cases 0 (flexible_batch_size request)) as [Hsize | Hsize];
    [left; eauto|].
  destruct (Z.eq_dec (flexible_batch_size request) kAutoSelectValue)
    as [Hauto | Hauto]; [left; eauto|].
  right. intros (_ & [? | ?] & _); [lia | contradiction].
Qed.

Lemma serve_request_rejected request timeout answers w :
  ~ accepted kAutoSelectValue tables_ request ->
  exists s,
    serve_request kAutoSelectValue ByteSizeLong tables_ request timeout
                  answers w
    = MkRun (Return s) w []
    /\ ok s = false.
Proof.
  intros Hbad. unfold serve_request.
  destruct (Z.leb_spec (num_samples request) 0) as [Hnum | Hnum];
    [eexists; split; reflexivity|].
  destruct (Z.leb_spec (flexible_batch_size request) 0) as [Hsize | Hsize];
    cbn [andb];
    [destruct (Z.eqb_spec (flexible_batch_size request) kAutoSelectValue)
       as [Hauto | Hauto]; cbn [negb];
     [|eexists; split; reflexivity]|];
    (destruct (TableByName tables_ (table request)) as [found|] eqn:Htable;
     [|eexists; split; reflexivity]);
    destruct Hbad; (split; [exact Hnum|]); (split; [|now exists found]);
    [now right | now left].
Qed.

(** X14.  Cancellation is not an error, and it does not end the
    stream.  In a stream whose context is cancelled whenever the
    handler looks, no table is sampled and nothing is written.  The
    handler still takes up every request: when all of them pass the
    checks it returns OK, and when one of them does not, the requests
    before it passing, it returns the error of that request. *)
Theorem cancelled_stream_ends_ok (request : SampleStreamRequest)
    (incoming : list SampleStreamRequest) (answers : list Batch)
    (w : Transport) :
  Forall (fun c => c = true) (cancelled w) ->
  (length incoming < length (cancelled w))%nat ->
  let r := SampleStreamInternal kAutoSelectValue ByteSizeLong tables_
                                (request :: incoming) answers w in
  trace r = []
  /\ (Forall (accepted kAutoSelectValue tables_) (request :: incoming) ->
      outcome r = Return Status_OK)
  /\ (forall earlier rejected later,
        request :: incoming = earlier ++ rejected :: later ->
        Forall (accepted kAutoSelectValue tables_) earlier ->
        ~ accepted kAutoSelectValue tables_ rejected ->
        exists s, outcome r = Return s /\ ok s = false).
Proof.
  cbn [SampleStreamInternal]. generalize (timeout_of request).
  revert request w.
  induction incoming as [|request' incoming IH];
    intros request w timeout Hall Hlen;
    destruct (cancelled w) as [|c script] eqn:Hscript;
    cbn [length] in Hlen; try lia;
    apply Forall_cons in Hall as [-> Hall]; cbn zeta.
  - assert (Hone : forall s,
              serve_request kAutoSelectValue ByteSizeLong tables_ request
                            timeout answers w = MkRun (Return s) w [] ->
              request_loop kAutoSelectValue ByteSizeLong tables_ request []
                           timeout answers w = MkRun (Return s) w []).
    { intros s Hs. cbn [request_loop]. now rewrite (bind_stops _ _ _ _ _ _ Hs). }
    assert (Hsilent :
              trace (request_loop kAutoSelectValue ByteSizeLong tables_
                                  request [] timeout answers w) = []
              /\ (accepted kAutoSelectValue tables_ request ->
                  outcome (request_loop kAutoSelectValue ByteSizeLong tables_
                                        request [] timeout answers w)
                  = Return Status_OK)).
    { destruct (classic_accepted request) as [Hreq | Hreq].
      - cbn [request_loop].
        rewrite (bind_run _ _ _ _ _ _
                   (serve_request_cancelled request timeout answers w script
                                            Hreq Hscript)).
        now split.
      - destruct (serve_request_rejected request timeout answers w Hreq)
          as (s & Hs & _).
        rewrite (Hone s Hs). split; [reflexivity | intros Hreq'; now destruct Hreq]. }
    destruct Hsilent as [Htrace Hok].
    split; [exact Htrace|]. split.
    + intros Hreqs. apply Forall_cons in Hreqs as [Hreq _]. now apply Hok.
    + intros earlier rejected later Heq Hearlier Hbad.
      destruct earlier as [|first earlier]; [|now destruct earlier].
      injection Heq as <- _.
      destruct (serve_request_rejected request timeout answers w Hbad)
        as (s & Hs & Hnot).
      exists s. now rewrite (Hone s Hs).
  - destruct (classic_accepted request) as [Hreq | Hreq].
    + cbn [request_loop].
      rewrite (bind_run _ _ _ _ _ _
                 (serve_request_cancelled request timeout answers w script
                                          Hreq Hscript)).
      cbn [outcome trace app].
      destruct (IH request'
                   {| cancelled := script; writes := writes w |} timeout)
        as (Htrace & Hok & Hrejected);
        [exact Hall | cbn [cancelled]; lia|].
      cbn zeta in Htrace, Hok, Hrejected. cbn [SampleStreamInternal] in *.
      split; [exact Htrace|]. split.
      * intros Hreqs. apply Forall_cons in Hreqs as [_ Hreqs].
        now apply Hok.
      * intros earlier rejected later Heq Hearlier Hbad.
        destruct earlier as [|first earlier].
        -- injection Heq as <- _. now destruct Hbad.
        -- injection Heq as <- Heq.
           apply Forall_cons in Hearlier as [_ Hearlier].
           exact (Hrejected earlier rejected later Heq Hearlier Hbad).
    + destruct (serve_request_rejected request timeout answers w Hreq)
        as (s & Hs & Hnot).
      cbn [request_loop]. rewrite (bind_stops _ _ _ _ _ _ Hs).
      cbn [outcome trace]. split; [reflexivity|]. split.
      * intros Hreqs. apply Forall_cons in Hreqs as [Hreq' _].
        now destruct Hreq.
      * intros earlier rejected later Heq Hearlier Hbad. exists s.
        now split.
Qed.

(** *** What a stream that ends with OK has written *)

Lemma after_chunks_all (e : Entry) :
  end_of_sequence e = false -> after_chunks (length (data e)) e = e.
Proof.
  destruct e as [i d f]. unfold after_chunks. cbn. intros ->.
  now rewrite firstn_all.
Qed.

Lemma frames_flushed_when_due sample size remaining :
  forall chunk_idx entry,
    0 <= chunk_idx ->
    chunk_idx + Z.of_nat (length remaining) = size ->
    (chunk_idx = 0 -> data entry = []) ->
    (forall k, (0 < k <= length (data entry))%nat ->
               ByteSizeLong (after_chunks k entry)
               < kMaxSampleResponseSizeBytes) ->
    Forall (flushed_when_due ByteSizeLong)
           (frames ByteSizeLong sample size chunk_idx remaining entry).
Proof.
  induction remaining as [|chunk remaining IH];
    intros chunk_idx entry Hidx Hsize Hfirst Hbelow; cbn [frames];
    [constructor|].
  cbn [length] in Hsize.
  set (entry' :=
         add_data chunk
           (if chunk_idx =? 0
            then set_info (info_of sample)
                   (set_end_of_sequence (chunk_idx + 1 =? size) entry)
            else set_end_of_sequence (chunk_idx + 1 =? size) entry)).
  assert (Hdata : data entry' = data entry ++ [chunk])
    by apply SampleFacts.data_appended.
  assert (Hflag : end_of_sequence entry' = (chunk_idx + 1 =? size))
    by apply SampleFacts.flag_appended.
  assert (Hearlier : forall k, (0 < k <= length (data entry))%nat ->
                               after_chunks k entry' = after_chunks k entry).
  { intros k Hk. unfold after_chunks. rewrite Hdata.
    rewrite take_app_le by lia. f_equal.
    destruct (chunk_idx =? 0) eqn:Hzero; [|reflexivity].
    apply Z.eqb_eq in Hzero. rewrite (Hfirst Hzero) in Hk. cbn in Hk. lia. }
  destruct (_ && _) eqn:Hcont.
  - apply andb_prop in Hcont as [Hlt Hsz].
    apply Z.ltb_lt in Hlt. apply Z.ltb_lt in Hsz.
    apply IH; [lia | lia | lia |].
    intros k Hk. rewrite Hdata, length_app in Hk. cbn [length] in Hk.
    destruct (decide (k <= length (data entry))%nat) as [Hle | Hgt].
    + rewrite Hearlier by lia. apply Hbelow. lia.
    + replace k with (length (data entry')) by (rewrite Hdata, length_app; cbn; lia).
      rewrite after_chunks_all; [exact Hsz|].
      rewrite Hflag. apply Z.eqb_neq. lia.
  - constructor.
    + split; [|split].
      * rewrite Hdata. now destruct (data entry).
      * rewrite Hflag. intros Hnot. apply Z.eqb_neq in Hnot.
        apply andb_false_iff in Hcont as [Hlt | Hsz].
        -- apply Z.ltb_ge in Hlt. lia.
        -- now apply Z.ltb_ge in Hsz.
      * intros k Hk. rewrite Hdata, length_app in Hk. cbn [length] in Hk.
        rewrite Hearlier by lia. apply Hbelow. lia.
    + apply IH; [lia | lia | reflexivity |].
      intros k Hk. cbn in Hk. lia.
Qed.

Lemma sample_frames_flushed_when_due sample :
  Forall (flushed_when_due ByteSizeLong) (sample_frames ByteSizeLong sample).
Proof.
  unfold sample_frames.
  apply frames_flushed_when_due; [lia | lia | reflexivity |].
  intros k Hk. cbn in Hk. lia.
Qed.

Lemma stream_sample_flushes sample :
  emits (writes_when_due ByteSizeLong) (stream_sample ByteSizeLong sample).
Proof.
  intros w. unfold stream_sample.
  eapply Forall_impl; [apply (SampleFacts.chunk_loop_writes ByteSizeLong)|].
  intros ev (e & b & -> & Hin). exists e. split; [reflexivity|].
  eapply (proj1 (List.Forall_forall _ _)); [|exact Hin].
  apply sample_frames_flushed_when_due.
Qed.

Lemma sampling_loop_flushes answers :
  forall request table default timeout count,
    emits (writes_when_due ByteSizeLong)
          (sampling_loop kAutoSelectValue ByteSizeLong answers request table
                         default timeout count).
Proof.
  induction answers as [|[status samples] answers IH];
    intros request table default timeout count; cbn [sampling_loop];
    (apply emits_bind; [apply SampleFacts.IsCancelled_silent|]); intros c;
    (destruct (_ && _); [|apply emits_ret]);
    (apply emits_bind; [now apply emits_call|]); intros _.
  - apply emits_pending.
  - destruct (negb (ok status)); [apply emits_stop|].
    apply emits_bind; [|intros _; apply IH].
    apply emits_for_each. intros sample. apply stream_sample_flushes.
Qed.

Lemma request_loop_flushes incoming :
  forall request timeout answers,
    emits (writes_when_due ByteSizeLong)
          (request_loop kAutoSelectValue ByteSizeLong tables_ request incoming
                        timeout answers).
Proof.
  induction incoming as [|request' incoming IH]; intros request timeout answers;
    cbn [request_loop];
    (apply emits_bind;
     [unfold serve_request;
      destruct (_ <=? _); [apply emits_stop|];
      destruct (_ && _); [apply emits_stop|];
      destruct (TableByName _ _);
        [apply sampling_loop_flushes | apply emits_stop]|]);
    intros answers'; [apply emits_stop | apply IH].
Qed.

(** One turn of the sampling loop. *)
Lemma sampling_loop_step answers request table default timeout count w :
  sampling_loop kAutoSelectValue ByteSizeLong answers request table default
                timeout count w
  = let c := fst (next_answer false (cancelled w)) in
    let w1 := {| cancelled := snd (next_answer false (cancelled w));
                 writes := writes w |} in
    let asks :=
      SampleFlexibleBatch
        (name table)
        (max_batch_size_of kAutoSelectValue request default count)
        timeout in
    if negb c && negb (count =? num_samples request) then
      match answers with
      | [] => MkRun Pending w1 [asks]
      | (status, samples) :: answers' =>
          if negb (ok status)
          then MkRun (Return (ToGrpcStatus status)) w1 [asks]
          else
            let batch := for_each (stream_sample ByteSizeLong) samples w1 in
            match outcome batch with
            | Next _ =>
                let later :=
                  sampling_loop kAutoSelectValue ByteSizeLong answers'
                    request table default timeout
                    (to_int32 (count + Z.of_nat (length samples)))
                    (world batch) in
                MkRun (outcome later) (world later)
                      (asks :: trace batch ++ trace later)
            | Return s => MkRun (Return s) (world batch) (asks :: trace batch)
            | Fatal => MkRun Fatal (world batch) (asks :: trace batch)
            | Pending => MkRun Pending (world batch) (asks :: trace batch)
            end
      end
    else MkRun (Next answers) w1 [].
Proof.
  destruct answers as [|[status samples] answers']; cbn [sampling_loop];
    unfold bind at 1, IsCancelled;
    destruct (next_answer false (cancelled w)) as [c script];
    cbn [fst snd outcome world trace app];
    (destruct (negb c && negb (count =? num_samples request));
     [|reflexivity]).
  - reflexivity.
  - unfold bind at 1. cbn [call outcome world trace app].
    destruct (negb (ok status)); [reflexivity|].
    unfold bind.
    now destruct (outcome (for_each (stream_sample ByteSizeLong) samples _)).
Qed.

Lemma for_each_write_failed samples w s :
  outcome (for_each (stream_sample ByteSizeLong) samples w) = Return s ->
  s = Internal "Failed to write to Sample stream.".
Proof.
  intros Hout.
  pose proof (fails_last_for_each wrote write_failed (fun _ => False)
                (stream_sample ByteSizeLong) samples
                (fun sample w' =>
                   chunk_loop_fails_last (fun _ => False) sample _ _ _ _ w')
                w) as Hrun.
  unfold fails_last in Hrun. rewrite Hout in Hrun.
  destruct Hrun as [[_ []] | (pre & ev & _ & _ & Hbad)].
  destruct ev as [|response written]; [destruct Hbad | apply Hbad].
Qed.

(** What the loop of a request has done when it runs to its end. *)
Lemma sampling_loop_served answers :
  forall request table default timeout count w rest,
    let r := sampling_loop kAutoSelectValue ByteSizeLong answers request
                           table default timeout count w in
    outcome r = Next rest ->
    exists used,
      answers = used ++ rest
      /\ Forall (fun answer => ok (fst answer) = true) used
      /\ length (asked (trace r)) = length used
      /\ written_entries (trace r)
         = flat_map (sample_frames ByteSizeLong) (flat_map snd used)
      /\ (Forall (fun c => c = false) (cancelled w) ->
          counted count used = num_samples request
          /\ Forall (fun c => c = false) (cancelled (world r))).
Proof.
  induction answers as [|[status samples] answers IH];
    intros request table default timeout count w rest; cbn zeta;
    rewrite sampling_loop_step; cbn zeta;
    pose proof (never_cancelled_next (cancelled w)) as Hnever;
    (destruct (negb (fst (next_answer false (cancelled w)))
               && negb (count =? num_samples request)) eqn:Hgo;
     [|cbn [outcome world trace cancelled]; intros [= <-]; exists [];
       repeat split; try constructor;
       destruct (Hnever H) as [Hc Hrest]; rewrite Hc in Hgo;
       cbn [negb andb] in Hgo;
       [apply negb_false_iff, Z.eqb_eq in Hgo; exact Hgo | exact Hrest]]).
  - discriminate.
  - destruct (ok status) eqn:Hok; cbn [negb]; [|discriminate].
    destruct (outcome (for_each (stream_sample ByteSizeLong) samples _))
      as [[]| | |] eqn:Hbatch; try discriminate.
    cbn [outcome world trace]. intros Hlater.
    destruct (IH _ _ _ _ _ _ _ Hlater)
      as (used & -> & Hused & Hasked & Hwritten & Hcounted).
    exists ((status, samples) :: used). split; [reflexivity|].
    split; [now constructor|]. split; [|split].
    + change (asked (?e :: ?t)) with (asked [e] ++ asked t).
      rewrite SampleFacts.asked_app,
        SampleFacts.for_each_stream_sample_asked.
      cbn [asked flat_map app length]. now rewrite Hasked.
    + change (written_entries (?e :: ?t)) with (written_entries t).
      rewrite SampleFacts.written_entries_app, Hwritten,
        (SampleFacts.for_each_sample_frames _ _ _ Hbatch).
      cbn [flat_map snd]. now rewrite flat_map_app.
    + intros Hall. destruct (Hnever Hall) as [_ Hrest].
      apply Hcounted. rewrite for_each_cancelled. exact Hrest.
Qed.

Lemma sampling_loop_not_ok answers :
  forall request table default timeout count w s,
    outcome (sampling_loop kAutoSelectValue ByteSizeLong answers request
                           table default timeout count w) = Return s ->
    ok s = false.
Proof.
  induction answers as [|[status samples] answers IH];
    intros request table default timeout count w s;
    rewrite sampling_loop_step; cbn zeta;
    (destruct (negb _ && negb _); [|discriminate]); [discriminate|].
  destruct (ok status) eqn:Hok; cbn [negb]; [|now intros [= <-]].
  destruct (outcome (for_each (stream_sample ByteSizeLong) samples _))
    as [[]| | |] eqn:Hbatch; try discriminate.
  - cbn [outcome]. apply IH.
  - intros [= <-]. now rewrite (for_each_write_failed _ _ _ Hbatch).
Qed.

Lemma serve_request_not_ok request timeout answers w s :
  outcome (serve_request kAutoSelectValue ByteSizeLong tables_ request
                         timeout answers w) = Return s ->
  ok s = false.
Proof.
  unfold serve_request.
  destruct (_ <=? _); [now intros [= <-]|].
  destruct (_ && _); [now intros [= <-]|].
  destruct (TableByName _ _); [apply sampling_loop_not_ok | now intros [= <-]].
Qed.

Lemma serve_request_served request timeout answers w rest :
  let r := serve_request kAutoSelectValue ByteSizeLong tables_ request
                         timeout answers w in
  outcome r = Next rest ->
  exists used,
    answers = used ++ rest
    /\ Forall (fun answer => ok (fst answer) = true) used
    /\ length (asked (trace r)) = length used
    /\ written_entries (trace r)
       = flat_map (sample_frames ByteSizeLong) (flat_map snd used)
    /\ (Forall (fun c => c = false) (cancelled w) ->
        counted 0 used = num_samples request
        /\ Forall (fun c => c = false) (cancelled (world r))).
Proof.
  cbn zeta. unfold serve_request.
  destruct (_ <=? _); [discriminate|].
  destruct (_ && _); [discriminate|].
  destruct (TableByName _ _); [apply sampling_loop_served | discriminate].
Qed.

(** What a stream has done when it ends with OK. *)
Lemma request_loop_served incoming :
  forall request timeout answers w,
    let r := request_loop kAutoSelectValue ByteSizeLong tables_ request
                          incoming timeout answers w in
    outcome r = Return Status_OK ->
    exists per_request,
      answers_used (request :: incoming) answers w (trace r) per_request
      /\ written_entries (trace r)
         = flat_map (sample_frames ByteSizeLong) (items_of per_request).
Proof.
  induction incoming as [|request' incoming IH];
    intros request timeout answers w; cbn zeta; cbn [request_loop];
    pose proof (serve_request_served request timeout answers w) as Hserved;
    pose proof (serve_request_not_ok request timeout answers w) as Hnot;
    cbn zeta in Hserved;
    destruct (serve_request kAutoSelectValue ByteSizeLong tables_ request
                            timeout answers w)
      as [[rest|s| |] w1 t1] eqn:Hserve;
    cbn [outcome world trace] in Hserved, Hnot;
    try (unfold bind; rewrite Hserve; discriminate);
    try (rewrite !(bind_stops _ _ _ _ _ _ Hserve); cbn [outcome];
         intros [= ->]; now specialize (Hnot _ eq_refl));
    rewrite !(bind_run _ _ _ _ _ _ Hserve); cbn [outcome world trace stop];
    destruct (Hserved rest eq_refl)
      as (used & -> & Hused & Hasked & Hwritten & Hcounted).
  - intros _. exists [used]. unfold answers_used, items_of.
    cbn [concat]. rewrite !app_nil_r. split; [|exact Hwritten].
    split; [now exists rest|]. split; [exact Hused|].
    split; [exact Hasked|]. split; [reflexivity|].
    intros Hall. constructor; [apply (Hcounted Hall) | constructor].
  - intros Hlater.
    destruct (IH request' timeout rest w1 Hlater)
      as (per_request & Hused' & Hwritten').
    destruct Hused' as ([rest' ->] & Hoks & Hasked' & Hlength & Hcounted').
    exists (used :: per_request). unfold answers_used, items_of.
    cbn [concat]. split.
    + split; [exists rest'; now rewrite <- app_assoc|].
      split; [apply Forall_app; now split|].
      split; [now rewrite SampleFacts.asked_app, !length_app, Hasked, Hasked'|].
      split; [cbn [length]; now rewrite Hlength|].
      intros Hall. destruct (Hcounted Hall) as [Hcount Hrest].
      constructor; [exact Hcount | exact (Hcounted' Hrest)].
    + rewrite SampleFacts.written_entries_app, Hwritten, Hwritten'.
      unfold items_of. now rewrite !flat_map_app.
Qed.

Lemma concat_sample_frames (items : list SampledItem) :
  concat (sample_frames ByteSizeLong <$> items)
  = flat_map (sample_frames ByteSizeLong) items.
Proof.
  induction items as [|sample items IH]; [reflexivity|].
  cbn. now rewrite IH.
Qed.

Lemma Forall2_sample_frames (P : SampledItem -> list Entry -> Prop)
    (items : list SampledItem) :
  (forall sample, P sample (sample_frames ByteSizeLong sample)) ->
  Forall2 P items (sample_frames ByteSizeLong <$> items).
Proof.
  intros HP. induction items as [|sample items IH]; constructor; auto.
Qed.



(** C1, as the code has it.  In every run of a SampleStream, a
    response that is written holds one entry; the entry holds at least
    one chunk; it was below the bound of 40 MiB as long as it held
    fewer chunks; and unless it carries the end of the sequence it has
    reached the bound.  So a response is sent as soon as its entry has
    reached the bound, and no sooner unless the chunk is the last of
    its item.  When the stream ends with OK the last chunk of every
    item has been sent as well: the entries written fall into one run
    per sampled item, which holds exactly the chunks of the item, and
    every entry of the run but its last has reached the bound.  The
    size is looked at after the chunk has been appended, so a written
    entry may be larger than the bound. *)
Theorem frames_flushed_when_bound_reached
    (incoming : list SampleStreamRequest) (answers : list Batch)
    (w : Transport) :
  let r := SampleStreamInternal kAutoSelectValue ByteSizeLong tables_
                                incoming answers w in
  Forall (writes_when_due ByteSizeLong) (trace r)
  /\ (outcome r = Return Status_OK ->
      exists (per_request : list (list Batch)) (per_item : list (list Entry)),
        answers_used incoming answers w (trace r) per_request
        /\ written_entries (trace r) = concat per_item
        /\ Forall2
             (fun sample es =>
                concat (data <$> es) = TableItem.chunks (ref sample)
                /\ forall i e,
                     es !! i = Some e ->
                     (S i < length es)%nat ->
                     kMaxSampleResponseSizeBytes <= ByteSizeLong e)
             (items_of per_request) per_item).
Proof.
  intros r. subst r. split.
  - unfold SampleStreamInternal.
    destruct incoming as [|request incoming]; [constructor|].
    apply request_loop_flushes.
  - intros Hout. unfold SampleStreamInternal in *.
    destruct incoming as [|request incoming]; [discriminate|].
    destruct (request_loop_served incoming request (timeout_of request)
                answers w Hout) as (per_request & Hused & Hwritten).
    exists per_request, (sample_frames ByteSizeLong <$> items_of per_request).
    split; [exact Hused|].
    split; [now rewrite concat_sample_frames|].
    apply Forall2_sample_frames. intros sample.
    split.
    + unfold sample_frames.
      rewrite SampleFacts.frames_concat; [reflexivity | lia | now right].
    + intros i e Hi Hlast.
      pose proof (sample_frames_flushed_when_due sample) as Hdue.
      apply (proj1 (Forall_lookup _ _)) with (i := i) (x := e) in Hdue;
        [|exact Hi].
      apply Hdue. unfold sample_frames in Hi, Hlast.
      rewrite (SampleFacts.frames_flag ByteSizeLong sample
                 (Z.of_nat (length (TableItem.chunks (ref sample))))
                 (TableItem.chunks (ref sample)) 0 add_entries
                 ltac:(lia) i e Hi).
      apply bool_decide_eq_false_2. lia.
Qed.

End Requests.


(** The entries that stream writes: one of 60 MiB for each of the two
    items of two chunks, then one of 60 MiB and one of 1 MiB for the
    item of three chunks. *)
Example three_items_in_four_entries :
  (fun e => (Examples.payload_size e, end_of_sequence e))
    <$> written_entries
          (trace (SampleStreamInternal Examples.auto_select
                    Examples.payload_size Examples.tables
                    [Examples.sample_request "t" 3 None 2]
                    Examples.three_answers Examples.quiet))
  = [(60 * Examples.MiB, true); (60 * Examples.MiB, true);
     (60 * Examples.MiB, false); (1 * Examples.MiB, true)].
Proof. vm_compute. reflexivity. Qed.

(** C1, as the code has it, at the same stream. *)
Lemma frames_flushed_when_bound_reached_witness :
  outcome (SampleStreamInternal Examples.auto_select Examples.payload_size
             Examples.tables [Examples.sample_request "t" 3 None 2]
             Examples.three_answers Examples.quiet)
  = Return Status_OK
  /\ Forall (writes_when_due Examples.payload_size)
            (trace (SampleStreamInternal Examples.auto_select
                      Examples.payload_size Examples.tables
                      [Examples.sample_request "t" 3 None 2]
                      Examples.three_answers Examples.quiet))
  /\ exists (per_request : list (list Batch)) (per_item : list (list Entry)),
       answers_used [Examples.sample_request "t" 3 None 2]
                    Examples.three_answers Examples.quiet
                    (trace (SampleStreamInternal Examples.auto_select
                              Examples.payload_size Examples.tables
                              [Examples.sample_request "t" 3 None 2]
                              Examples.three_answers Examples.quiet))
                    per_request
       /\ written_entries
            (trace (SampleStreamInternal Examples.auto_select
                      Examples.payload_size Examples.tables
                      [Examples.sample_request "t" 3 None 2]
                      Examples.three_answers Examples.quiet))
          = concat per_item
       /\ Forall2
            (fun sample es =>
               concat (data <$> es) = TableItem.chunks (ref sample)
               /\ forall i e,
                    es !! i = Some e ->
                    (S i < length es)%nat ->
                    kMaxSampleResponseSizeBytes <= Examples.payload_size e)
            (items_of per_request) per_item.
Proof.
  assert (Hout :
    outcome (SampleStreamInternal Examples.auto_select Examples.payload_size
               Examples.tables [Examples.sample_request "t" 3 None 2]
               Examples.three_answers Examples.quiet)
    = Return Status_OK) by (vm_compute; reflexivity).
  split; [exact Hout|].
  destruct (frames_flushed_when_bound_reached Examples.auto_select
              Examples.payload_size Examples.tables
              [Examples.sample_request "t" 3 None 2]
              Examples.three_answers Examples.quiet) as [Hdue Hall].
  split; [exact Hdue | exact (Hall Hout)].
Defined.

(** X12 at a request for one sample of two chunks of 30 MiB, with a
    transport that fails to write. *)
Lemma sample_stream_stops_at_first_failure_witness :
  outcome (SampleStreamInternal Examples.auto_select Examples.payload_size
             Examples.tables [Examples.sample_request "t" 1 None 1]
             [(Status_OK, [Examples.sampled Examples.two_chunks])]
             Examples.broken)
  = Return (Internal "Failed to write to Sample stream.")
  /\ ((Forall wrote
         (trace (SampleStreamInternal Examples.auto_select
                   Examples.payload_size Examples.tables
                   [Examples.sample_request "t" 1 None 1]
                   [(Status_OK, [Examples.sampled Examples.two_chunks])]
                   Examples.broken))
       /\ plain_status Examples.auto_select
            [(Status_OK, [Examples.sampled Examples.two_chunks])]
            (Internal "Failed to write to Sample stream."))
      \/ exists pre response,
           trace (SampleStreamInternal Examples.auto_select
                    Examples.payload_size Examples.tables
                    [Examples.sample_request "t" 1 None 1]
                    [(Status_OK, [Examples.sampled Examples.two_chunks])]
                    Examples.broken)
           = pre ++ [Write response false]
           /\ Forall wrote pre
           /\ Internal "Failed to write to Sample stream."
              = Internal "Failed to write to Sample stream.").
Proof.
  assert (Hout :
    outcome (SampleStreamInternal Examples.auto_select Examples.payload_size
               Examples.tables [Examples.sample_request "t" 1 None 1]
               [(Status_OK, [Examples.sampled Examples.two_chunks])]
               Examples.broken)
    = Return (Internal "Failed to write to Sample stream."))
    by (vm_compute; reflexivity).
  split; [exact Hout|].
  exact (sample_stream_stops_at_first_failure Examples.auto_select
           Examples.payload_size Examples.tables
           [Examples.sample_request "t" 1 None 1]
           [(Status_OK, [Examples.sampled Examples.two_chunks])]
           Examples.broken _ Hout).
Defined.

(** X13 at a request for three samples that the table answers with a
    batch of two and a batch of one, and at the same request on a
    context that is cancelled after the first batch. *)
Lemma request_served_in_full_witness :
  (outcome (serve_request Examples.auto_select Examples.payload_size
              Examples.tables (Examples.sample_request "t" 3 None 2)
              InfiniteDuration Examples.three_answers Examples.quiet)
   = Next [(Status_OK, [])]
   /\ exists used,
        Examples.three_answers = used ++ [(Status_OK, [])]
        /\ Forall (fun answer => ok (fst answer) = true) used
        /\ (Forall (fun c => c = false) (cancelled Examples.quiet) ->
            delivered used <= INT32_MAX -> delivered used = 3))
  /\ (outcome (serve_request Examples.auto_select Examples.payload_size
                 Examples.tables (Examples.sample_request "t" 3 None 2)
                 InfiniteDuration Examples.three_answers Examples.leaving)
      = Next [(Status_OK, [Examples.sampled Examples.three_chunks]);
              (Status_OK, [])]
      /\ exists used,
           Examples.three_answers
           = used ++ [(Status_OK, [Examples.sampled Examples.three_chunks]);
                      (Status_OK, [])]
           /\ Forall (fun answer => ok (fst answer) = true) used
           /\ (Forall (fun c => c = false) (cancelled Examples.leaving) ->
               delivered used <= INT32_MAX -> delivered used = 3)).
Proof.
  assert (Hout :
    outcome (serve_request Examples.auto_select Examples.payload_size
               Examples.tables (Examples.sample_request "t" 3 None 2)
               InfiniteDuration Examples.three_answers Examples.quiet)
    = Next [(Status_OK, [])]) by (vm_compute; reflexivity).
  assert (Hleft :
    outcome (serve_request Examples.auto_select Examples.payload_size
               Examples.tables (Examples.sample_request "t" 3 None 2)
               InfiniteDuration Examples.three_answers Examples.leaving)
    = Next [(Status_OK, [Examples.sampled Examples.three_chunks]);
            (Status_OK, [])]) by (vm_compute; reflexivity).
  split; (split; [eassumption|]).
  - exact (request_served_in_full Examples.auto_select Examples.payload_size
             Examples.tables (Examples.sample_request "t" 3 None 2)
             InfiniteDuration Examples.three_answers [(Status_OK, [])]
             Examples.quiet Hout).
  - exact (request_served_in_full Examples.auto_select Examples.payload_size
             Examples.tables (Examples.sample_request "t" 3 None 2)
             InfiniteDuration Examples.three_answers _
             Examples.leaving Hleft).
Defined.

(** X14 at two requests on a context that is cancelled from the
    start: both pass the checks and the stream ends with OK; with a
    second request for no samples it ends with the error of that
    request. *)
Lemma cancelled_stream_ends_ok_witness :
  Forall (fun c => c = true) (cancelled Examples.gone)
  /\ (length [Examples.sample_request "t" 5 None 2]
      < length (cancelled Examples.gone))%nat
  /\ outcome (SampleStreamInternal Examples.auto_select Examples.payload_size
                Examples.tables
                [Examples.sample_request "t" 3 None 2;
                 Examples.sample_request "t" 5 None 2]
                Examples.three_answers Examples.gone)
     = Return Status_OK
  /\ exists s,
       outcome (SampleStreamInternal Examples.auto_select
                  Examples.payload_size Examples.tables
                  [Examples.sample_request "t" 3 None 2;
                   Examples.sample_request "t" 0 None 2]
                  Examples.three_answers Examples.gone)
       = Return s
       /\ ok s = false.
Proof.
  assert (Hall : Forall (fun c => c = true) (cancelled Examples.gone))
    by (repeat constructor).
  assert (Hlen : (length [Examples.sample_request "t" 5 None 2]
                  < length (cancelled Examples.gone))%nat) by (cbn; lia).
  assert (Hfirst : accepted Examples.auto_select Examples.tables
                            (Examples.sample_request "t" 3 None 2)).
  { split; [cbn; lia|]. split; [left; cbn; lia|].
    now exists {| name := "t"; DefaultFlexibleBatchSize := 64 |}. }
  assert (Hsecond : accepted Examples.auto_select Examples.tables
                             (Examples.sample_request "t" 5 None 2)).
  { split; [cbn; lia|]. split; [left; cbn; lia|].
    now exists {| name := "t"; DefaultFlexibleBatchSize := 64 |}. }
  assert (Hbad : ~ accepted Examples.auto_select Examples.tables
                            (Examples.sample_request "t" 0 None 2)).
  { intros [Hnum _]. cbn in Hnum. lia. }
  split; [exact Hall|]. split; [exact Hlen|]. split.
  - apply (proj1 (proj2 (cancelled_stream_ends_ok Examples.auto_select
                           Examples.payload_size Examples.tables _ _
                           Examples.three_answers Examples.gone Hall Hlen))).
    apply Forall_cons; split; [exact Hfirst|].
    apply Forall_cons; split; [exact Hsecond | constructor].
  - apply (proj2 (proj2 (cancelled_stream_ends_ok Examples.auto_select
                           Examples.payload_size Examples.tables
                           (Examples.sample_request "t" 3 None 2)
                           [Examples.sample_request "t" 0 None 2]
                           Examples.three_answers Examples.gone Hall Hlen))
                 [Examples.sample_request "t" 3 None 2]
                 (Examples.sample_request "t" 0 None 2) [] eq_refl).
    + apply Forall_cons; split; [exact Hfirst | constructor].
    + exact Hbad.
Defined.

End SampleMore.

(** ** The service object: creation, checkpoints and the registry *)

Module ServiceFacts.
Import Service.

Lemma append_assoc (s1 s2 s3 : string) :
  (s1 +:+ s2) +:+ s3 = s1 +:+ (s2 +:+ s3).
Proof.
  induction s1 as [|c s1 IH]; [reflexivity|].
  change (String c ((s1 +:+ s2) +:+ s3) = String c (s1 +:+ s2 +:+ s3)).
  now rewrite IH.
Qed.

Lemma register_snoc tables_ tables table :
  register tables_ (tables ++ [table])
  = <[name table := table]> (register tables_ tables).
Proof. unfold register. now rewrite foldl_app. Qed.

(** The table registered under a name is the last one of the vector
    that bears it. *)
Lemma register_lookup tables_ tables n :
  register tables_ tables !! n
  = match last (filter (fun table => name table = n) tables) with
    | Some table => Some table
    | None => tables_ !! n
    end.
Proof.
  induction tables as [|table tables IH] using rev_ind; [reflexivity|].
  rewrite register_snoc, filter_app, filter_cons, filter_nil.
  case_decide as Hname.
  - rewrite last_snoc, <- Hname. apply lookup_insert_eq.
  - rewrite app_nil_r, lookup_insert_ne by exact Hname. exact IH.
Qed.

Lemma load_checkpoint_run checkpointer tables w :
  let first := Checkpointer.LoadLatest checkpointer tables in
  let second := Checkpointer.LoadFallbackCheckpoint checkpointer (snd first) in
  load_checkpoint checkpointer tables w
  = if IsNotFound (fst first) then
      MkRun (if negb (ok (fst second)) && negb (IsNotFound (fst second))
             then Return (fst second) else Next (snd second))
            w
            [LoadLatest tables (fst first);
             LoadFallbackCheckpoint (snd first) (fst second)]
    else
      MkRun (if negb (ok (fst first)) then Return (fst first)
             else Next (snd first))
            w [LoadLatest tables (fst first)].
Proof.
  cbn zeta. unfold load_checkpoint.
  destruct (Checkpointer.LoadLatest checkpointer tables) as [status loaded].
  cbn [fst snd]. destruct (IsNotFound status) eqn:Hfirst.
  - destruct (Checkpointer.LoadFallbackCheckpoint checkpointer loaded)
      as [status' restored].
    cbn [fst snd]. unfold bind, call, ret, stop. cbn.
    now destruct (negb (ok status') && negb (IsNotFound status')).
  - unfold bind, call, ret, stop. cbn. rewrite Hfirst, andb_true_r.
    now destruct (negb (ok status)).
Qed.

Lemma Uniform_uint64_run w :
  exists drawn w1,
    Uniform_uint64 w = MkRun (Next drawn) w1 [] /\ 0 <= drawn < 2^64.
Proof.
  unfold Uniform_uint64. destruct (next_answer 0 (rnd_ w)) as [drawn rest].
  eexists _, _. split; [reflexivity|]. apply Z.mod_pos_bound. lia.
Qed.

Section Members.
Variable TableInfo : Type.
Variable Uint128 : Type.
Variable Table_info : Table -> TableInfo.
Variable Table_DebugString : Table -> string.
Variable MutateItems : Table -> list KeyWithPriority -> list Key -> Status.
Variable Reset_table : Table -> Status.
Variable iterate : gmap string Table -> list (string * Table).
Variable Uint128ToMessage : Z -> Uint128.
Variable unassigned_state_id : Z.
Variable high_drawn_first : bool.

(** What [Initialize] leaves once the tables are loaded. *)
Lemma Initialize_run self tables w :
  let loading :=
    match checkpointer_ self with
    | Some checkpointer => load_checkpoint checkpointer tables w
    | None => MkRun (Next tables) w []
    end in
  trace (Initialize high_drawn_first self tables w) = trace loading
  /\ match outcome loading with
     | Next loaded =>
         exists initialized,
           outcome (Initialize high_drawn_first self tables w)
           = Next initialized
           /\ checkpointer_ initialized = checkpointer_ self
           /\ tables_ initialized = register (tables_ self) loaded
           /\ 0 <= tables_state_id_ initialized < 2^128
     | Return status =>
         outcome (Initialize high_drawn_first self tables w) = Return status
     | Fatal | Pending => False
     end.
Proof.
  cbn zeta. unfold Initialize.
  set (loading := match checkpointer_ self with
                  | Some checkpointer => load_checkpoint checkpointer tables
                  | None => ret tables
                  end).
  assert (Hloading :
            match checkpointer_ self with
            | Some checkpointer => load_checkpoint checkpointer tables w
            | None => MkRun (Next tables) w []
            end = loading w)
    by (unfold loading; now destruct (checkpointer_ self)).
  rewrite Hloading. clear Hloading.
  assert (Hnever : outcome (loading w) <> Fatal
                   /\ outcome (loading w) <> Pending).
  { unfold loading. destruct (checkpointer_ self) as [checkpointer|];
      [|split; discriminate].
    rewrite load_checkpoint_run.
    destruct (IsNotFound _); cbn [outcome];
      [destruct (_ && _) | destruct (negb _)]; split; discriminate. }
  destruct (loading w) as [out w0 t0] eqn:Hrun.
  cbn [outcome world trace] in *.
  destruct out as [loaded|status| |]; try (now destruct Hnever);
    [|rewrite !(bind_stops _ _ _ _ _ _ Hrun); split; reflexivity].
  rewrite !(bind_run _ _ _ _ _ _ Hrun). cbn beta.
  destruct (Uniform_uint64_run w0) as (first & w1 & Hfirst & Hrange1).
  destruct (Uniform_uint64_run w1) as (second & w2 & Hsecond & Hrange2).
  rewrite !(bind_run _ _ _ _ _ _ Hfirst). cbn beta.
  rewrite !(bind_run _ _ _ _ _ _ Hsecond).
  cbn [outcome world trace ret app]. split; [now rewrite app_nil_r|].
  eexists. split; [reflexivity|]. cbn [checkpointer_ tables_ tables_state_id_].
  repeat split; try reflexivity;
    destruct high_drawn_first; unfold MakeUint128; nia.
Qed.

(** X15.  How [Create] uses the checkpointer.  Without one it calls
    nothing and succeeds.  With one it loads the latest checkpoint and
    turns to the fallback checkpoint exactly when the first answer is
    NotFound; it then either hands out a service that keeps the
    checkpointer, or returns the status of the last call it made, which
    is an error other than NotFound. *)
Theorem create_loads_latest_then_fallback (tables : list Table)
    (checkpointer : Checkpointer.t) (service : option ReverbServiceImpl)
    (w : World) :
  let r := Create unassigned_state_id high_drawn_first tables
                  (Some checkpointer) service w in
  let bare := Create_tables unassigned_state_id high_drawn_first tables
                            service w in
  (trace bare = [] /\ exists new_service, outcome bare = Next (Some new_service))
  /\ (Exists is_fallback (trace r)
      <-> IsNotFound (fst (Checkpointer.LoadLatest checkpointer tables))
          = true)
  /\ ((exists new_service,
         outcome r = Next (Some new_service)
         /\ checkpointer_ new_service = Some checkpointer)
      \/ exists status,
           outcome r = Return status
           /\ ok status = false /\ IsNotFound status = false
           /\ last (trace r) ≫= checkpointer_status = Some status).
Proof.
  intros r bare. subst r bare. unfold Create_tables, Create.
  split; [|split].
  - pose proof (Initialize_run (new_ReverbServiceImpl unassigned_state_id None)
                  tables w) as [Htrace Hout].
    cbn [new_ReverbServiceImpl checkpointer_ outcome trace] in Htrace, Hout.
    destruct Hout as (initialized & Hout & _).
    unfold bind. rewrite Hout. cbn [outcome trace ret].
    rewrite app_nil_r. split; [exact Htrace | eauto].
  - pose proof (Initialize_run
                  (new_ReverbServiceImpl unassigned_state_id
                                         (Some checkpointer))
                  tables w) as [Htrace _].
    cbn [new_ReverbServiceImpl checkpointer_] in Htrace.
    assert (Hsame :
      trace (bind (Initialize high_drawn_first
                     (new_ReverbServiceImpl unassigned_state_id
                                            (Some checkpointer)) tables)
                  (fun new_service => ret (Some new_service)) w)
      = trace (load_checkpoint checkpointer tables w)).
    { rewrite <- Htrace. unfold bind. destruct (outcome _); try reflexivity.
      cbn. apply app_nil_r. }
    rewrite Hsame, load_checkpoint_run.
    destruct (IsNotFound _); cbn [trace].
    + split; [reflexivity|]. intros _. right. now left.
    + split; [|discriminate].
      intros Hex. apply Exists_cons in Hex as [[] | Hex]. inversion Hex.
  - pose proof (Initialize_run
                  (new_ReverbServiceImpl unassigned_state_id
                                         (Some checkpointer))
                  tables w) as [Htrace Hout].
    cbn [new_ReverbServiceImpl checkpointer_] in Htrace, Hout.
    rewrite load_checkpoint_run in Htrace, Hout.
    unfold bind.
    destruct (IsNotFound (fst (Checkpointer.LoadLatest checkpointer tables)))
      eqn:Hfirst; cbn [outcome trace] in Htrace, Hout.
    + destruct (ok (fst (Checkpointer.LoadFallbackCheckpoint _ _))) eqn:Hok;
        destruct (IsNotFound (fst (Checkpointer.LoadFallbackCheckpoint _ _)))
          eqn:Hnf; cbn [negb andb] in Hout;
        try (destruct Hout as (initialized & -> & Hcp & _);
             left; eexists; split; [reflexivity | exact Hcp]).
      rewrite Hout. cbn [outcome trace]. rewrite Htrace.
      right. eexists. now repeat split.
    + destruct (ok (fst (Checkpointer.LoadLatest checkpointer tables)))
        eqn:Hok; cbn [negb] in Hout.
      * destruct Hout as (initialized & -> & Hcp & _).
        left. eexists. split; [reflexivity | exact Hcp].
      * rewrite Hout. cbn [outcome trace]. rewrite Htrace.
        right. eexists. now repeat split.
Qed.

(** X16.  The registry a created service looks tables up in.  The
    tables registered are those of the vector as the checkpointer left
    it: the vector given, when there is no checkpointer; the vector as
    the fallback checkpoint left it, when the latest checkpoint was not
    found; the vector as the latest checkpoint left it, otherwise.  A
    name finds the last table of that vector that bears it, and nothing
    when no table bears it; so every table is found under its own
    name. *)
Theorem created_service_finds_tables_by_name (tables : list Table)
    (checkpointer : option Checkpointer.t)
    (service : option ReverbServiceImpl) (w : World)
    (new_service : ReverbServiceImpl) :
  outcome (Create unassigned_state_id high_drawn_first tables checkpointer
                  service w)
  = Next (Some new_service) ->
  let loaded :=
    match checkpointer with
    | None => tables
    | Some checkpointer =>
        let first := Checkpointer.LoadLatest checkpointer tables in
        if IsNotFound (fst first)
        then snd (Checkpointer.LoadFallbackCheckpoint checkpointer
                    (snd first))
        else snd first
    end in
  (forall n,
     TableByName (Service.tables new_service) n
     = last (filter (fun table => name table = n) loaded))
  /\ (forall n table,
        TableByName (Service.tables new_service) n = Some table ->
        name table = n).
Proof.
  intros Hout loaded. unfold Create in Hout.
  apply bind_next in Hout as (initialized & Hinit & [= ->] & _).
  pose proof (Initialize_run (new_ReverbServiceImpl unassigned_state_id
                                                    checkpointer)
                tables w) as [_ Hrun].
  cbn [new_ReverbServiceImpl checkpointer_ tables_] in Hrun.
  assert (Htables : tables_ new_service = register ∅ loaded).
  { subst loaded. destruct checkpointer as [checkpointer|].
    - rewrite load_checkpoint_run in Hrun. cbn zeta.
      destruct (IsNotFound _); cbn [outcome] in Hrun;
        [destruct (_ && _) | destruct (negb _)];
        try (rewrite Hrun in Hinit; discriminate);
        destruct Hrun as (initialized & Hout' & _ & Htables & _);
        rewrite Hout' in Hinit; injection Hinit as ->;
        exact Htables.
    - cbn [outcome] in Hrun.
      destruct Hrun as (initialized & Hout' & _ & Htables & _).
      rewrite Hout' in Hinit. injection Hinit as ->. exact Htables. }
  assert (Hlookup : forall n,
            TableByName (Service.tables new_service) n
            = last (filter (fun table => name table = n) loaded)).
  { intros n. unfold TableByName, Service.tables.
    rewrite Htables, register_lookup, lookup_empty.
    now destruct (last _). }
  split; [exact Hlookup|].
  intros n table Hfound. rewrite Hlookup in Hfound.
  apply last_Some_elem_of, list_elem_of_filter in Hfound. apply Hfound.
Qed.

(** X17.  A table that is not registered is reported in the same way
    by the calls that name a table: [MutatePriorities], [Reset] and the
    handshake that would hand the table out return NOT_FOUND with the
    message of [TableNotFound]; they call no table, allocate nothing
    and write nothing. *)
Theorem unknown_table_is_not_found (self : ReverbServiceImpl) (n : string)
    (w : World) :
  TableByName (Service.tables self) n = None ->
  (forall request,
     mutate_table request = n ->
     MutatePriorities MutateItems self request w
     = MkRun (Return {| code := NOT_FOUND;
                        message := "Priority table " +:+ n
                                   +:+ " was not found" |}) w [])
  /\ (forall request,
        reset_table request = n ->
        Reset Reset_table self request w
        = MkRun (Return {| code := NOT_FOUND;
                           message := "Priority table " +:+ n
                                      +:+ " was not found" |}) w [])
  /\ (forall IsLocalhostOrInProcess getpid peer request incoming transport,
        IsLocalhostOrInProcess peer = true ->
        Handshake.pid request = getpid ->
        Handshake.table_name request = n ->
        Handshake.InitializeConnection IsLocalhostOrInProcess getpid
          (Service.tables self) peer (request :: incoming) transport
        = MkRun (Return {| code := NOT_FOUND;
                           message := "Priority table " +:+ n
                                      +:+ " was not found" |})
                transport []).
Proof.
  unfold TableByName, Service.tables. intros Hnone. split; [|split].
  - intros request <-. unfold MutatePriorities, TableByName.
    now rewrite Hnone.
  - intros request <-. unfold Reset, TableByName. now rewrite Hnone.
  - intros IsLocal getpid peer request incoming transport Hpeer Hpid <-.
    unfold Handshake.InitializeConnection.
    rewrite Hpeer, Hpid, Z.eqb_refl. cbn [negb]. now rewrite Hnone.
Qed.

Lemma append_tables_join entries :
  forall str entry,
    append_tables Table_DebugString
                  (str +:+ Table_DebugString (snd entry)) false entries
    = str +:+ String.concat ", "
                ((fun entry => Table_DebugString (snd entry))
                   <$> entry :: entries).
Proof.
  induction entries as [|entry' entries IH]; intros str entry;
    [reflexivity|].
  cbn [append_tables]. rewrite IH.
  change (String.concat ", "
            ((fun entry => Table_DebugString (snd entry))
               <$> entry :: entry' :: entries))
    with (Table_DebugString (snd entry)
          +:+ ", "
          +:+ String.concat ", "
                ((fun entry => Table_DebugString (snd entry))
                   <$> entry' :: entries)).
  now rewrite !append_assoc.
Qed.

(** X18.  [DebugString] lists the tables it iterates over separated
    by a comma and a space, with no separator before the first or
    after the last, between the fixed head and the checkpointer's own
    string (or "nullptr"). *)
Theorem debug_string_joins_tables (self : ReverbServiceImpl) :
  DebugString Table_DebugString iterate self
  = "ReverbService(tables=["
    +:+ String.concat ", "
          ((fun entry => Table_DebugString (snd entry))
             <$> iterate (tables_ self))
    +:+ "], checkpointer="
    +:+ match checkpointer_ self with
        | Some checkpointer => Checkpointer.DebugString checkpointer
        | None => "nullptr"
        end
    +:+ ")".
Proof.
  unfold DebugString.
  destruct (iterate (tables_ self)) as [|entry entries]; [reflexivity|].
  cbn [append_tables]. rewrite append_tables_join.
  now rewrite append_assoc.
Qed.

(** The hash map hands out each of its entries once, in an order of
    its own. *)
Hypothesis iterate_permutes : forall m, iterate m ≡ₚ map_to_list m.

Lemma iterate_registered (self : ReverbServiceImpl) :
  (forall n table, tables_ self !! n = Some table -> name table = n) ->
  name <$> (snd <$> iterate (tables_ self)) = fst <$> iterate (tables_ self)
  /\ NoDup (fst <$> iterate (tables_ self))
  /\ (forall table,
        table ∈ snd <$> iterate (tables_ self)
        <-> tables_ self !! name table = Some table)
  /\ (forall n,
        n ∈ fst <$> iterate (tables_ self) <-> is_Some (tables_ self !! n)).
Proof.
  intros Hnames.
  assert (Hentry : forall entry,
            entry ∈ iterate (tables_ self)
            <-> tables_ self !! fst entry = Some (snd entry)).
  { intros [n table]. rewrite (iterate_permutes (tables_ self)).
    apply elem_of_map_to_list. }
  split; [|split; [|split]].
  - rewrite <- list_fmap_compose. apply list_fmap_ext.
    intros i entry Hi. cbn. apply Hnames, Hentry.
    eapply list_elem_of_lookup_2. exact Hi.
  - rewrite (iterate_permutes (tables_ self)). apply NoDup_fst_map_to_list.
  - intros table. rewrite list_elem_of_fmap. split.
    + intros ([n table'] & -> & Hin). apply Hentry in Hin. cbn in *.
      now rewrite (Hnames _ _ Hin).
    + intros Hfound. exists (name table, table). split; [reflexivity|].
      now apply Hentry.
  - intros n. rewrite list_elem_of_fmap. split.
    + intros ([n' table] & -> & Hin). apply Hentry in Hin. cbn in *. eauto.
    + intros [table Hfound]. exists (n, table). split; [reflexivity|].
      now apply Hentry.
Qed.

(** X19.  [Checkpoint] needs a checkpointer: without one it returns
    INVALID_ARGUMENT and saves nothing.  With one it calls [Save]
    once, keeping one checkpoint, on the registered tables, each of
    them once; it returns the path [Save] wrote when [Save] is OK and
    the status of [Save] when it is not. *)
Theorem checkpoint_saves_each_table_once (self : ReverbServiceImpl)
    (response : CheckpointResponse) (w : World) :
  (forall n table, tables_ self !! n = Some table -> name table = n) ->
  match checkpointer_ self with
  | None =>
      Checkpoint iterate self response w
      = MkRun (Return
                 {| code := INVALID_ARGUMENT;
                    message :=
                      "no Checkpointer configured for the replay service." |})
              w []
  | Some checkpointer =>
      exists saved,
        NoDup (name <$> saved)
        /\ (forall table,
              table ∈ saved
              <-> TableByName (Service.tables self) (name table) = Some table)
        /\ Checkpoint iterate self response w
           = MkRun (if ok (fst (Checkpointer.Save checkpointer saved 1))
                    then Next {| checkpoint_path :=
                                   snd (Checkpointer.Save checkpointer saved 1)
                              |}
                    else Return (fst (Checkpointer.Save checkpointer saved 1)))
                   w
                   [Save saved 1 (fst (Checkpointer.Save checkpointer saved 1))]
  end.
Proof.
  intros Hnames. unfold Checkpoint.
  destruct (checkpointer_ self) as [checkpointer|]; [|reflexivity].
  destruct (iterate_registered self Hnames) as (Heq & Hnodup & Htables & _).
  exists (snd <$> iterate (tables_ self)).
  split; [now rewrite Heq|]. split; [exact Htables|].
  destruct (Checkpointer.Save checkpointer _ 1) as [status path].
  cbn [fst snd]. unfold bind, call. cbn.
  now destruct (ok status).
Qed.

Lemma Close_run entries (w : World) :
  for_each (fun entry : string * Table =>
              call (Table_Close (name (snd entry)))) entries w
  = MkRun (Next tt) w
          ((fun entry => Table_Close (name (snd entry))) <$> entries).
Proof.
  induction entries as [|entry entries IH]; [reflexivity|].
  cbn [for_each].
  rewrite (bind_run _ _ _ tt w [Table_Close (name (snd entry))])
    by reflexivity.
  now rewrite IH.
Qed.

Lemma closed_Close (entries : list (string * Table)) :
  closed ((fun entry => Table_Close (name (snd entry))) <$> entries)
  = name ∘ snd <$> entries.
Proof.
  induction entries as [|entry entries IH]; [reflexivity|].
  cbn. f_equal. exact IH.
Qed.

(** X20.  [Close] and [ServerInfo] visit the registry: [Close] closes
    every registered table, each once, and no other; [ServerInfo]
    reports as many tables as are registered. *)
Theorem registry_visited_once (self : ReverbServiceImpl) (w : World) :
  (forall n table, tables_ self !! n = Some table -> name table = n) ->
  outcome (Close iterate self w) = Next tt
  /\ NoDup (closed (trace (Close iterate self w)))
  /\ (forall n,
        n ∈ closed (trace (Close iterate self w))
        <-> is_Some (TableByName (Service.tables self) n))
  /\ length (table_info TableInfo Uint128
               (ServerInfo TableInfo Uint128 Table_info iterate
                           Uint128ToMessage self))
     = size (tables_ self).
Proof.
  intros Hnames. unfold Close. rewrite Close_run. cbn [outcome trace].
  destruct (iterate_registered self Hnames) as (Heq & Hnodup & _ & Hkeys).
  assert (Hclosed :
            closed ((fun entry : string * Table =>
                       Table_Close (name (snd entry)))
                      <$> iterate (tables_ self))
            = fst <$> iterate (tables_ self)).
  { rewrite <- Heq, <- list_fmap_compose. apply closed_Close. }
  rewrite Hclosed. split; [reflexivity|]. split; [exact Hnodup|].
  split; [exact Hkeys|].
  cbn [ServerInfo table_info]. rewrite length_fmap.
  rewrite (iterate_permutes (tables_ self)). apply length_map_to_list.
Qed.

End Members.

(** X16 at a vector with two tables named "t", loaded through the
    fallback checkpoint, which restores table "u": the registry finds
    "u", and under "t" the second of the two tables. *)
Lemma created_service_finds_tables_by_name_witness :
  outcome (Create 0 true
                  [{| name := "t"; DefaultFlexibleBatchSize := 64 |};
                   Examples.table_t']
                  (Some Examples.with_fallback) None Examples.seeded)
  = Next (Some Examples.created)
  /\ (forall n,
        TableByName (Service.tables Examples.created) n
        = last (filter (fun table => name table = n)
                       [{| name := "t"; DefaultFlexibleBatchSize := 64 |};
                        Examples.table_t'; Examples.table_u]))
  /\ (forall n table,
        TableByName (Service.tables Examples.created) n = Some table ->
        name table = n).
Proof.
  assert (Hout :
    outcome (Create 0 true
                    [{| name := "t"; DefaultFlexibleBatchSize := 64 |};
                     Examples.table_t']
                    (Some Examples.with_fallback) None Examples.seeded)
    = Next (Some Examples.created)) by (vm_compute; reflexivity).
  split; [exact Hout|].
  exact (created_service_finds_tables_by_name 0 true _ _ _ _ _ Hout).
Defined.

(** X17 at a name that the service of the examples does not know. *)
Lemma unknown_table_is_not_found_witness :
  TableByName (Service.tables Examples.service) "v" = None
  /\ MutatePriorities (fun _ _ _ => Status_OK) Examples.service
       {| mutate_table := "v"; updates := []; delete_keys := [7%N] |}
       Examples.seeded
     = MkRun (Return {| code := NOT_FOUND;
                        message := "Priority table v was not found" |})
             Examples.seeded [].
Proof.
  assert (Hnone : TableByName (Service.tables Examples.service) "v" = None)
    by (vm_compute; reflexivity).
  split; [exact Hnone|].
  exact (proj1 (unknown_table_is_not_found
                  (fun _ _ _ => Status_OK) (fun _ => Status_OK)
                  Examples.service "v" Examples.seeded Hnone)
               {| mutate_table := "v"; updates := []; delete_keys := [7%N] |}
               eq_refl).
Defined.

Lemma service_tables_by_name :
  forall n table,
    tables_ Examples.service !! n = Some table -> name table = n.
Proof.
  intros n table Hfound. unfold Examples.service, Examples.tables in Hfound.
  cbn [tables_] in Hfound.
  apply lookup_insert_Some in Hfound as [[<- <-] | [_ Hfound]];
    [reflexivity|].
  apply lookup_singleton_Some in Hfound as [<- <-]. reflexivity.
Qed.

(** X19 at the service of the examples. *)
Lemma checkpoint_saves_each_table_once_witness :
  exists saved,
    NoDup (name <$> saved)
    /\ (forall table,
          table ∈ saved
          <-> TableByName (Service.tables Examples.service) (name table)
              = Some table)
    /\ Checkpoint map_to_list Examples.service {| checkpoint_path := "" |}
                  Examples.seeded
       = MkRun (Next {| checkpoint_path := "/ckpt/1" |}) Examples.seeded
               [Save saved 1 Status_OK].
Proof.
  exact (checkpoint_saves_each_table_once map_to_list
           (fun m => reflexivity (map_to_list m))
           Examples.service {| checkpoint_path := "" |} Examples.seeded
           service_tables_by_name).
Defined.

(** X20 at the service of the examples. *)
Lemma registry_visited_once_witness :
  outcome (Close map_to_list Examples.service Examples.seeded) = Next tt
  /\ NoDup (closed (trace (Close map_to_list Examples.service
                                 Examples.seeded)))
  /\ (forall n,
        n ∈ closed (trace (Close map_to_list Examples.service
                                 Examples.seeded))
        <-> is_Some (TableByName (Service.tables Examples.service) n))
  /\ length (table_info Z Z
               (ServerInfo Z Z DefaultFlexibleBatchSize map_to_list
                           (fun id => id) Examples.service))
     = size (tables_ Examples.service).
Proof.
  exact (registry_visited_once Z Z DefaultFlexibleBatchSize map_to_list
           (fun id => id) (fun m => reflexivity (map_to_list m))
           Examples.service Examples.seeded service_tables_by_name).
Defined.

End ServiceFacts.

(** ** The handshake: when it succeeds *)

Module HandshakeMore.
Import Handshake.

Section Accepted.
Variable IsLocalhostOrInProcess : string -> bool.
Variable getpid : Z.
Variable tables_ : gmap string Table.

(** X21.  A handshake that allocated a holder was asked by a local
    peer with the pid of the server for a registered table, and the
    holder holds that table.  It returns OK exactly when the address
    was written and the next request of the client confirms the
    transfer of ownership; every other way it ends is INTERNAL. *)
Theorem handshake_ok_needs_confirmation (peer : string)
    (incoming : list InitializeConnectionRequest) (w : World)
    (table : Table) (ptr : Z) :
  let r := InitializeConnection IsLocalhostOrInProcess getpid tables_ peer
                                incoming w in
  In (New table ptr) (trace r) ->
  (IsLocalhostOrInProcess peer = true
   /\ exists request later,
        incoming = request :: later
        /\ pid request = getpid
        /\ tables_ !! table_name request = Some table)
  /\ (outcome r = Return Status_OK
      <-> fst (next_answer true (writes w)) = true
          /\ exists request confirmation later,
               incoming = request :: confirmation :: later
               /\ ownership_transferred confirmation = true)
  /\ (outcome r = Return Status_OK
      \/ exists msg, outcome r = Return (Internal msg)).
Proof.
  cbn zeta. unfold InitializeConnection.
  destruct (IsLocalhostOrInProcess peer); cbn [negb]; [|intros []].
  destruct incoming as [|request incoming]; [intros []|].
  destruct (pid request =? getpid) eqn:Hpid; cbn [negb].
  2:{ unfold bind, stream_Write. destruct (next_answer true (writes w)).
      cbn. intros [Hev | []]. discriminate. }
  apply Z.eqb_eq in Hpid.
  destruct (tables_ !! table_name request) as [table'|] eqn:Htable;
    [|intros []].
  destruct w as [ws [|ptr' hp]]; [intros []|].
  unfold bind, new_holder, with_cleanup, stream_Write; cbn.
  destruct ws as [|[] ws]; cbn;
    [ destruct incoming as [|confirmation incoming]; cbn;
      [|destruct (ownership_transferred confirmation) eqn:Hconfirmed; cbn]
    | destruct incoming as [|confirmation incoming]; cbn;
      [|destruct (ownership_transferred confirmation) eqn:Hconfirmed; cbn]
    | ];
    (intros [[= <- <-] | [Hev | [Hev | []]]]; try discriminate);
    (split;
     [split; [reflexivity|]; eexists _, _; split; [reflexivity | auto]|]);
    (split;
     [split;
      [intros Hout;
       first [ discriminate Hout
             | split; [reflexivity|];
               eexists _, _, _; split; [reflexivity | assumption] ]
      |intros [Hwritten (rq & cf & lt & Heq & Hown)];
       first [ reflexivity
             | discriminate Hwritten
             | discriminate Heq
             | injection Heq as <- <- <-; congruence ]]
     |first [ left; reflexivity | right; eexists; reflexivity ]]).
Qed.

End Accepted.

(** X21 at a handshake that goes through. *)
Lemma handshake_ok_needs_confirmation_witness :
  In (New {| name := "t"; DefaultFlexibleBatchSize := 64 |} 4096)
     (trace (InitializeConnection Examples.is_loopback Examples.server_pid
               Examples.tables "ipv4:127.0.0.1:5000"
               [Examples.handshake_request Examples.server_pid;
                Examples.confirmation]
               Examples.fresh_heap))
  /\ (outcome (InitializeConnection Examples.is_loopback Examples.server_pid
                 Examples.tables "ipv4:127.0.0.1:5000"
                 [Examples.handshake_request Examples.server_pid;
                  Examples.confirmation]
                 Examples.fresh_heap)
      = Return Status_OK
      <-> fst (next_answer true (writes Examples.fresh_heap)) = true
          /\ exists request confirmation later,
               [Examples.handshake_request Examples.server_pid;
                Examples.confirmation]
               = request :: confirmation :: later
               /\ ownership_transferred confirmation = true).
Proof.
  assert (Hnew :
    In (New {| name := "t"; DefaultFlexibleBatchSize := 64 |} 4096)
       (trace (InitializeConnection Examples.is_loopback Examples.server_pid
                 Examples.tables "ipv4:127.0.0.1:5000"
                 [Examples.handshake_request Examples.server_pid;
                  Examples.confirmation]
                 Examples.fresh_heap)))
    by (vm_compute; now left).
  split; [exact Hnew|].
  exact (proj1 (proj2 (handshake_ok_needs_confirmation Examples.is_loopback
                         Examples.server_pid Examples.tables
                         "ipv4:127.0.0.1:5000"
                         [Examples.handshake_request Examples.server_pid;
                          Examples.confirmation]
                         Examples.fresh_heap _ _ Hnew))).
Defined.

End HandshakeMore.
